(** * Project Flowerbed multiplayer: relay, client transport, sync coordinator

    A shallow embedding of

    - [server/multiplayer/index.js]           (module [Relay]),
    - [js/lib/net/TransportWebSocket.js]      (module [Transport]),
    - [js/systems/multiplayer/MultiplayerSystem.js] (module [Sync]),

    together with the fragment of JavaScript they rely on (module [JS]):
    its values, the arithmetic of doubles and the conversions that can
    throw.  The definitions come first; what is proved about them
    follows in [SanitizerFacts], [RelayFacts], [TransportFacts] and
    [SyncFacts], and in [RoundingFacts], [SanitizerMore], [RelayMore],
    [TransportMore] and [SyncMore]. *)

From Stdlib Require Import ZArith QArith Qround Lia Lqa Floats.
From stdpp Require Import gmap strings list.

Local Open Scope Z_scope.
Set Warnings "-register-all,-clear-no-such-hyp,-inexact-float".

(** * The JavaScript values the programs compute with *)

Module JS.

(** A JavaScript number: a finite double by its exact rational value
    (negative zero is not told from zero: [JSON.stringify] writes both
    as 0), the two infinities and NaN.  Arithmetic rounds to the nearest
    double, see [round64] below. *)
Inductive number :=
| Fin (q : Q)
| PosInf
| NegInf
| NaN.

(** A JavaScript value as [JSON.parse] builds it, plus [undefined] for
    what a missing property reads as. *)
Inductive value :=
| Undefined
| Null
| Bool (b : bool)
| Num (n : number)
| Str (s : string)
| Arr (items : list value)
| Obj (props : list (string * value)).

Definition of_Z (z : Z) : number := Fin (inject_Z z).

(** ToBoolean: what [!v], [v || w] and [if (v)] look at. *)
Definition truthy (v : value) : bool :=
  match v with
  | Undefined | Null => false
  | Bool b => b
  | Num (Fin q) => negb (Qeq_bool q 0)
  | Num NaN => false
  | Num _ => true
  | Str s => negb (String.eqb s EmptyString)
  | Arr _ | Obj _ => true
  end.

(** [a || b] *)
Definition or_else (a b : value) : value := if truthy a then a else b.

Fixpoint assoc (k : string) (props : list (string * value)) : value :=
  match props with
  | [] => Undefined
  | (k', v) :: rest => if String.eqb k k' then v else assoc k rest
  end.

(** [o.k] for an [o] that is neither [null] nor [undefined] and a
    property name these programs read ([type], [clientId], [head], [p],
    [x], ...): an own property of an object, [undefined] on anything else
    (numbers, strings, booleans and arrays have no property of these
    names). *)
Definition get (o : value) (k : string) : value :=
  match o with
  | Obj props => assoc k props
  | _ => Undefined
  end.

(** [typeof v === 'number'] *)
Definition is_number (v : value) : bool :=
  match v with Num _ => true | _ => false end.

(** [v === s] for a string [s]. *)
Definition is_string (v : value) (s : string) : bool :=
  match v with Str s' => String.eqb s' s | _ => false end.

(** [v === 1] *)
Definition is_one (v : value) : bool :=
  match v with Num (Fin q) => Qeq_bool q 1 | _ => false end.

(** ** Double-precision arithmetic

    A finite double is a rational [m * 2^e] with [|m| < 2^53] and
    [-1074 <= e <= 971].  An arithmetic operation yields its exact
    result rounded to the nearest double, ties to the one with the even
    mantissa, and an infinity where that is beyond the largest double
    (IEEE 754 roundTiesToEven, which ECMAScript prescribes). *)

(** The integer nearest to [n / d], for [d > 0]; ties to the even one. *)
Definition nearest_even (n d : Z) : Z :=
  match 2 * (n mod d) ?= d with
  | Lt => n / d
  | Gt => n / d + 1
  | Eq => if Z.even (n / d) then n / d else n / d + 1
  end.

(** [a / 2^e] as a fraction, for [e] of either sign. *)
Definition scaled (n d e : Z) : Z * Z :=
  if 0 <=? e then (n, d * 2 ^ e) else (n * 2 ^ (- e), d).

(** The integer part of the binary logarithm of [n / d], for positive
    [n] and [d]. *)
Definition floor_log2 (n d : Z) : Z :=
  let l := Z.log2 n - Z.log2 d in
  let '(n', d') := scaled n d l in
  if n' <? d' then l - 1 else l.

(** The exponent of the double nearest to [n / d]: the mantissa has 53
    bits, and no exponent is below that of the subnormal numbers. *)
Definition exponent (n d : Z) : Z := Z.max (floor_log2 n d - 52) (-1074).

(** [m * 2^e] as a rational. *)
Definition dyadic (m e : Z) : Q :=
  if 0 <=? e then inject_Z (m * 2 ^ e) else m # Z.to_pos (2 ^ (- e)).

(** The mantissa of the double nearest to [n / d]. *)
Definition significand (n d : Z) : Z :=
  let '(n', d') := scaled n d (exponent n d) in nearest_even n' d'.

(** The rational [q] as a double. *)
Definition round64 (q : Q) : number :=
  let n := Z.abs (Qnum q) in
  let d := Z.pos (Qden q) in
  if Qnum q =? 0 then Fin 0
  else
    let e := exponent n d in
    let m := significand n d in
    if (971 <? e) || ((e =? 971) && (2 ^ 53 <=? m))
    then if 0 <? Qnum q then PosInf else NegInf
    else Fin (Qred (if 0 <? Qnum q then dyadic m e else - dyadic m e)).

(** [n * k] and [n / k] for a finite constant [k > 0]. *)
Definition mul (n : number) (k : Q) : number :=
  match n with Fin q => round64 (q * k) | _ => n end.

Definition div (n : number) (k : Q) : number :=
  match n with Fin q => round64 (q / k) | _ => n end.

(** The number a hardware double stands for. *)
Definition of_float (f : float) : number :=
  match Prim2SF f with
  | S754_zero _ => Fin 0
  | S754_infinity false => PosInf
  | S754_infinity true => NegInf
  | S754_nan => NaN
  | S754_finite s m e =>
      Fin (Qred (if s then - dyadic (Z.pos m) e else dyadic (Z.pos m) e))
  end.

(** [round64] against the hardware, on one product or quotient. *)
Definition same_product (x y : float) : bool :=
  match of_float x, of_float y, of_float (x * y)%float with
  | Fin p, Fin q, Fin r =>
      match round64 (p * q) with Fin r' => Qeq_bool r r' | _ => false end
  | Fin p, Fin q, PosInf =>
      match round64 (p * q) with PosInf => true | _ => false end
  | Fin p, Fin q, NegInf =>
      match round64 (p * q) with NegInf => true | _ => false end
  | _, _, _ => false
  end.

Definition same_quotient (x y : float) : bool :=
  match of_float x, of_float y, of_float (x / y)%float with
  | Fin p, Fin q, Fin r =>
      match round64 (p / q) with Fin r' => Qeq_bool r r' | _ => false end
  | Fin p, Fin q, PosInf =>
      match round64 (p / q) with PosInf => true | _ => false end
  | Fin p, Fin q, NegInf =>
      match round64 (p / q) with NegInf => true | _ => false end
  | _, _, _ => false
  end.

(** [Math.round]: the nearest integer, ties towards +infinity. *)
Definition Math_round (n : number) : number :=
  match n with Fin q => of_Z (Qfloor (q + (1 # 2))) | _ => n end.

(** [Math.min(a, b)] and [Math.max(a, b)]: NaN as soon as one argument is. *)
Definition Math_min (a b : number) : number :=
  match a, b with
  | NaN, _ | _, NaN => NaN
  | NegInf, _ | _, NegInf => NegInf
  | PosInf, n | n, PosInf => n
  | Fin p, Fin q => if Qle_bool p q then a else b
  end.

Definition Math_max (a b : number) : number :=
  match a, b with
  | NaN, _ | _, NaN => NaN
  | PosInf, _ | _, PosInf => PosInf
  | NegInf, n | n, NegInf => n
  | Fin p, Fin q => if Qle_bool p q then b else a
  end.

(** ** Exceptions *)

(** What evaluating an expression comes to: a value, or an exception. *)
Inductive Result (A : Type) :=
| Returned (a : A)
| Threw.
Arguments Returned {A} a.
Arguments Threw {A}.

Global Instance Result_ret : MRet Result := λ A a, Returned a.
Global Instance Result_bind : MBind Result :=
  λ A B f r, match r with Returned a => f a | Threw => Threw end.

(** An object has the own property [k]. *)
Definition has_own (k : string) (props : list (string * value)) : bool :=
  existsb (λ kv, String.eqb kv.1 k) props.

(** The values whose conversion to a primitive, by ToNumber or
    ToString, throws a TypeError.  An object built by [JSON.parse] has no
    callable property, so an own [toString] hides
    [Object.prototype.toString] and leaves the conversion without a
    method that returns a primitive ([valueOf] returns the object); an
    array converts by [join], which converts its elements. *)
Fixpoint unprintable (v : value) : bool :=
  match v with
  | Obj props => has_own "toString" props
  | Arr items => existsb unprintable items
  | _ => false
  end.

Section ToNumber.

(** The two conversions of the language that go through text are left
    to the runtime: StringToNumber, and the string an array converts to
    ([Array.prototype.join]). *)
Variable StringToNumber : string → number.
Variable ArrayToString : list value → string.

(** ToNumber, as applied by [v * 1000]. *)
Definition ToNumber (v : value) : Result number :=
  if unprintable v then Threw
  else
    Returned
      match v with
      | Undefined => NaN
      | Null => Fin 0
      | Bool true => Fin 1
      | Bool false => Fin 0
      | Num n => n
      | Str s => StringToNumber s
      | Arr items => StringToNumber (ArrayToString items)
      | Obj _ => NaN
      end.

End ToNumber.

End JS.

(** * The relay server: [server/multiplayer/index.js] *)

Module Relay.
Import JS.

(** A WebSocket connection object [ws], by identity. *)
Definition conn := nat.

Record Vector3 := mkVector3 { vx : number; vy : number; vz : number }.
Record Quaternion :=
  mkQuaternion { qx : number; qy : number; qz : number; qw : number }.
Record Pose := mkPose { p : Vector3; q : Quaternion }.

(** The object [sanitizeSnapshot] builds; [clientId] is [undefined] until
    [handleSnapshot] assigns it. *)
Record Snapshot := mkSnapshot {
  snap_t : value;
  snap_head : Pose;
  snap_lh : Pose;
  snap_rh : Pose;
  snap_clientId : value
}.

(** What the relay puts on the wire; every message carries [v: 1]. *)
Inductive Outbound :=
| Join (clientId : value) (timestamp : Z)
| Leave (clientId : value) (timestamp : Z)
| HelloAck (clientId : value) (room : string)
| SnapshotMsg (s : Snapshot)
| PlantMsg (clientId plantType : value) (pos : Vector3) (quat : Quaternion)
    (t : value)
| Error (error : string) (timestamp : Z).

(** The properties of a parsed inbound message that the relay reads; a
    property the message lacks is [Undefined].  Room identifiers are
    strings, the keys of the room registry; [None] is a message without
    [room], for which the relay takes ['default']. *)
Record Message := mkMessage {
  msg_v : value;
  msg_type : value;
  msg_clientId : value;
  msg_room : option string;
  msg_t : value;
  msg_head : value;
  msg_lh : value;
  msg_rh : value;
  msg_plantType : value;
  msg_pos : value;
  msg_quat : value
}.

(** The session record kept in [this.clients]; [lastSnapshot] is absent
    until the first accepted snapshot. *)
Record Client := mkClient {
  clientId : value;
  room : string;
  lastPing : Z;
  lastSnapshot : option Z
}.

Record Server := mkServer {
  rooms : gmap string (gset conn);
  clients : gmap conn Client
}.

(** What a handler sees of the outside: the clock ([Date.now()], taken
    to read the same throughout one run of a handler) and which sockets
    have [readyState === OPEN]. *)
Record Env := mkEnv { now : Z; isOpen : conn → bool }.

(** The calls [socket.send(text)] a handler makes, in order. *)
Abbreviation Sent := (list (conn * Outbound)).

Definition initial : Server := mkServer ∅ ∅.

Section Handlers.

Variable StringToNumber : string → number.
Variable ArrayToString : list value → string.

(** [Math.max(lo, Math.min(hi, Math.round(n * 1000) / 1000))] *)
Definition bound (lo hi : Q) (n : number) : number :=
  Math_max (Fin lo) (Math_min (Fin hi) (div (Math_round (mul n 1000)) 1000)).

(** The same of a value [c]; the product converts [c] to a number,
    which can throw. *)
Definition clamp (lo hi : Q) (c : value) : Result number :=
  n ← ToNumber StringToNumber ArrayToString c; mret (bound lo hi n).

Definition clampVector3 (vec : value) : Result Vector3 :=
  if negb (truthy vec) || negb (is_number (get vec "x"))
  then mret (mkVector3 (Fin 0) (Fin 0) (Fin 0))
  else
    x ← clamp (-1000) 1000 (get vec "x");
    y ← clamp (-1000) 1000 (get vec "y");
    z ← clamp (-1000) 1000 (get vec "z");
    mret (mkVector3 x y z).

Definition clampQuaternion (quat : value) : Result Quaternion :=
  if negb (truthy quat) || negb (is_number (get quat "x"))
  then mret (mkQuaternion (Fin 0) (Fin 0) (Fin 0) (Fin 1))
  else
    x ← clamp (-1) 1 (get quat "x");
    y ← clamp (-1) 1 (get quat "y");
    z ← clamp (-1) 1 (get quat "z");
    w ← clamp (-1) 1 (get quat "w");
    mret (mkQuaternion x y z w).

(** [{ p: this.clampVector3(part.p), q: this.clampQuaternion(part.q) }] *)
Definition sanitizePose (part : value) : Result Pose :=
  p ← clampVector3 (get part "p");
  q ← clampQuaternion (get part "q");
  mret (mkPose p q).

(** [sanitizeSnapshot]: [null] for a message that lacks a pose. *)
Definition sanitizeSnapshot (env : Env) (message : Message)
  : Result (option Snapshot) :=
  if negb (truthy (msg_head message)) || negb (truthy (msg_lh message))
     || negb (truthy (msg_rh message))
  then mret None
  else
    head ← sanitizePose (msg_head message);
    lh ← sanitizePose (msg_lh message);
    rh ← sanitizePose (msg_rh message);
    mret (Some (mkSnapshot
                  (or_else (msg_t message) (Num (of_Z (now env))))
                  head lh rh Undefined)).

(** The sanitizer returns on the three poses of the message: none of
    the conversions it makes throws. *)
Definition poses_convert (message : Message) : bool :=
  match sanitizePose (msg_head message), sanitizePose (msg_lh message),
        sanitizePose (msg_rh message) with
  | Returned _, Returned _, Returned _ => true
  | _, _, _ => false
  end.

Definition send (env : Env) (ws : conn) (message : Outbound) : Sent :=
  if isOpen env ws then [(ws, message)] else [].

Definition sendError (env : Env) (ws : conn) (error : string) : Sent :=
  send env ws (Error error (now env)).

(** The members a broadcast reaches: every member of the set but
    [exclude], as far as its socket is open.  The order in which they
    are reached is not modelled: a JavaScript [Set] is gone through in
    the order of insertion, the list of [elements] has another order.
    What is stated about a broadcast is stated of what each socket is
    sent. *)
Definition recipients (env : Env) (roomClients : gset conn)
    (exclude : option conn) : list conn :=
  filter (λ client, Some client ≠ exclude ∧ isOpen env client = true)
         (elements roomClients).

Definition broadcastToRoom (env : Env) (st : Server) (roomId : string)
    (message : Outbound) (exclude : option conn) : Sent :=
  match rooms st !! roomId with
  | None => []
  | Some roomClients =>
      (λ client, (client, message)) <$> recipients env roomClients exclude
  end.

Definition cleanupClient (st : Server) (ws : conn) : Server :=
  match clients st !! ws with
  | Some client =>
      mkServer (alter (λ members, members ∖ {[ws]}) (room client) (rooms st))
               (delete ws (clients st))
  | None => st
  end.

(** A handler leaves the relay in a state, has sent what it has sent,
    and has returned or thrown: what a handler did before it throws
    stays done. *)
Abbreviation Outcome := (Server * Sent * bool)%type.

(** [handleHello]; the template literal of its [console.log] converts
    [clientId] to a string, which can throw: by then the session is
    registered, and neither the join nor the [hello_ack] has been
    sent. *)
Definition handleHello (env : Env) (st : Server) (ws : conn)
    (message : Message) : Outcome :=
  let clientId := msg_clientId message in
  let room := default "default"%string (msg_room message) in
  if negb (truthy clientId)
  then (st, sendError env ws "clientId required", false)
  else
    let st := cleanupClient st ws in
    let clients' :=
      <[ws := mkClient clientId room (now env) None]> (clients st) in
    let rooms' :=
      match rooms st !! room with
      | Some _ => rooms st
      | None => <[room := ∅]> (rooms st)
      end in
    let rooms' := alter (λ members, members ∪ {[ws]}) room rooms' in
    let st := mkServer rooms' clients' in
    if unprintable clientId then (st, [], true)
    else
      (st, broadcastToRoom env st room (Join clientId (now env)) (Some ws)
             ++ send env ws (HelloAck clientId room), false).

(** [client.lastSnapshot && now - client.lastSnapshot < 40] *)
Definition rateLimited (env : Env) (client : Client) : bool :=
  match lastSnapshot client with
  | Some last => negb (last =? 0) && (now env - last <? 40)
  | None => false
  end.

(** [handleSnapshot]; the sanitizer can throw, after the session has
    been stamped. *)
Definition handleSnapshot (env : Env) (st : Server) (ws : conn)
    (message : Message) : Outcome :=
  match clients st !! ws with
  | None => (st, sendError env ws "Not authenticated", false)
  | Some client =>
      if rateLimited env client then (st, [], false)
      else
        let client :=
          mkClient (clientId client) (room client) (lastPing client)
                   (Some (now env)) in
        let st := mkServer (rooms st) (<[ws := client]> (clients st)) in
        match sanitizeSnapshot env message with
        | Threw => (st, [], true)
        | Returned None => (st, [], false)
        | Returned (Some sanitized) =>
            let sanitized :=
              mkSnapshot (snap_t sanitized) (snap_head sanitized)
                         (snap_lh sanitized) (snap_rh sanitized)
                         (clientId client) in
            (st, broadcastToRoom env st (room client)
                   (SnapshotMsg sanitized) (Some ws), false)
        end
  end.

(** [handlePlantEvent]; the object it broadcasts is built with
    [clampVector3(pos)] and then [clampQuaternion(quat)], each of which
    can throw. *)
Definition handlePlantEvent (env : Env) (st : Server) (ws : conn)
    (message : Message) : Outcome :=
  match clients st !! ws with
  | None => (st, sendError env ws "Not authenticated", false)
  | Some client =>
      if negb (truthy (msg_plantType message))
         || negb (truthy (msg_pos message))
         || negb (truthy (msg_quat message))
      then (st, sendError env ws "Invalid plant event data", false)
      else
        match
          pos ← clampVector3 (msg_pos message);
          quat ← clampQuaternion (msg_quat message);
          mret (pos, quat)
        with
        | Threw => (st, [], true)
        | Returned (pos, quat) =>
            (st, broadcastToRoom env st (room client)
                   (PlantMsg (clientId client) (msg_plantType message)
                      pos quat
                      (or_else (msg_t message) (Num (of_Z (now env)))))
                   (Some ws), false)
        end
  end.

Definition handlePong (env : Env) (st : Server) (ws : conn) : Outcome :=
  match clients st !! ws with
  | Some client =>
      (mkServer (rooms st)
         (<[ws := mkClient (clientId client) (room client) (now env)
                    (lastSnapshot client)]> (clients st)), [], false)
  | None => (st, [], false)
  end.

(** [handleDisconnect]; the template literal of its [console.log]
    converts the session's [clientId] to a string, which can throw:
    by then nothing has been removed and nothing sent. *)
Definition handleDisconnect (env : Env) (st : Server) (ws : conn)
  : Outcome :=
  match clients st !! ws with
  | None => (st, [], false)
  | Some client =>
      if unprintable (clientId client) then (st, [], true)
      else
        let '(rooms', sent) :=
          match rooms st !! room client with
          | Some roomClients =>
              let roomClients := roomClients ∖ {[ws]} in
              if decide (size roomClients = 0%nat)
              then (delete (room client) (rooms st), [])
              else
                let rooms' := <[room client := roomClients]> (rooms st) in
                (rooms',
                 broadcastToRoom env (mkServer rooms' (clients st))
                   (room client) (Leave (clientId client) (now env)) None)
          | None => (rooms st, [])
          end in
        (mkServer rooms' (delete ws (clients st)), sent, false)
  end.

(** [handleMessage]; for a type it does not know it logs the type,
    through a template literal that can throw. *)
Definition handleMessage (env : Env) (st : Server) (ws : conn)
    (message : Message) : Outcome :=
  if negb (is_one (msg_v message))
  then (st, sendError env ws "Unsupported message version", false)
  else if is_string (msg_type message) "hello"
  then handleHello env st ws message
  else if is_string (msg_type message) "snapshot"
  then handleSnapshot env st ws message
  else if is_string (msg_type message) "event:plant"
  then handlePlantEvent env st ws message
  else if is_string (msg_type message) "pong"
  then handlePong env st ws
  else (st, [], unprintable (msg_type message)).

(** What can happen to the relay: a frame arrives on a connection, or a
    connection closes.  The frame is [None] when [JSON.parse] throws or
    yields [null], whose destructuring throws. *)
Inductive Event :=
| Frame (ws : conn) (parsed : option Message)
| Close (ws : conn).

(** The listeners of [setupServer].  The one for a message catches what
    [JSON.parse] or [handleMessage] throws and answers it with the
    error "Invalid message format"; the one for a close catches
    nothing, so that an exception of [handleDisconnect] leaves the
    listener (what becomes of it further up is not modelled). *)
Definition step (env : Env) (st : Server) (ev : Event) : Server * Sent :=
  match ev with
  | Frame ws (Some message) =>
      let '(st', sent, threw) := handleMessage env st ws message in
      (st', sent ++ if threw then sendError env ws "Invalid message format"
                    else [])
  | Frame ws None => (st, sendError env ws "Invalid message format")
  | Close ws => (handleDisconnect env st ws).1
  end.

(** A run: the events in arrival order, each with the environment it
    is handled in; all that was sent, in order. *)
Fixpoint run (st : Server) (trace : list (Env * Event)) : Server * Sent :=
  match trace with
  | [] => (st, [])
  | (env, ev) :: rest =>
      let '(st', sent) := step env st ev in
      let '(st'', sent') := run st' rest in
      (st'', sent ++ sent')
  end.

Definition reachable (st : Server) : Prop :=
  ∃ trace, (run initial trace).1 = st.

End Handlers.

(** ** Vocabulary of the statements *)

(** The members of a room; none when the registry has no such room. *)
Definition members (st : Server) (roomId : string) : gset conn :=
  default ∅ (rooms st !! roomId).

(** What the socket [c] was sent, in order. *)
Definition received (c : conn) (sent : Sent) : list Outbound :=
  (filter (λ s, s.1 = c) sent).*2.

(** The messages [broadcastToRoom] fans out, as opposed to the replies
    [send] addresses to one socket. *)
Definition is_broadcast (m : Outbound) : bool :=
  match m with
  | Join _ _ | Leave _ _ | SnapshotMsg _ | PlantMsg _ _ _ _ _ => true
  | HelloAck _ _ | Error _ _ => false
  end.

(** The connection an event comes from. *)
Definition origin (ev : Event) : conn :=
  match ev with Frame ws _ | Close ws => ws end.

(** Two numbers that are the same number. *)
Definition same_number (a b : number) : Prop :=
  match a, b with
  | Fin p, Fin q => (p == q)%Q
  | PosInf, PosInf | NegInf, NegInf | NaN, NaN => True
  | _, _ => False
  end.

(** A number that is at least, or at most, the rational [c]. *)
Definition at_least (c : Q) (n : number) : Prop :=
  match n with Fin r => (c <= r)%Q | PosInf => True | _ => False end.

Definition at_most (c : Q) (n : number) : Prop :=
  match n with Fin r => (r <= c)%Q | NegInf => True | _ => False end.

(** A finite number within [lo, hi] that is the double of a whole
    number of thousandths. *)
Definition milli_within (lo hi : Q) (n : number) : Prop :=
  match n with
  | Fin r =>
      (lo <= r)%Q ∧ (r <= hi)%Q
      ∧ ∃ k : Z, same_number (Fin r) (round64 (k # 1000))
  | _ => False
  end.

(** A snapshot frame that carries the three poses. *)
Definition has_poses (message : Message) : bool :=
  truthy (msg_head message) && truthy (msg_lh message)
  && truthy (msg_rh message).

(** A pose without an axis that stops the sanitizer: each of its [p]
    and [q] either fails the guard of its sanitizer, which then returns
    the default, or has no unchecked axis whose conversion to a number
    throws. *)
Definition converts (part : value) : bool :=
  let p := get part "p" in
  let q := get part "q" in
  negb (truthy p && is_number (get p "x")
        && (unprintable (get p "y") || unprintable (get p "z")))
  && negb (truthy q && is_number (get q "x")
           && (unprintable (get q "y") || unprintable (get q "z")
               || unprintable (get q "w"))).

(** The session [client] once a snapshot was let through at time [t]. *)
Definition stamped (client : Client) (t : Z) : Client :=
  mkClient (clientId client) (room client) (lastPing client) (Some t).

Definition stamp (st : Server) (ws : conn) (client : Client) (t : Z)
  : Server :=
  mkServer (rooms st) (<[ws := stamped client t]> (clients st)).

(** The frames of one connection, each with the environment it arrives in. *)
Definition frames_of (ws : conn) (frames : list (Env * Message))
  : list (Env * Event) :=
  (λ f, (f.1, Frame ws (Some f.2))) <$> frames.

Definition is_snapshot_msg (m : Outbound) : bool :=
  match m with SnapshotMsg _ => true | _ => false end.

(** How many snapshots the socket [c] was sent. *)
Definition snapshots_received (c : conn) (sent : Sent) : nat :=
  length (filter (λ m, is_snapshot_msg m = true) (received c sent)).

(** Each frame arrives at least 40ms after the one before; [last] is the
    arrival time of the frame before the first. *)
Fixpoint every_40ms (last : Z) (frames : list (Env * Message)) : Prop :=
  match frames with
  | [] => True
  | f :: rest => 40 ≤ now f.1 - last ∧ every_40ms (now f.1) rest
  end.

(** A version-1 frame of type [snapshot]. *)
Definition snapshot_frame (message : Message) : Prop :=
  is_one (msg_v message) = true ∧ msg_type message = Str "snapshot".

(** The time of the last snapshot let through for a connection's
    session. *)
Definition lastSnapshot_of (st : Server) (ws : conn) : option (option Z) :=
  lastSnapshot <$> clients st !! ws.

(** An event that has nothing to do with the rate limit of the session
    of [ws]: any event but a version-1 hello or snapshot frame of [ws]
    and the close of [ws]. *)
Definition keeps_window (ws : conn) (ev : Event) : bool :=
  match ev with
  | Frame ws' (Some message) =>
      negb (bool_decide (ws' = ws) && is_one (msg_v message)
            && (is_string (msg_type message) "hello"
                || is_string (msg_type message) "snapshot"))
  | Frame _ None => true
  | Close ws' => negb (bool_decide (ws' = ws))
  end.

(** ** Concrete runs *)

Definition noNumber (_ : string) : number := NaN.
Definition noText (_ : list value) : string := EmptyString.

Definition at_ (t : Z) : Env := mkEnv t (λ _, true).

Definition hello (clientId room : string) : Message :=
  mkMessage (Num (Fin 1)) (Str "hello") (Str clientId) (Some room)
    Undefined Undefined Undefined Undefined Undefined Undefined Undefined.

Definition pong : Message :=
  mkMessage (Num (Fin 1)) (Str "pong") Undefined None
    Undefined Undefined Undefined Undefined Undefined Undefined Undefined.

(** A pose with every component present. *)
Definition pose : value :=
  Obj [("p"%string,
        Obj [("x"%string, Num (Fin 1)); ("y"%string, Num (Fin 2));
             ("z"%string, Num (Fin 3))]);
       ("q"%string,
        Obj [("x"%string, Num (Fin 0)); ("y"%string, Num (Fin 0));
             ("z"%string, Num (Fin 0)); ("w"%string, Num (Fin 1))])].

Definition snapshot : Message :=
  mkMessage (Num (Fin 1)) (Str "snapshot") Undefined None
    Undefined pose pose pose Undefined Undefined Undefined.

(** A snapshot frame without [rh]. *)
Definition snapshot_without_rh : Message :=
  mkMessage (Num (Fin 1)) (Str "snapshot") Undefined None
    Undefined pose pose Undefined Undefined Undefined Undefined.

(** Connections 1 and 2 have joined room r1 as a and b. *)
Definition two_in_r1 : Server :=
  (run noNumber noText initial
     [(at_ 5, Frame 1%nat (Some (hello "a" "r1")));
      (at_ 6, Frame 2%nat (Some (hello "b" "r1")))]).1.

Definition session_a : Client := mkClient (Str "a") "r1" 5 None.

(** ** The heartbeat *)

(** What the heartbeat does to a socket. *)
Inductive Probe :=
| Ping (ws : conn)
| Terminate (ws : conn).

(** The callback [startHeartbeat] runs every 30 seconds, over the
    sockets of [wss.clients] in turn: what it does to them, and whether
    it threw.  The template literal of the [console.log] before
    [ws.terminate()] converts the session's [clientId] to a string;
    when that throws the callback is over, with the sockets after this
    one not looked at. *)
Fixpoint heartbeat (now : Z) (st : Server) (sockets : list conn)
  : list Probe * bool :=
  match sockets with
  | [] => ([], false)
  | ws :: rest =>
      match clients st !! ws with
      | None => heartbeat now st rest
      | Some client =>
          if 60000 <? now - lastPing client then
            if unprintable (clientId client) then ([], true)
            else
              let '(probes, threw) := heartbeat now st rest in
              (Terminate ws :: probes, threw)
          else
            let '(probes, threw) := heartbeat now st rest in
            (Ping ws :: probes, threw)
      end
  end.

(** The heartbeat stops at the socket [ws]: its session is stale and
    has a [clientId] that cannot be written to the log. *)
Definition stops_at (now : Z) (st : Server) (ws : conn) : bool :=
  match clients st !! ws with
  | Some client =>
      (60000 <? now - lastPing client) && unprintable (clientId client)
  | None => false
  end.

(** The sockets the heartbeat gets to: those before the first it stops
    at. *)
Fixpoint reached (now : Z) (st : Server) (sockets : list conn) : list conn :=
  match sockets with
  | [] => []
  | ws :: rest =>
      if stops_at now st ws then [] else ws :: reached now st rest
  end.

(** ** More vocabulary *)

(** Sessions and rooms agree: a connection with a session is a member of
    the session's room, and a member of a room has a session for that
    room. *)
Definition consistent (st : Server) : Prop :=
  (∀ ws client, clients st !! ws = Some client → ws ∈ members st (room client))
  ∧ (∀ ws roomId,
       ws ∈ members st roomId →
       ∃ client, clients st !! ws = Some client ∧ room client = roomId).

(** The time of the last liveness sign of a connection's session. *)
Definition lastPing_of (st : Server) (ws : conn) : option Z :=
  lastPing <$> clients st !! ws.

(** What the heartbeat does to a socket it gets to: a socket with a
    session is terminated when the last liveness sign is more than 60
    seconds old and pinged otherwise. *)
Definition probe_of (now : Z) (st : Server) (ws : conn) : option Probe :=
  match lastPing_of st ws with
  | Some t => Some (if 60000 <? now - t then Terminate ws else Ping ws)
  | None => None
  end.

(** A frame that refreshes the liveness of its connection: a version-1
    hello with a [clientId], or a version-1 pong. *)
Definition refreshes (message : Message) : bool :=
  is_one (msg_v message)
  && ((is_string (msg_type message) "hello" && truthy (msg_clientId message))
      || is_string (msg_type message) "pong").

(** A plant event with everything the relay asks for. *)
Definition plant_complete (message : Message) : bool :=
  truthy (msg_plantType message) && truthy (msg_pos message)
  && truthy (msg_quat message).

(** An event that is neither a liveness-refreshing frame of [ws] nor the
    close of [ws]. *)
Definition quiet_for (ws : conn) (ev : Event) : bool :=
  match ev with
  | Frame ws' (Some message) => negb (bool_decide (ws' = ws) && refreshes message)
  | Frame _ None => true
  | Close ws' => negb (bool_decide (ws' = ws))
  end.

(** What the sanitizer makes of a numeric axis [input], within the
    bounds [lo] and [hi]: a finite number within the bounds that is the
    double of a whole number of thousandths; the nearer bound for an
    input at or beyond a bound; and for an input within the bounds a
    number no further from it than half a thousandth and what the
    rounding of the product and of the quotient adds, which is less
    than a billionth. *)
Definition sanitized (lo hi : Q) (input output : number) : Prop :=
  match output with
  | Fin r =>
      (lo <= r)%Q ∧ (r <= hi)%Q
      ∧ (∃ k : Z, same_number (Fin r) (round64 (k # 1000)))
      ∧ match input with
        | Fin v =>
            ((lo <= v)%Q → (v <= hi)%Q →
             (v - (1 # 2000) - (1 # 1000000000) <= r)%Q
             ∧ (r <= v + (1 # 2000) + (1 # 1000000000))%Q)
            ∧ ((hi <= v)%Q → (r == hi)%Q)
            ∧ ((v <= lo)%Q → (r == lo)%Q)
        | PosInf => (r == hi)%Q
        | NegInf => (r == lo)%Q
        | NaN => False
        end
  | _ => False
  end.

(** A sanitized vector and quaternion as the objects a receiver parses
    off the wire. *)
Definition vector_value (v : Vector3) : value :=
  Obj [("x"%string, Num (vx v)); ("y"%string, Num (vy v));
       ("z"%string, Num (vz v))].

Definition quaternion_value (q : Quaternion) : value :=
  Obj [("x"%string, Num (qx q)); ("y"%string, Num (qy q));
       ("z"%string, Num (qz q)); ("w"%string, Num (qw q))].

(** ** More concrete values *)

(** A position with an axis of four decimals (the double 1.2345, a
    little below the decimal), one far below the bound and an infinite
    one; a rotation that is not a unit quaternion. *)
Definition far_position : value :=
  Obj [("x"%string, Num (of_float 1.2345)); ("y"%string, Num (Fin (-5000)));
       ("z"%string, Num PosInf)].

Definition long_rotation : value :=
  Obj [("x"%string, Num (of_float 0.2345)); ("y"%string, Num (Fin 3));
       ("z"%string, Num (of_float (-0.7))); ("w"%string, Num (Fin 1))].

(** An object that cannot be converted to a string or a number, and a
    pose with such an axis. *)
Definition unprintable_object : value :=
  Obj [("toString"%string, Num (Fin 1))].

Definition unprintable_pose : value :=
  Obj [("p"%string,
        Obj [("x"%string, Num (Fin 1)); ("y"%string, unprintable_object);
             ("z"%string, Num (Fin 3))]);
       ("q"%string,
        Obj [("x"%string, Num (Fin 0)); ("y"%string, Num (Fin 0));
             ("z"%string, Num (Fin 0)); ("w"%string, Num (Fin 1))])].

(** A snapshot frame with that pose for its head. *)
Definition unprintable_snapshot : Message :=
  mkMessage (Num (Fin 1)) (Str "snapshot") Undefined None
    Undefined unprintable_pose pose pose Undefined Undefined Undefined.

Definition plant : Message :=
  mkMessage (Num (Fin 1)) (Str "event:plant") (Str "someone else") None
    Undefined Undefined Undefined Undefined (Str "rose") far_position
    long_rotation.

End Relay.

(** * The client transport: [js/lib/net/TransportWebSocket.js] *)

Module Transport.

Inductive ReadyState := CONNECTING | OPEN | CLOSING | CLOSED.

(** The browser's [WebSocket] object: its state and the texts it has
    taken from [ws.send], oldest first. *)
Record WebSocket := mkWebSocket {
  readyState : ReadyState;
  transmitted : list string
}.

(** The fields of a [TransportWebSocket]; [listeners] belong to the
    caller and show only through what [emit] is called with.  A pending
    [reconnectTimer] is stood for by the delay it was set with. *)
Record TransportWebSocket := mkTransport {
  ws : option WebSocket;
  isConnecting : bool;
  isConnected : bool;
  reconnectAttempts : nat;
  maxReconnectAttempts : nat;
  reconnectDelay : Z;
  maxReconnectDelay : Z;
  messageQueue : list string;
  maxQueueSize : nat;
  reconnectTimer : option Z
}.

(** What a method does to the outside, in order. *)
Inductive Effect :=
| Emit (event : string)
| SetTimeout (delay : Z)
| ClearTimeout
| CloseSocket.

(** [new TransportWebSocket(url)] *)
Definition constructor : TransportWebSocket :=
  mkTransport None false false 0 10 1000 30000 [] 100 None.

Definition with_ws (t : TransportWebSocket) (s : option WebSocket) :=
  mkTransport s (isConnecting t) (isConnected t) (reconnectAttempts t)
    (maxReconnectAttempts t) (reconnectDelay t) (maxReconnectDelay t)
    (messageQueue t) (maxQueueSize t) (reconnectTimer t).

Definition with_flags (t : TransportWebSocket) (connecting connected : bool) :=
  mkTransport (ws t) connecting connected (reconnectAttempts t)
    (maxReconnectAttempts t) (reconnectDelay t) (maxReconnectDelay t)
    (messageQueue t) (maxQueueSize t) (reconnectTimer t).

Definition with_attempts (t : TransportWebSocket) (n : nat) :=
  mkTransport (ws t) (isConnecting t) (isConnected t) n
    (maxReconnectAttempts t) (reconnectDelay t) (maxReconnectDelay t)
    (messageQueue t) (maxQueueSize t) (reconnectTimer t).

Definition with_delay (t : TransportWebSocket) (d : Z) :=
  mkTransport (ws t) (isConnecting t) (isConnected t) (reconnectAttempts t)
    (maxReconnectAttempts t) d (maxReconnectDelay t)
    (messageQueue t) (maxQueueSize t) (reconnectTimer t).

Definition with_queue (t : TransportWebSocket) (q : list string) :=
  mkTransport (ws t) (isConnecting t) (isConnected t) (reconnectAttempts t)
    (maxReconnectAttempts t) (reconnectDelay t) (maxReconnectDelay t)
    q (maxQueueSize t) (reconnectTimer t).

Definition with_timer (t : TransportWebSocket) (timer : option Z) :=
  mkTransport (ws t) (isConnecting t) (isConnected t) (reconnectAttempts t)
    (maxReconnectAttempts t) (reconnectDelay t) (maxReconnectDelay t)
    (messageQueue t) (maxQueueSize t) timer.

Definition is_OPEN (s : WebSocket) : bool :=
  match readyState s with OPEN => true | _ => false end.

Section Methods.

(** The messages handed to [send], and their [JSON.stringify]. *)
Variable Message : Type.
Variable JSON_stringify : Message → string.

(** The texts on which [ws.send] throws. *)
Variable throws : string → bool.

(** [this.ws.send(text)] inside a [try]: [None] when it throws, which it
    also does on a [null] socket. *)
Definition ws_send (s : option WebSocket) (text : string)
  : option WebSocket :=
  match s with
  | Some sock =>
      if throws text then None
      else Some (mkWebSocket (readyState sock) (transmitted sock ++ [text]))
  | None => None
  end.

Definition scheduleReconnect (t : TransportWebSocket)
  : TransportWebSocket * list Effect :=
  if (maxReconnectAttempts t <=? reconnectAttempts t)%nat
  then (t, [Emit "maxReconnectAttemptsReached"])
  else
    let delay :=
      Z.min (reconnectDelay t * 2 ^ Z.of_nat (reconnectAttempts t))
            (maxReconnectDelay t) in
    (with_timer t (Some delay), [SetTimeout delay]).

(** [connect()]; [constructs] tells whether [new WebSocket(url)] returns
    rather than throws. *)
Definition connect (constructs : bool) (t : TransportWebSocket)
  : TransportWebSocket * list Effect :=
  if isConnecting t || isConnected t then (t, [])
  else
    let t := with_flags t true (isConnected t) in
    if constructs then (with_ws t (Some (mkWebSocket CONNECTING [])), [])
    else scheduleReconnect t.

Definition disconnect (t : TransportWebSocket)
  : TransportWebSocket * list Effect :=
  let '(t, cleared) :=
    match reconnectTimer t with
    | Some _ => (with_timer t None, [ClearTimeout])
    | None => (t, [])
    end in
  let '(t, closed) :=
    match ws t with
    | Some sock =>
        (with_ws t None, if is_OPEN sock then [CloseSocket] else [])
    | None => (t, [])
    end in
  (with_queue (with_flags t false false) [], cleared ++ closed).

Definition queueMessage (t : TransportWebSocket) (messageStr : string)
  : TransportWebSocket :=
  let queue :=
    if (maxQueueSize t <=? length (messageQueue t))%nat
    then tail (messageQueue t)
    else messageQueue t in
  with_queue t (queue ++ [messageStr]).

(** [send(message)]: the transport afterwards and the value returned;
    [None] when reading [this.ws.readyState] throws because [this.ws] is
    [null]. *)
Definition send (t : TransportWebSocket) (message : Message)
  : option (TransportWebSocket * bool) :=
  let messageStr := JSON_stringify message in
  if isConnected t then
    match ws t with
    | None => None
    | Some sock =>
        if is_OPEN sock then
          match ws_send (ws t) messageStr with
          | Some s => Some (with_ws t (Some s), true)
          | None => Some (queueMessage t messageStr, false)
          end
        else Some (queueMessage t messageStr, false)
    end
  else Some (queueMessage t messageStr, false).

(** The loop of [flushQueue]: the socket and the queue it leaves. *)
Fixpoint flush (s : option WebSocket) (queue : list string)
  : option WebSocket * list string :=
  match queue with
  | [] => (s, [])
  | messageStr :: rest =>
      match ws_send s messageStr with
      | Some s' => flush (Some s') rest
      | None => (s, messageStr :: rest)
      end
  end.

Definition flushQueue (t : TransportWebSocket) : TransportWebSocket :=
  if isConnected t then
    let '(s, queue) := flush (ws t) (messageQueue t) in
    with_queue (with_ws t s) queue
  else t.

Definition onOpen (t : TransportWebSocket)
  : TransportWebSocket * list Effect :=
  let t := with_flags t false true in
  let t := with_attempts t 0 in
  let t := with_delay t 1000 in
  (flushQueue t, [Emit "open"]).

Definition onClose (code : Z) (t : TransportWebSocket)
  : TransportWebSocket * list Effect :=
  let t := with_flags t false false in
  if code =? 1000 then (t, [Emit "close"])
  else
    let '(t, effects) := scheduleReconnect t in
    (t, Emit "close" :: effects).

Definition onError (t : TransportWebSocket)
  : TransportWebSocket * list Effect :=
  (t, [Emit "error"]).

(** [onMessage(event)]; [parses] tells whether [JSON.parse(event.data)]
    returns. *)
Definition onMessage (parses : bool) (t : TransportWebSocket)
  : TransportWebSocket * list Effect :=
  (t, if parses then [Emit "message"] else []).

(** The callback [scheduleReconnect] hands to [setTimeout]. *)
Definition onReconnectTimer (constructs : bool) (t : TransportWebSocket)
  : TransportWebSocket * list Effect :=
  let t := with_attempts t (S (reconnectAttempts t)) in
  let t := with_timer t None in
  connect constructs t.

(** What the browser does to the socket before it dispatches an event. *)
Definition socket_becomes (r : ReadyState) (t : TransportWebSocket)
  : TransportWebSocket :=
  with_ws t ((λ sock, mkWebSocket r (transmitted sock)) <$> ws t).

(** What can happen to a transport: a call by its owner, or an event of
    its socket or timer. *)
Inductive Call :=
| Connect (constructs : bool)
| Disconnect
| Send (message : Message)
| SocketOpen
| SocketClose (code : Z)
| SocketError
| SocketMessage (parses : bool)
| TimerFires (constructs : bool).

Definition step (t : TransportWebSocket) (c : Call)
  : TransportWebSocket * list Effect :=
  match c with
  | Connect constructs => connect constructs t
  | Disconnect => disconnect t
  | Send message =>
      match send t message with
      | Some (t', _) => (t', [])
      | None => (t, [])
      end
  | SocketOpen => onOpen (socket_becomes OPEN t)
  | SocketClose code => onClose code (socket_becomes CLOSED t)
  | SocketError => onError t
  | SocketMessage parses => onMessage parses t
  | TimerFires constructs => onReconnectTimer constructs t
  end.

Fixpoint run (t : TransportWebSocket) (calls : list Call)
  : TransportWebSocket * list Effect :=
  match calls with
  | [] => (t, [])
  | c :: rest =>
      let '(t', effects) := step t c in
      let '(t'', effects') := run t' rest in
      (t'', effects ++ effects')
  end.

(** [send] for each message in turn, as long as none throws. *)
Fixpoint send_all (t : TransportWebSocket) (messages : list Message)
  : option (TransportWebSocket * list bool) :=
  match messages with
  | [] => Some (t, [])
  | message :: rest =>
      match send t message with
      | Some (t', r) =>
          match send_all t' rest with
          | Some (t'', rs) => Some (t'', r :: rs)
          | None => None
          end
      | None => None
      end
  end.

End Methods.

Arguments Connect {Message} constructs.
Arguments Disconnect {Message}.
Arguments Send {Message} message.
Arguments SocketOpen {Message}.
Arguments SocketClose {Message} code.
Arguments SocketError {Message}.
Arguments SocketMessage {Message} parses.
Arguments TimerFires {Message} constructs.

(** The delays of the timers set, in order. *)
Definition delays (effects : list Effect) : list Z :=
  omap (λ e, match e with SetTimeout d => Some d | _ => None end) effects.

(** [n] connection attempts in a row that fail: the socket closes with
    the abnormal code 1006, the reconnect timer fires, a new socket is
    made. *)
Fixpoint failures (n : nat) (t : TransportWebSocket)
  : TransportWebSocket * list Effect :=
  match n with
  | O => (t, [])
  | S n' =>
      let '(t1, e1) := onClose 1006 (socket_becomes CLOSED t) in
      let '(t2, e2) := onReconnectTimer true t1 in
      let '(t3, e3) := failures n' t2 in
      (t3, e1 ++ e2 ++ e3)
  end.

(** ** Vocabulary of the statements *)

(** The queue respects its bound, and the bound leaves room for a message. *)
Definition bounded (t : TransportWebSocket) : Prop :=
  (1 ≤ maxQueueSize t)%nat ∧ (length (messageQueue t) ≤ maxQueueSize t)%nat.

(** [l] cut down to its last [n] entries. *)
Definition newest (n : nat) (l : list string) : list string :=
  drop (length l - n) l.

(** The delay before reconnect attempt number [k] (counted from 0). *)
Definition backoff (t : TransportWebSocket) (k : nat) : Z :=
  Z.min (reconnectDelay t * 2 ^ Z.of_nat k) (maxReconnectDelay t).


(** ** Events that can happen

    An event of the socket needs a socket the transport listens to
    ([disconnect] takes the listeners off and forgets the socket), and
    the reconnect timer can only fire while it is pending. *)
Definition possible {Message : Type} (t : TransportWebSocket)
    (c : Call Message) : bool :=
  match c with
  | SocketOpen | SocketClose _ | SocketError | SocketMessage _ =>
      bool_decide (is_Some (ws t))
  | TimerFires _ => bool_decide (is_Some (reconnectTimer t))
  | Connect _ | Disconnect | Send _ => true
  end.

Section Feasible.

Variable Message : Type.
Variable JSON_stringify : Message → string.
Variable throws : string → bool.

(** Every call of the list is possible when its turn comes. *)
Fixpoint feasible (t : TransportWebSocket) (calls : list (Call Message))
  : bool :=
  match calls with
  | [] => true
  | c :: rest =>
      possible t c
      && feasible (step Message JSON_stringify throws t c).1 rest
  end.

End Feasible.

(** What holds of a transport whatever has happened to it: it is not
    connected without a socket, nor connected and connecting at once,
    and its queue is within its bound. *)
Definition sound (t : TransportWebSocket) : Prop :=
  (isConnected t = true → is_Some (ws t))
  ∧ (isConnected t = true → isConnecting t = false)
  ∧ bounded t.

(** The owner asks for a connection or the timer fires; nothing else. *)
Definition attempt {Message : Type} (c : Call Message) : bool :=
  match c with
  | Connect _ | TimerFires _ => true
  | _ => false
  end.

(** ** Listeners: [on], [off], [emit]

    [this.listeners] maps an event name to the array of its callbacks;
    a callback is known by its identity. *)
Abbreviation Listeners := (gmap string (list nat)).

Definition on (l : Listeners) (event : string) (callback : nat) : Listeners :=
  <[event := default [] (l !! event) ++ [callback]]> l.



(** What [emit] does, in order: it calls a callback, or logs what a
    callback threw. *)
Inductive Invocation :=
| Called (callback : nat)
| Logged (callback : nat).

(** [emit(event, ...args)]; [fails] tells the callbacks that throw. *)
Definition emit (fails : nat → bool) (l : Listeners) (event : string)
  : list Invocation :=
  match l !! event with
  | Some callbacks =>
      flat_map (λ c, if fails c then [Called c; Logged c] else [Called c])
        callbacks
  | None => []
  end.

(** The callbacks called, in order. *)
Definition called (invocations : list Invocation) : list nat :=
  omap (λ i, match i with Called c => Some c | Logged _ => None end)
    invocations.

(** The callbacks registered for an event, in the order [emit] calls
    them. *)
Definition registered (l : Listeners) (event : string) : list nat :=
  default [] (l !! event).

(** [getConnectionState()] *)
Record ConnectionState := mkConnectionState {
  cs_isConnected : bool;
  cs_isConnecting : bool;
  cs_reconnectAttempts : nat;
  cs_queuedMessages : nat
}.

Definition getConnectionState (t : TransportWebSocket) : ConnectionState :=
  mkConnectionState (isConnected t) (isConnecting t) (reconnectAttempts t)
    (length (messageQueue t)).

(** ** More concrete values *)

(** A transport whose socket has opened. *)
Definition connected_transport : TransportWebSocket :=
  mkTransport (Some (mkWebSocket OPEN [])) false true 0 10 1000 30000 []
    100 None.

(** A socket whose [send] throws on the text b. *)
Definition refuses_b (text : string) : bool := String.eqb text "b".

Definition accepts_all (_ : string) : bool := false.

End Transport.

(** * The sync coordinator: [js/systems/multiplayer/MultiplayerSystem.js] *)

Module Sync.
Import JS.

(** ** The entity-component store (the ECSY library, version 0.4)

    Entities carry components; a query lists the entities that have all
    of [Components] and none of [NotComponents], and is brought up to
    date inside every [addComponent].  A system that listens to [added]
    on a query gets, besides, the list of the entities that entered the
    query since the system last ran. *)

Inductive Component :=
| Object3DComponent
| PlantGrowingComponent
| PlayerStateComponent
| THREEGlobalComponent
| VrControllerComponent
| Networked
| NetworkedPlayerComponent.

Global Instance Component_eq_dec : EqDecision Component.
Proof. solve_decision. Defined.

Record Vector3 := mkVector3 { x : value; y : value; z : value }.
Record Quaternion :=
  mkQuaternion { qx : value; qy : value; qz : value; qw : value }.

(** The data of a [NetworkedPlayerComponent]; the groups drawn on screen
    are left out. *)
Record NetworkedPlayer := mkNetworkedPlayer {
  np_clientId : value;
  targetHeadPosition : Vector3;
  targetHeadRotation : Quaternion;
  targetLeftHandPosition : Vector3;
  targetLeftHandRotation : Quaternion;
  targetRightHandPosition : Vector3;
  targetRightHandRotation : Quaternion;
  np_lastSnapshotTime : value
}.

(** A component on an entity, with its data. *)
Inductive ComponentData :=
| Object3DData (position : Vector3) (quaternion : Quaternion)
| PlantGrowingData (plantType : value)
| NetworkedData
| NetworkedPlayerData (np : NetworkedPlayer)
| OtherData (c : Component).

Definition type_of (d : ComponentData) : Component :=
  match d with
  | Object3DData _ _ => Object3DComponent
  | PlantGrowingData _ => PlantGrowingComponent
  | NetworkedData => Networked
  | NetworkedPlayerData _ => NetworkedPlayerComponent
  | OtherData c => c
  end.

(** An entity: its components, in the order they were added. *)
Definition Entity := list ComponentData.

Definition hasComponent (e : Entity) (c : Component) : bool :=
  bool_decide (c ∈ type_of <$> e).

Record Query := mkQuery {
  Components : list Component;
  NotComponents : list Component;
  entities : list nat;
  added : option (list nat)
}.

(** [Query.match] *)
Definition matches (q : Query) (e : Entity) : bool :=
  forallb (hasComponent e) (Components q)
  && negb (existsb (hasComponent e) (NotComponents q)).

(** [Query.addEntity], and the listener a system with [listen.added]
    hangs on it. *)
Definition addEntity (q : Query) (ent : nat) : Query :=
  mkQuery (Components q) (NotComponents q) (entities q ++ [ent])
    ((λ l, if bool_decide (ent ∈ l) then l else l ++ [ent]) <$> added q).

(** [Query.removeEntity]; nobody here listens to [removed]. *)
Definition removeEntity (q : Query) (ent : nat) : Query :=
  mkQuery (Components q) (NotComponents q)
    (filter (λ i, i ≠ ent) (entities q)) (added q).

(** [QueryManager.onEntityComponentAdded], for one query; [e] is the
    entity with the new component [c] already on it. *)
Definition onEntityComponentAdded (ent : nat) (e : Entity) (c : Component)
    (q : Query) : Query :=
  if bool_decide (c ∈ NotComponents q) && bool_decide (ent ∈ entities q)
  then removeEntity q ent
  else if negb (bool_decide (c ∈ Components q)) || negb (matches q e)
          || bool_decide (ent ∈ entities q)
  then q
  else addEntity q ent.

Record World := mkWorld {
  entityList : gmap nat Entity;
  nextId : nat;
  queries : list (string * Query)
}.

(** [world.createEntity()] *)
Definition createEntity (w : World) : World * nat :=
  (mkWorld (<[nextId w := []]> (entityList w)) (S (nextId w)) (queries w),
   nextId w).

(** [entity.addComponent(C, data)]; a component the entity already has
    is not added again. *)
Definition addComponent (w : World) (ent : nat) (d : ComponentData) : World :=
  match entityList w !! ent with
  | None => w
  | Some e =>
      if hasComponent e (type_of d) then w
      else
        let e := e ++ [d] in
        mkWorld (<[ent := e]> (entityList w)) (nextId w)
          (prod_map id (onEntityComponentAdded ent e (type_of d))
             <$> queries w)
  end.

(** [entity.remove()], as the system uses it, on an entity whose only
    component is a [NetworkedPlayerComponent]: the entity leaves the world
    and the queries that list it. *)
Definition remove (w : World) (ent : nat) : World :=
  mkWorld (delete ent (entityList w)) (nextId w)
    (prod_map id (λ q, removeEntity q ent) <$> queries w).

(** [System.clearEvents], run after each [execute]. *)
Definition clearEvents (w : World) : World :=
  mkWorld (entityList w) (nextId w)
    (prod_map id (λ q, mkQuery (Components q) (NotComponents q) (entities q)
                         ((λ _, []) <$> added q)) <$> queries w).

Definition query (w : World) (name : string) : option Query :=
  snd <$> List.find (λ nq, String.eqb nq.1 name) (queries w).

(** [MultiplayerSystem.queries] *)
Definition system_queries : list (string * Query) :=
  [("localPlayer"%string, mkQuery [PlayerStateComponent] [] [] None);
   ("controllers"%string, mkQuery [VrControllerComponent] [] [] None);
   ("remotePlayers"%string, mkQuery [NetworkedPlayerComponent] [] [] None);
   ("threeGlobal"%string, mkQuery [THREEGlobalComponent] [] [] None);
   ("newlyPlanted"%string,
    mkQuery [PlantGrowingComponent; Object3DComponent] [Networked] []
      (Some []))].

(** ** The system *)

(** SameValueZero, the key equality of a [Map], on values that come out
    of [JSON.parse]: two objects or arrays of different messages are
    never the same key. *)
Definition SameValueZero (a b : value) : bool :=
  match a, b with
  | Undefined, Undefined | Null, Null => true
  | Bool p, Bool q => Bool.eqb p q
  | Num (Fin p), Num (Fin q) => Qeq_bool p q
  | Num PosInf, Num PosInf | Num NegInf, Num NegInf | Num NaN, Num NaN => true
  | Str s, Str s' => String.eqb s s'
  | _, _ => false
  end.

(** A [Map] from client identifiers to entities, in insertion order. *)
Definition PlayerMap := list (value * nat).

Definition Map_get (m : PlayerMap) (k : value) : option nat :=
  snd <$> List.find (λ kv, SameValueZero kv.1 k) m.

Fixpoint Map_set (m : PlayerMap) (k : value) (v : nat) : PlayerMap :=
  match m with
  | [] => [(k, v)]
  | (k', v') :: rest =>
      if SameValueZero k' k then (k', v) :: rest
      else (k', v') :: Map_set rest k v
  end.

Definition Map_delete (m : PlayerMap) (k : value) : PlayerMap :=
  List.filter (λ kv, negb (SameValueZero kv.1 k)) m.

(** What the system hands to [transport.send]. *)
Inductive Outbound :=
| Hello (clientId : string) (room : string)
| SnapshotOut (t : Q) (head lh rh : value)
| PlantOut (plantType : value) (pos : Vector3) (quat : Quaternion) (t : Z).

(** The fields of the system that its handlers read and write; [scene]
    tells whether [this.scene] has been looked up. *)
Record MultiplayerSystem := mkSystem {
  clientId : string;
  room : string;
  remotePlayers : PlayerMap;
  lastSnapshotTime : Q;
  localPlayerEntity : option nat;
  scene : bool;
  world : World
}.

(** The system once [init] has run with multiplayer switched on, in a
    world [w]. *)
Definition init (clientId room : string) (w : World) : MultiplayerSystem :=
  mkSystem clientId room [] 0 None false w.

Definition with_world (s : MultiplayerSystem) (w : World) :=
  mkSystem (clientId s) (room s) (remotePlayers s) (lastSnapshotTime s)
    (localPlayerEntity s) (scene s) w.

Definition with_scene (s : MultiplayerSystem) :=
  mkSystem (clientId s) (room s) (remotePlayers s) (lastSnapshotTime s)
    (localPlayerEntity s) true (world s).

Definition zero3 : Vector3 := mkVector3 (Num (Fin 0)) (Num (Fin 0)) (Num (Fin 0)).
Definition identity4 : Quaternion :=
  mkQuaternion (Num (Fin 0)) (Num (Fin 0)) (Num (Fin 0)) (Num (Fin 1)).

(** [query.results] *)
Definition results (w : World) (name : string) : list nat :=
  match query w name with
  | Some q => entities q
  | None => []
  end.

(** What a call of [getOnlyEntity] comes to: it throws, it returns
    nothing, or it returns an entity. *)
Inductive Only :=
| Threw
| Missing
| Found (entity : nat).

Definition nullish (v : value) : bool :=
  match v with Undefined | Null => true | _ => false end.

(** [Vector3.set(x, y, z)] of three.js, which begins with
    [if (z === undefined) z = this.z]: a vector set without a [z] keeps
    the [z] it has.  ([Quaternion.set] assigns its four arguments as
    they are.) *)
Definition Vector3_set (v : Vector3) (x' y' z' : value) : Vector3 :=
  mkVector3 x' y' (match z' with Undefined => z v | _ => z' end).

(** [position.set(part.p.x, part.p.y, part.p.z)] and
    [rotation.set(part.q.x, ...)] for a truthy [part]; the flag tells
    that reading [part.p.x] or [part.q.x] threw, after which nothing
    more is assigned. *)
Definition setTarget (part : value) (target : Vector3 * Quaternion)
  : Vector3 * Quaternion * bool :=
  if truthy part then
    let p := get part "p" in
    let q := get part "q" in
    if nullish p then (target, true)
    else
      let position :=
        Vector3_set target.1 (get p "x") (get p "y") (get p "z") in
      if nullish q then (position, target.2, true)
      else
        (position, mkQuaternion (get q "x") (get q "y") (get q "z") (get q "w"),
         false)
  else (target, false).

(** [updateRemotePlayerTransform], on the component's data; it stops at
    the first read that throws. *)
Definition updateTargets (now : Z) (snapshot : value) (c : NetworkedPlayer)
  : NetworkedPlayer :=
  let '(hp, hq, threw) :=
    setTarget (get snapshot "head")
      (targetHeadPosition c, targetHeadRotation c) in
  if threw
  then mkNetworkedPlayer (np_clientId c) hp hq (targetLeftHandPosition c)
         (targetLeftHandRotation c) (targetRightHandPosition c)
         (targetRightHandRotation c) (np_lastSnapshotTime c)
  else
    let '(lp, lq, threw) :=
      setTarget (get snapshot "lh")
        (targetLeftHandPosition c, targetLeftHandRotation c) in
    if threw
    then mkNetworkedPlayer (np_clientId c) hp hq lp lq
           (targetRightHandPosition c) (targetRightHandRotation c)
           (np_lastSnapshotTime c)
    else
      let '(rp, rq, threw) :=
        setTarget (get snapshot "rh")
          (targetRightHandPosition c, targetRightHandRotation c) in
      if threw
      then mkNetworkedPlayer (np_clientId c) hp hq lp lq rp rq
             (np_lastSnapshotTime c)
      else mkNetworkedPlayer (np_clientId c) hp hq lp lq rp rq
             (or_else (get snapshot "t") (Num (of_Z now))).

Definition updateRemotePlayerTransform (now : Z) (w : World) (entity : nat)
    (snapshot : value) : World :=
  match entityList w !! entity with
  | None => w
  | Some e =>
      mkWorld
        (<[entity :=
             (λ d, match d with
                   | NetworkedPlayerData c =>
                       NetworkedPlayerData (updateTargets now snapshot c)
                   | _ => d
                   end) <$> e]> (entityList w))
        (nextId w) (queries w)
  end.

(** What [execute] finds around it: whether the transport is connected,
    the clock, and the poses [publishSnapshot] reads off the player
    state and the two controller models ([None] when a model is
    missing). *)
Record Env := mkEnv {
  isConnected : bool;
  now : Z;
  localPose : option (value * value * value)
}.

(** The body of the loop over [newlyPlanted.added]: [None] when the
    entity lacks a component the body reads, which throws. *)
Definition plantMessage (env : Env) (e : Entity) : option Outbound :=
  match
    list_find (λ d, type_of d = PlantGrowingComponent) e,
    list_find (λ d, type_of d = Object3DComponent) e
  with
  | Some (_, PlantGrowingData plantType),
    Some (_, Object3DData position quaternion) =>
      Some (PlantOut plantType position quaternion (now env))
  | _, _ => None
  end.

(** The loop over [newlyPlanted.added]: what is sent, and whether the
    body threw. *)
Fixpoint broadcastPlanted (env : Env) (w : World) (ents : list nat)
  : list Outbound * bool :=
  match ents with
  | [] => ([], false)
  | ent :: rest =>
      match entityList w !! ent ≫= plantMessage env with
      | Some m =>
          let '(sent, threw) := broadcastPlanted env w rest in
          (m :: sent, threw)
      | None => ([], true)
      end
  end.

Section Handlers.

(** [getOnlyEntity] of [utils/entityUtils], applied to the results of a
    query. *)
Variable getOnlyEntity : list nat → Only.

(** [if (!this.scene) this.scene = getOnlyEntity(this.queries.threeGlobal)
    .getComponent(THREEGlobalComponent).scene]; [None] when that throws. *)
Definition findScene (s : MultiplayerSystem) : option MultiplayerSystem :=
  if scene s then Some s
  else
    match getOnlyEntity (results (world s) "threeGlobal") with
    | Found _ => Some (with_scene s)
    | Threw | Missing => None
    end.

(** [createRemotePlayer]; [None] when the scene lookup throws, before
    anything is created. *)
Definition createRemotePlayer (s : MultiplayerSystem) (cid : value)
  : option (MultiplayerSystem * nat) :=
  match findScene s with
  | None => None
  | Some s =>
      let '(w, entity) := createEntity (world s) in
      let w :=
        addComponent w entity
          (NetworkedPlayerData
             (mkNetworkedPlayer cid zero3 identity4 zero3 identity4 zero3
                identity4 (Num (Fin 0)))) in
      Some (mkSystem (clientId s) (room s)
              (Map_set (remotePlayers s) cid entity) (lastSnapshotTime s)
              (localPlayerEntity s) (scene s) w,
            entity)
  end.

Definition removeRemotePlayer (s : MultiplayerSystem) (cid : value)
  : MultiplayerSystem :=
  match Map_get (remotePlayers s) cid with
  | None => s
  | Some entity =>
      mkSystem (clientId s) (room s) (Map_delete (remotePlayers s) cid)
        (lastSnapshotTime s) (localPlayerEntity s) (scene s)
        (remove (world s) entity)
  end.

Definition handlePlayerJoin (s : MultiplayerSystem) (message : value)
  : MultiplayerSystem :=
  let cid := get message "clientId" in
  if is_string cid (clientId s) then s
  else
    match Map_get (remotePlayers s) cid with
    | Some _ => s
    | None =>
        match createRemotePlayer s cid with
        | Some (s', _) => s'
        | None => s
        end
    end.

Definition handlePlayerLeave (s : MultiplayerSystem) (message : value)
  : MultiplayerSystem :=
  let cid := get message "clientId" in
  if is_string cid (clientId s) then s else removeRemotePlayer s cid.

Definition handleSnapshot (now : Z) (s : MultiplayerSystem) (message : value)
  : MultiplayerSystem :=
  let cid := get message "clientId" in
  if is_string cid (clientId s) then s
  else
    match
      match Map_get (remotePlayers s) cid with
      | Some entity => Some (s, entity)
      | None => createRemotePlayer s cid
      end
    with
    | Some (s, entity) =>
        with_world s
          (updateRemotePlayerTransform now (world s) entity message)
    | None => s
    end.

(** [handleRemotePlantEvent]; when the scene lookup throws nothing has
    changed, and when reading [pos.x] or [quat.x] of a missing [pos] or
    [quat] throws only the scene has been looked up. *)
Definition handleRemotePlantEvent (s : MultiplayerSystem) (message : value)
  : MultiplayerSystem :=
  let cid := get message "clientId" in
  let plantType := get message "plantType" in
  let pos := get message "pos" in
  let quat := get message "quat" in
  if is_string cid (clientId s) then s
  else
    match findScene s with
    | None => s
    | Some s =>
        if nullish pos || nullish quat then s
        else
          let position :=
            Vector3_set zero3 (get pos "x") (get pos "y") (get pos "z") in
          let quaternion :=
            mkQuaternion (get quat "x") (get quat "y") (get quat "z")
                         (get quat "w") in
          let '(w, e) := createEntity (world s) in
          let w := addComponent w e (Object3DData position quaternion) in
          let w := addComponent w e (PlantGrowingData plantType) in
          let w := addComponent w e NetworkedData in
          with_world s w
    end.

(** [handleMessage]; destructuring a [null] message throws, and [emit]
    catches what a listener throws. *)
Definition handleMessage (now : Z) (s : MultiplayerSystem) (message : value)
  : MultiplayerSystem :=
  if nullish message then s
  else
    let type := get message "type" in
    if is_string type "join" then handlePlayerJoin s message
    else if is_string type "leave" then handlePlayerLeave s message
    else if is_string type "snapshot" then handleSnapshot now s message
    else if is_string type "event:plant" then handleRemotePlantEvent s message
    else s.

(** [publishSnapshot(time)]; [None] when [getOnlyEntity] throws. *)
Definition publishSnapshot (env : Env) (time : Q) (s : MultiplayerSystem)
  : option (MultiplayerSystem * list Outbound) :=
  if Qle_bool 50 (time - lastSnapshotTime s) then
    match
      match localPlayerEntity s with
      | Some entity => Found entity
      | None => getOnlyEntity (results (world s) "localPlayer")
      end
    with
    | Threw => None
    | Missing => Some (s, [])
    | Found entity =>
        let s :=
          mkSystem (clientId s) (room s) (remotePlayers s)
            (lastSnapshotTime s) (Some entity) (scene s) (world s) in
        match entityList (world s) !! entity with
        | Some e =>
            if hasComponent e PlayerStateComponent then
              match localPose env with
              | Some (head, lh, rh) =>
                  Some (mkSystem (clientId s) (room s) (remotePlayers s) time
                          (localPlayerEntity s) (scene s) (world s),
                        [SnapshotOut time head lh rh])
              | None => Some (s, [])
              end
            else Some (s, [])
        | None => Some (s, [])
        end
    end
  else Some (s, []).

(** [execute(delta, time)]: the system afterwards, what was sent, and
    whether it threw.  Moving the drawn avatars towards their targets
    changes nothing that is modelled here. *)
Definition execute (env : Env) (time : Q) (s : MultiplayerSystem)
  : MultiplayerSystem * list Outbound * bool :=
  if negb (isConnected env) then (s, [], false)
  else
    match publishSnapshot env time s with
    | None => (s, [], true)
    | Some (s, published) =>
        let '(planted, threw) :=
          match query (world s) "newlyPlanted" with
          | Some {| added := Some ents |} =>
              broadcastPlanted env (world s) ents
          | _ => ([], false)
          end in
        (s, published ++ planted, threw)
    end.

(** One frame of the world: the system runs and, unless it threw, its
    event lists are cleared. *)
Definition frame (env : Env) (time : Q) (s : MultiplayerSystem)
  : MultiplayerSystem * list Outbound :=
  let '(s, sent, threw) := execute env time s in
  (if threw then s else with_world s (clearEvents (world s)), sent).

(** [onStop]: every remote player goes. *)
Definition onStop (s : MultiplayerSystem) : MultiplayerSystem :=
  mkSystem (clientId s) (room s) [] (lastSnapshotTime s)
    (localPlayerEntity s) (scene s)
    (foldl remove (world s) (snd <$> remotePlayers s)).

Inductive Event :=
| Inbound (now : Z) (message : value)
| Frame (env : Env) (time : Q)
| Stop.

Definition step (s : MultiplayerSystem) (ev : Event)
  : MultiplayerSystem * list Outbound :=
  match ev with
  | Inbound now message => (handleMessage now s message, [])
  | Frame env time => frame env time s
  | Stop => (onStop s, [])
  end.

Fixpoint run (s : MultiplayerSystem) (trace : list Event)
  : MultiplayerSystem * list Outbound :=
  match trace with
  | [] => (s, [])
  | ev :: rest =>
      let '(s', sent) := step s ev in
      let '(s'', sent') := run s' rest in
      (s'', sent ++ sent')
  end.

End Handlers.

(** ** Vocabulary of the statements *)

(** No key of the remote-player map is the local client identifier. *)
Definition foreign_keys (s : MultiplayerSystem) : Prop :=
  ∀ k e, (k, e) ∈ remotePlayers s → is_string k (clientId s) = false.

(** No entity is a remote avatar of the local client identifier. *)
Definition foreign_avatars (self : string) (w : World) : Prop :=
  ∀ ent e np,
    entityList w !! ent = Some e → NetworkedPlayerData np ∈ e →
    is_string (np_clientId np) self = false.

(** Both, for a system. *)
Definition inv (s : MultiplayerSystem) : Prop :=
  foreign_keys s ∧ foreign_avatars (clientId s) (world s).

(** An [event:plant] message as the relay sends it on. *)
Definition plantEvent (cid : string) (plantType pos quat : value) : value :=
  Obj [("v"%string, Num (Fin 1)); ("type"%string, Str "event:plant");
       ("clientId"%string, Str cid); ("plantType"%string, plantType);
       ("pos"%string, pos); ("quat"%string, quat)].

(** ** Concrete runs *)

(** A world of the system's queries with one entity, number 0, that
    holds the scene. *)
Definition stage : World :=
  addComponent (createEntity (mkWorld ∅ 0 system_queries)).1 0
    (OtherData THREEGlobalComponent).

(** A [getOnlyEntity] that returns the entity of a one-entity list and
    throws on any other. *)
Definition theOnly (ents : list nat) : Only :=
  match ents with
  | [entity] => Found entity
  | _ => Threw
  end.


(** ** More vocabulary *)

(** The times of the snapshots among what was sent, in order. *)
Definition snapshot_times (sent : list Outbound) : list Q :=
  omap (λ m, match m with SnapshotOut t _ _ _ => Some t | _ => None end) sent.

(** Each time is at least 50 after the one before it, the first after
    [last]. *)
Fixpoint spaced (last : Q) (times : list Q) : Prop :=
  match times with
  | [] => True
  | t :: rest => (50 <= t - last)%Q ∧ spaced t rest
  end.

Definition is_plant (m : Outbound) : bool :=
  match m with PlantOut _ _ _ _ => true | _ => false end.

(** Every entity of the world has a number below the next one to be
    given out. *)
Definition numbered (w : World) : Prop :=
  ∀ ent e, entityList w !! ent = Some e → (ent < nextId w)%nat.

(** No entity of the world is a remote avatar. *)
Definition no_avatars (w : World) : Prop :=
  ∀ ent e np, entityList w !! ent = Some e → NetworkedPlayerData np ∉ e.

(** Entity [ent] is the avatar of the client [k]: its one component is
    a [NetworkedPlayerComponent] for [k]. *)
Definition avatar (w : World) (ent : nat) (k : value) : Prop :=
  ∃ np, entityList w !! ent = Some [NetworkedPlayerData np]
        ∧ np_clientId np = k.

(** No two entries of the map have keys that are the same key. *)
Fixpoint distinct_keys (m : PlayerMap) : Prop :=
  match m with
  | [] => True
  | (k, _) :: rest =>
      (∀ k' e', (k', e') ∈ rest → SameValueZero k k' = false)
      ∧ distinct_keys rest
  end.

(** The map of remote players and the avatars of the world go
    together: every entry names the avatar of its key, every avatar is
    named by an entry, and no two entries share an entity or a key. *)
Definition paired (s : MultiplayerSystem) : Prop :=
  (∀ k e, (k, e) ∈ remotePlayers s → avatar (world s) e k)
  ∧ (∀ ent e np,
       entityList (world s) !! ent = Some e → NetworkedPlayerData np ∈ e →
       (np_clientId np, ent) ∈ remotePlayers s)
  ∧ NoDup (remotePlayers s).*2
  ∧ distinct_keys (remotePlayers s)
  ∧ numbered (world s).


(** ** More concrete values *)

Definition joinMessage (cid : string) : value :=
  Obj [("v"%string, Num (Fin 1)); ("type"%string, Str "join");
       ("clientId"%string, Str cid)].

Definition leaveMessage (cid : string) : value :=
  Obj [("v"%string, Num (Fin 1)); ("type"%string, Str "leave");
       ("clientId"%string, Str cid)].

(** The stage with a locally planted rose, entity 1. *)
Definition stage_with_rose : World :=
  let '(w, e) := createEntity stage in
  let w := addComponent w e (Object3DData zero3 identity4) in
  addComponent w e (PlantGrowingData (Str "rose")).

(** The stage with the local player, entity 1. *)
Definition stage_with_player : World :=
  let '(w, e) := createEntity stage in
  addComponent w e (OtherData PlayerStateComponent).

Definition somePose : value * value * value :=
  (Str "head", Str "left", Str "right").

End Sync.
(** * Facts about the relay *)

Module SanitizerFacts.
Import JS Relay.

Lemma round64_not_NaN q : round64 q ≠ NaN.
Proof.
  unfold round64. destruct (Qnum q =? 0); [done|].
  destruct (_ || _); [|done].
  by destruct (0 <? Qnum q).
Qed.

(** The quotient of a whole number by 1000, as [round64] sees it. *)
Lemma div_of_Z k : div (of_Z k) 1000 = round64 (k # 1000).
Proof.
  unfold div, of_Z, Qdiv, Qmult, Qinv, inject_Z. cbn [Qnum Qden].
  by rewrite Z.mul_1_r.
Qed.

Lemma same_number_refl n : same_number n n.
Proof. by destruct n. Qed.

(** What [Math.round(n * 1000) / 1000] is for a number [n]: never NaN
    unless [n] is, and when finite the double of a whole number of
    thousandths. *)
Lemma rounded_milli n :
  n ≠ NaN →
  div (Math_round (mul n 1000)) 1000 ≠ NaN
  ∧ ∀ r, div (Math_round (mul n 1000)) 1000 = Fin r →
         ∃ k : Z, same_number (Fin r) (round64 (k # 1000)).
Proof.
  intros Hnan. destruct n as [v| | |]; try done. cbn [mul].
  pose proof (round64_not_NaN (v * 1000)) as Hn.
  destruct (round64 (v * 1000)) as [x| | |]; try done.
  cbn [Math_round]. rewrite div_of_Z. split; [apply round64_not_NaN|].
  intros r Hr. eexists. rewrite <- Hr. apply same_number_refl.
Qed.

Lemma Math_min_max_within lo hi n :
  n ≠ NaN → milli_within lo hi (Fin lo) → milli_within lo hi (Fin hi) →
  (∀ r, n = Fin r → ∃ k : Z, same_number (Fin r) (round64 (k # 1000))) →
  milli_within lo hi (Math_max (Fin lo) (Math_min (Fin hi) n)).
Proof.
  intros Hnan Hlo Hhi Hn. destruct n as [r| | |]; simpl; try done.
  - destruct (Qle_bool hi r) eqn:E1.
    + destruct (Qle_bool lo hi) eqn:E2; done.
    + destruct (Qle_bool lo r) eqn:E2; [|done].
      simpl. apply Qle_bool_iff in E2. split; [done|]. split; [|eauto].
      apply Qlt_le_weak, Qnot_le_lt. intros H.
      apply Qle_bool_iff in H. congruence.
  - destruct (Qle_bool lo hi); done.
Qed.

Lemma bound_within lo hi n :
  n ≠ NaN → milli_within lo hi (Fin lo) → milli_within lo hi (Fin hi) →
  milli_within lo hi (bound lo hi n).
Proof.
  intros Hnan Hlo Hhi. destruct (rounded_milli n Hnan).
  by apply Math_min_max_within.
Qed.

Lemma zero_within_1000 : milli_within (-1000) 1000 (Fin 0).
Proof. repeat split; try done. by exists 0. Qed.

Lemma bounds_within_1000 :
  milli_within (-1000) 1000 (Fin (-1000))
  ∧ milli_within (-1000) 1000 (Fin 1000).
Proof.
  split; (repeat split; try done); [by exists (-1000000)|by exists 1000000].
Qed.

Lemma bounds_within_1 :
  milli_within (-1) 1 (Fin (-1)) ∧ milli_within (-1) 1 (Fin 1).
Proof.
  split; (repeat split; try done); [by exists (-1000)|by exists 1000].
Qed.

Section Facts.

Variable StringToNumber : string → number.
Variable ArrayToString : list value → string.

Abbreviation ToNumber := (JS.ToNumber StringToNumber ArrayToString).
Abbreviation clamp := (Relay.clamp StringToNumber ArrayToString).
Abbreviation clampVector3 := (Relay.clampVector3 StringToNumber ArrayToString).
Abbreviation clampQuaternion :=
  (Relay.clampQuaternion StringToNumber ArrayToString).

(** A number converts to itself. *)
Lemma ToNumber_Num n : ToNumber (Num n) = Returned n.
Proof. done. Qed.

Lemma ToNumber_throws c : ToNumber c = Threw ↔ unprintable c = true.
Proof. unfold JS.ToNumber. by destruct (unprintable c). Qed.

Lemma clamp_returns lo hi c n :
  ToNumber c = Returned n → clamp lo hi c = Returned (bound lo hi n).
Proof. unfold Relay.clamp. by intros ->. Qed.

Lemma clamp_throws lo hi c :
  clamp lo hi c = Threw ↔ unprintable c = true.
Proof.
  unfold Relay.clamp, JS.ToNumber. by destruct (unprintable c).
Qed.

(** Every axis that converts to a number comes out clamped and rounded. *)
Lemma clampVector3_numeric vec a b c :
  ToNumber (get vec "x") = Returned a →
  ToNumber (get vec "y") = Returned b →
  ToNumber (get vec "z") = Returned c →
  a ≠ NaN → b ≠ NaN → c ≠ NaN →
  ∃ out, clampVector3 vec = Returned out
         ∧ milli_within (-1000) 1000 (vx out)
         ∧ milli_within (-1000) 1000 (vy out)
         ∧ milli_within (-1000) 1000 (vz out).
Proof.
  destruct bounds_within_1000 as [Hlo Hhi]. pose proof zero_within_1000.
  intros Hx Hy Hz Ha Hb Hc. unfold Relay.clampVector3.
  destruct (_ || _); [by eexists|].
  rewrite (clamp_returns _ _ _ _ Hx), (clamp_returns _ _ _ _ Hy),
    (clamp_returns _ _ _ _ Hz).
  eexists. split; [done|]. repeat split; by apply bound_within.
Qed.

Lemma clampQuaternion_numeric quat a b c d :
  ToNumber (get quat "x") = Returned a →
  ToNumber (get quat "y") = Returned b →
  ToNumber (get quat "z") = Returned c →
  ToNumber (get quat "w") = Returned d →
  a ≠ NaN → b ≠ NaN → c ≠ NaN → d ≠ NaN →
  ∃ out, clampQuaternion quat = Returned out
         ∧ milli_within (-1) 1 (qx out) ∧ milli_within (-1) 1 (qy out)
         ∧ milli_within (-1) 1 (qz out) ∧ milli_within (-1) 1 (qw out).
Proof.
  destruct bounds_within_1 as [Hlo Hhi].
  assert (H0 : milli_within (-1) 1 (Fin 0)).
  { repeat split; try done. by exists 0. }
  intros Hx Hy Hz Hw Ha Hb Hc Hd. unfold Relay.clampQuaternion.
  destruct (_ || _); [by eexists|].
  rewrite (clamp_returns _ _ _ _ Hx), (clamp_returns _ _ _ _ Hy),
    (clamp_returns _ _ _ _ Hz), (clamp_returns _ _ _ _ Hw).
  eexists. split; [done|]. repeat split; by apply bound_within.
Qed.

(** An input that is not even an object with a numeric [x]. *)
Lemma clampVector3_default vec :
  truthy vec = false ∨ is_number (get vec "x") = false →
  clampVector3 vec = Returned (mkVector3 (Fin 0) (Fin 0) (Fin 0)).
Proof. unfold Relay.clampVector3. by intros [->| ->]; rewrite ?orb_true_r. Qed.

Lemma clampQuaternion_default quat :
  truthy quat = false ∨ is_number (get quat "x") = false →
  clampQuaternion quat
  = Returned (mkQuaternion (Fin 0) (Fin 0) (Fin 0) (Fin 1)).
Proof.
  unfold Relay.clampQuaternion. by intros [->| ->]; rewrite ?orb_true_r.
Qed.

(** The sanitizers throw on an axis that cannot be converted, and on
    nothing else. *)
Lemma clampVector3_throws vec :
  clampVector3 vec = Threw
  ↔ truthy vec = true ∧ is_number (get vec "x") = true
    ∧ (unprintable (get vec "y") = true ∨ unprintable (get vec "z") = true).
Proof.
  unfold Relay.clampVector3, Relay.clamp, JS.ToNumber.
  destruct (truthy vec); [|by split; [|intros (? & _)]].
  destruct (get vec "x") as [| | |n| | |] eqn:Hx;
    try by split; [|intros (_ & ? & _)].
  cbn [negb is_number orb unprintable].
  destruct (unprintable (get vec "y")), (unprintable (get vec "z"));
    cbn; split; try done; try (by intros (_ & _ & [?|?])); auto.
Qed.

Lemma clampQuaternion_throws quat :
  clampQuaternion quat = Threw
  ↔ truthy quat = true ∧ is_number (get quat "x") = true
    ∧ (unprintable (get quat "y") = true ∨ unprintable (get quat "z") = true
       ∨ unprintable (get quat "w") = true).
Proof.
  unfold Relay.clampQuaternion, Relay.clamp, JS.ToNumber.
  destruct (truthy quat); [|by split; [|intros (? & _)]].
  destruct (get quat "x") as [| | |n| | |] eqn:Hx;
    try by split; [|intros (_ & ? & _)].
  cbn [negb is_number orb unprintable].
  destruct (unprintable (get quat "y")), (unprintable (get quat "z")),
    (unprintable (get quat "w"));
    cbn; split; try done; try (by intros (_ & _ & [?|[?|?]])); auto.
Qed.

(** The sanitizer of a pose returns exactly on the poses that
    [converts] describes. *)
Lemma sanitizePose_converts part :
  match Relay.sanitizePose StringToNumber ArrayToString part with
  | Returned _ => true
  | Threw => false
  end = converts part.
Proof.
  unfold Relay.sanitizePose, converts.
  pose proof (clampVector3_throws (get part "p")) as Hp.
  pose proof (clampQuaternion_throws (get part "q")) as Hq.
  destruct (clampVector3 (get part "p")) as [p|];
    destruct (clampQuaternion (get part "q")) as [q|];
    cbn [mbind mret Result_bind Result_ret].
  - symmetry. apply andb_true_intro. split; apply negb_true_iff.
    + destruct (truthy _ && _ && _) eqn:E; [|done].
      apply andb_prop in E as [[? ?]%andb_prop ?%orb_prop].
      by assert (Returned p = Threw) by (by apply Hp).
    + destruct (truthy _ && _ && _) eqn:E; [|done].
      apply andb_prop in E as [[? ?]%andb_prop Hany].
      assert (Returned q = Threw); [|done]. apply Hq.
      split; [done|]. split; [done|].
      apply orb_prop in Hany as [?%orb_prop|?]; tauto.
  - destruct (proj1 Hq eq_refl) as (-> & -> & [->|[->| ->]]);
      by rewrite ?orb_true_r, ?andb_false_r.
  - by destruct (proj1 Hp eq_refl) as (-> & -> & [->| ->]);
      rewrite ?orb_true_r.
  - by destruct (proj1 Hp eq_refl) as (-> & -> & [->| ->]);
      rewrite ?orb_true_r.
Qed.

(** C2.  [clampVector3] and [clampQuaternion] test the type of [x] and of
    no other axis.  An object with a numeric [x] and nothing else passes
    the test, and the axes it lacks come out as NaN: not within the
    bounds, not a multiple of 0.001, and not the zero vector or the
    identity quaternion that a malformed input is meant to give. *)
Theorem clamp_unchecked_axes_NaN :
  let vec := Obj [("x"%string, Num (Fin 1))] in
  let quat := Obj [("x"%string, Num (Fin 0))] in
  truthy vec = true ∧ is_number (get vec "x") = true
  ∧ clampVector3 vec = Returned (mkVector3 (Fin 1) NaN NaN)
  ∧ clampQuaternion quat = Returned (mkQuaternion (Fin 0) NaN NaN NaN).
Proof. repeat split. Qed.

End Facts.
End SanitizerFacts.
Module RelayFacts.
Import JS Relay.

Lemma elem_of_send env ws msg c m :
  (c, m) ∈ send env ws msg ↔ c = ws ∧ m = msg ∧ isOpen env ws = true.
Proof.
  unfold send. destruct (isOpen env ws).
  - rewrite list_elem_of_singleton. naive_solver.
  - rewrite elem_of_nil. naive_solver.
Qed.

Lemma elem_of_recipients env members exclude c :
  c ∈ recipients env members exclude
  ↔ Some c ≠ exclude ∧ isOpen env c = true ∧ c ∈ members.
Proof.
  unfold recipients. rewrite list_elem_of_filter, elem_of_elements.
  naive_solver.
Qed.

Lemma NoDup_recipients env members exclude :
  NoDup (recipients env members exclude).
Proof. apply NoDup_filter, NoDup_elements. Qed.

Lemma elem_of_broadcastToRoom env st roomId msg exclude c m :
  (c, m) ∈ broadcastToRoom env st roomId msg exclude
  ↔ m = msg ∧ Some c ≠ exclude ∧ isOpen env c = true ∧ c ∈ members st roomId.
Proof.
  unfold broadcastToRoom, members.
  destruct (rooms st !! roomId) as [roomClients|]; simpl.
  - rewrite list_elem_of_fmap. setoid_rewrite elem_of_recipients.
    naive_solver.
  - rewrite elem_of_nil. set_solver.
Qed.

Lemma cleanupClient_members st ws roomId c :
  c ≠ ws → c ∈ members (cleanupClient st ws) roomId ↔ c ∈ members st roomId.
Proof.
  intros Hne. unfold cleanupClient, members.
  destruct (clients st !! ws) as [old|]; [|done]. simpl.
  rewrite lookup_alter. case_decide as Hr; [|done]. rewrite Hr.
  destruct (rooms st !! roomId); simpl; set_solver.
Qed.

(** The members of [roomId] once [ws] has said hello for it. *)
Lemma handleHello_members env st ws message c :
  truthy (msg_clientId message) = true →
  let roomId := default "default"%string (msg_room message) in
  c ∈ members (handleHello env st ws message).1.1 roomId
  ↔ c = ws ∨ c ∈ members st roomId.
Proof.
  intros Hcid roomId. unfold handleHello. rewrite Hcid. cbn [negb].
  fold roomId.
  assert (∀ (b : bool) (s : Server) (x y : Sent),
            (if b then (s, x, true) else (s, y, false)).1.1 = s) as ->
    by (by intros []).
  unfold members at 1. simpl. rewrite lookup_alter_eq.
  assert (Hclean : c ∈ members (cleanupClient st ws) roomId ∨ c = ws
                   ↔ c = ws ∨ c ∈ members st roomId).
  { destruct (decide (c = ws)) as [->|Hne]; [naive_solver|].
    rewrite cleanupClient_members by done. naive_solver. }
  rewrite <- Hclean. unfold members.
  destruct (rooms (cleanupClient st ws) !! roomId) as [roomClients|] eqn:E.
  - rewrite E. simpl. set_solver.
  - rewrite lookup_insert_eq. simpl. set_solver.
Qed.

Section Facts.

Variable StringToNumber : string → number.
Variable ArrayToString : list value → string.

Abbreviation handleSnapshot := (Relay.handleSnapshot StringToNumber ArrayToString).
Abbreviation handlePlantEvent := (Relay.handlePlantEvent StringToNumber ArrayToString).
Abbreviation handleMessage := (Relay.handleMessage StringToNumber ArrayToString).
Abbreviation step := (Relay.step StringToNumber ArrayToString).
Abbreviation run := (Relay.run StringToNumber ArrayToString).
Abbreviation reachable := (Relay.reachable StringToNumber ArrayToString).

Lemma handleMessage_hello env st ws message :
  is_one (msg_v message) = true → msg_type message = Str "hello" →
  handleMessage env st ws message = handleHello env st ws message.
Proof. intros Hv Ht. unfold Relay.handleMessage. by rewrite Hv, Ht. Qed.

Lemma handleMessage_snapshot env st ws message :
  is_one (msg_v message) = true → msg_type message = Str "snapshot" →
  handleMessage env st ws message = handleSnapshot env st ws message.
Proof. intros Hv Ht. unfold Relay.handleMessage. by rewrite Hv, Ht. Qed.

Lemma handleMessage_plant env st ws message :
  is_one (msg_v message) = true → msg_type message = Str "event:plant" →
  handleMessage env st ws message = handlePlantEvent env st ws message.
Proof. intros Hv Ht. unfold Relay.handleMessage. by rewrite Hv, Ht. Qed.

Lemma handleMessage_pong env st ws message :
  is_one (msg_v message) = true → msg_type message = Str "pong" →
  handleMessage env st ws message = handlePong env st ws.
Proof. intros Hv Ht. unfold Relay.handleMessage. by rewrite Hv, Ht. Qed.

Lemma sendError_not_broadcast env ws err c m :
  (c, m) ∈ sendError env ws err → is_broadcast m = false.
Proof. unfold sendError. rewrite elem_of_send. by intros (_ & -> & _). Qed.

Lemma broadcast_not_to_excluded env st roomId msg ws m :
  (ws, m) ∉ broadcastToRoom env st roomId msg (Some ws).
Proof. rewrite elem_of_broadcastToRoom. naive_solver. Qed.

Lemma handleHello_to_sender env st ws message m :
  (ws, m) ∈ (handleHello env st ws message).1.2 → is_broadcast m = false.
Proof.
  unfold handleHello. destruct (truthy (msg_clientId message)); simpl.
  - destruct (unprintable _); simpl; [by rewrite elem_of_nil|].
    rewrite elem_of_app, elem_of_send.
    intros [H|(_ & -> & _)]; [|done].
    by apply broadcast_not_to_excluded in H.
  - apply sendError_not_broadcast.
Qed.

Lemma handleSnapshot_to_sender env st ws message m :
  (ws, m) ∈ (handleSnapshot env st ws message).1.2 → is_broadcast m = false.
Proof.
  unfold Relay.handleSnapshot. destruct (clients st !! ws) as [client|].
  - destruct (rateLimited env client); simpl; [by rewrite elem_of_nil|].
    destruct (sanitizeSnapshot _ _ env message) as [[sanitized|]|]; simpl;
      try by rewrite elem_of_nil.
    intros H. by apply broadcast_not_to_excluded in H.
  - apply sendError_not_broadcast.
Qed.

Lemma handlePlantEvent_to_sender env st ws message m :
  (ws, m) ∈ (handlePlantEvent env st ws message).1.2 → is_broadcast m = false.
Proof.
  unfold Relay.handlePlantEvent. destruct (clients st !! ws) as [client|].
  - destruct (_ || _); simpl; [apply sendError_not_broadcast|].
    destruct (_ ≫= _) as [[pos quat]|]; simpl; [|by rewrite elem_of_nil].
    intros H. by apply broadcast_not_to_excluded in H.
  - apply sendError_not_broadcast.
Qed.

Lemma handleDisconnect_to_sender env st ws m :
  (ws, m) ∉ (handleDisconnect env st ws).1.2.
Proof.
  unfold handleDisconnect. destruct (clients st !! ws) as [client|];
    [|apply not_elem_of_nil].
  destruct (unprintable _); [apply not_elem_of_nil|].
  destruct (rooms st !! room client) as [roomClients|];
    [|apply not_elem_of_nil].
  case_decide; simpl; [apply not_elem_of_nil|].
  rewrite elem_of_broadcastToRoom. unfold members. simpl.
  rewrite lookup_insert_eq. simpl. set_solver.
Qed.

Lemma handleMessage_to_sender env st ws message m :
  (ws, m) ∈ (handleMessage env st ws message).1.2 → is_broadcast m = false.
Proof.
  unfold Relay.handleMessage.
  destruct (is_one _); simpl; [|apply sendError_not_broadcast].
  destruct (is_string _ "hello"); [apply handleHello_to_sender|].
  destruct (is_string _ "snapshot"); [apply handleSnapshot_to_sender|].
  destruct (is_string _ "event:plant"); [apply handlePlantEvent_to_sender|].
  destruct (is_string _ "pong"); simpl.
  - unfold handlePong. destruct (clients st !! ws); simpl;
      by rewrite elem_of_nil.
  - by rewrite elem_of_nil.
Qed.

(** What the listener for a message makes of what [handleMessage] did. *)
Lemma step_frame env st ws message :
  step env st (Frame ws (Some message))
  = ((handleMessage env st ws message).1.1,
     (handleMessage env st ws message).1.2
     ++ if (handleMessage env st ws message).2
        then sendError env ws "Invalid message format" else []).
Proof.
  cbn [Relay.step]. by destruct (handleMessage env st ws message) as [[? ?] ?].
Qed.

Lemma step_returned env st ws message st' sent :
  handleMessage env st ws message = (st', sent, false) →
  step env st (Frame ws (Some message)) = (st', sent).
Proof. intros H. rewrite step_frame, H. simpl. by rewrite app_nil_r. Qed.

Lemma step_threw env st ws message st' sent :
  handleMessage env st ws message = (st', sent, true) →
  step env st (Frame ws (Some message))
  = (st', sent ++ sendError env ws "Invalid message format").
Proof. intros H. by rewrite step_frame, H. Qed.

Lemma step_to_origin env st ev m :
  (origin ev, m) ∈ (step env st ev).2 → is_broadcast m = false.
Proof.
  destruct ev as [ws [message|]|ws].
  - rewrite step_frame. cbn [origin snd]. rewrite elem_of_app.
    intros [H|H]; [by apply handleMessage_to_sender in H|].
    destruct (_.2); [by apply sendError_not_broadcast in H|].
    by apply elem_of_nil in H.
  - apply sendError_not_broadcast.
  - intros H. by apply handleDisconnect_to_sender in H.
Qed.

Lemma received_app c (s1 s2 : Sent) :
  received c (s1 ++ s2) = received c s1 ++ received c s2.
Proof. unfold received. by rewrite filter_app, fmap_app. Qed.

Lemma received_fanout_notin c msg (l : list conn) :
  c ∉ l → received c ((λ client, (client, msg)) <$> l) = [].
Proof.
  unfold received. induction l as [|d l IH]; [done|].
  rewrite not_elem_of_cons. intros [Hne Hnotin]. simpl.
  rewrite filter_cons_False by (simpl; congruence). auto.
Qed.

Lemma received_fanout c msg (l : list conn) :
  NoDup l → c ∈ l → received c ((λ client, (client, msg)) <$> l) = [msg].
Proof.
  unfold received. induction l as [|d l IH]; [by rewrite elem_of_nil|].
  rewrite NoDup_cons, elem_of_cons. intros [Hd Hnd] [->|Hin]; simpl.
  - rewrite filter_cons_True by done. simpl. f_equal.
    by apply received_fanout_notin.
  - rewrite filter_cons_False; [auto|]. simpl. intros ->. done.
Qed.

Lemma received_broadcast env st roomId msg exclude c :
  received c (broadcastToRoom env st roomId msg exclude)
  = if decide (Some c ≠ exclude ∧ isOpen env c = true
               ∧ c ∈ members st roomId)
    then [msg] else [].
Proof.
  unfold broadcastToRoom, members.
  destruct (rooms st !! roomId) as [roomClients|] eqn:E; simpl.
  - case_decide as H.
    + apply received_fanout; [apply NoDup_recipients|].
      by apply elem_of_recipients.
    + apply received_fanout_notin. by rewrite elem_of_recipients.
  - case_decide as H; [|done]. set_solver.
Qed.

Lemma received_send env ws msg c :
  received c (send env ws msg)
  = if decide (c = ws ∧ isOpen env ws = true) then [msg] else [].
Proof.
  unfold send, received. destruct (isOpen env ws).
  - case_decide as H.
    + destruct H as [-> _]. by rewrite filter_cons_True.
    + rewrite filter_cons_False; [done|]. simpl. naive_solver.
  - case_decide as H; [naive_solver|done].
Qed.

(** C6.  A valid hello on connection [ws], one whose [clientId] is not
    empty and can be written to the log, sends the join, with the new
    member's [clientId], once to every other member of the room whose
    socket is open and to nobody else; [ws] itself is sent the
    [hello_ack] and nothing more.  And whatever event the relay handles,
    none of the messages it fans out to a room (join, leave, snapshot,
    event:plant) goes to the connection the event came from. *)
Theorem hello_join_excludes_sender env st ws message :
  is_one (msg_v message) = true →
  msg_type message = Str "hello" →
  truthy (msg_clientId message) = true →
  unprintable (msg_clientId message) = false →
  let clientId := msg_clientId message in
  let roomId := default "default"%string (msg_room message) in
  let sent := (step env st (Frame ws (Some message))).2 in
  (∀ c, c ≠ ws →
        received c sent
        = if decide (c ∈ members st roomId ∧ isOpen env c = true)
          then [Join clientId (now env)] else [])
  ∧ received ws sent
    = (if isOpen env ws then [HelloAck clientId roomId] else [])
  ∧ (∀ env' st' ev m,
       (origin ev, m) ∈ (step env' st' ev).2 → is_broadcast m = false).
Proof.
  intros Hv Ht Hcid Hprint clientId roomId sent.
  assert (Hsent : sent
    = broadcastToRoom env (handleHello env st ws message).1.1 roomId
        (Join clientId (now env)) (Some ws)
      ++ send env ws (HelloAck clientId roomId)).
  { unfold sent. rewrite step_frame, handleMessage_hello by done.
    unfold handleHello. rewrite Hcid, Hprint. simpl. by rewrite app_nil_r. }
  pose proof (handleHello_members env st ws message) as Hmem.
  simpl in Hmem. fold roomId in Hmem.
  repeat split.
  - intros c Hne. rewrite Hsent, received_app.
    rewrite received_broadcast, received_send.
    rewrite (decide_False (P := c = ws ∧ _)) by naive_solver.
    rewrite app_nil_r. apply decide_ext.
    rewrite Hmem by done. naive_solver.
  - rewrite Hsent, received_app, received_broadcast, received_send.
    rewrite decide_False by naive_solver. simpl.
    destruct (isOpen env ws); [by rewrite decide_True|].
    rewrite decide_False; naive_solver.
  - intros env' st' ev m. apply step_to_origin.
Qed.


(** ** The snapshot rate limit *)

(** What the sanitizer comes to, by the poses of the frame. *)
Lemma sanitizeSnapshot_without_poses env message :
  has_poses message = false →
  Relay.sanitizeSnapshot StringToNumber ArrayToString env message
  = Returned None.
Proof.
  unfold has_poses, Relay.sanitizeSnapshot.
  by destruct (truthy (msg_head message)), (truthy (msg_lh message)),
    (truthy (msg_rh message)).
Qed.

Lemma sanitizeSnapshot_returns env message :
  has_poses message = true →
  Relay.poses_convert StringToNumber ArrayToString message = true →
  ∃ sanitized,
    Relay.sanitizeSnapshot StringToNumber ArrayToString env message
    = Returned (Some sanitized)
    ∧ snap_clientId sanitized = Undefined.
Proof.
  unfold has_poses, Relay.sanitizeSnapshot, Relay.poses_convert.
  destruct (truthy (msg_head message)), (truthy (msg_lh message)),
    (truthy (msg_rh message)); try done.
  intros _. cbn [negb orb].
  destruct (Relay.sanitizePose _ _ (msg_head message)); [|done].
  destruct (Relay.sanitizePose _ _ (msg_lh message)); [|done].
  destruct (Relay.sanitizePose _ _ (msg_rh message)); [|done].
  intros _. by eexists.
Qed.

Lemma sanitizeSnapshot_throws env message :
  has_poses message = true →
  Relay.poses_convert StringToNumber ArrayToString message = false →
  Relay.sanitizeSnapshot StringToNumber ArrayToString env message = Threw.
Proof.
  unfold has_poses, Relay.sanitizeSnapshot, Relay.poses_convert.
  destruct (truthy (msg_head message)), (truthy (msg_lh message)),
    (truthy (msg_rh message)); try done.
  intros _. cbn [negb orb].
  destruct (Relay.sanitizePose _ _ (msg_head message)); [|done].
  destruct (Relay.sanitizePose _ _ (msg_lh message)); [|done].
  by destruct (Relay.sanitizePose _ _ (msg_rh message)).
Qed.

(** The sanitizer returns on a frame exactly when none of its three
    poses has an axis that stops it. *)
Lemma poses_convert_spec message :
  Relay.poses_convert StringToNumber ArrayToString message
  = converts (msg_head message) && converts (msg_lh message)
    && converts (msg_rh message).
Proof.
  unfold Relay.poses_convert.
  rewrite <- !(SanitizerFacts.sanitizePose_converts StringToNumber
                 ArrayToString).
  by destruct (Relay.sanitizePose _ _ (msg_head message)),
    (Relay.sanitizePose _ _ (msg_lh message)),
    (Relay.sanitizePose _ _ (msg_rh message)).
Qed.

Lemma handleSnapshot_dropped env st ws client message :
  clients st !! ws = Some client → rateLimited env client = true →
  handleSnapshot env st ws message = (st, [], false).
Proof. intros Hc Hr. unfold Relay.handleSnapshot. by rewrite Hc, Hr. Qed.

Lemma handleSnapshot_malformed env st ws client message :
  clients st !! ws = Some client → rateLimited env client = false →
  has_poses message = false →
  handleSnapshot env st ws message
  = (stamp st ws client (now env), [], false).
Proof.
  intros Hc Hr Hp. unfold Relay.handleSnapshot.
  by rewrite Hc, Hr, sanitizeSnapshot_without_poses.
Qed.

Lemma handleSnapshot_accepted env st ws client message :
  clients st !! ws = Some client → rateLimited env client = false →
  has_poses message = true →
  Relay.poses_convert StringToNumber ArrayToString message = true →
  ∃ sanitized,
    snap_clientId sanitized = clientId client ∧
    handleSnapshot env st ws message
    = (stamp st ws client (now env),
       broadcastToRoom env (stamp st ws client (now env)) (room client)
         (SnapshotMsg sanitized) (Some ws), false).
Proof.
  intros Hc Hr Hp Hconv. unfold Relay.handleSnapshot.
  destruct (sanitizeSnapshot_returns env message Hp Hconv)
    as (sanitized & -> & _).
  rewrite Hc, Hr. eexists. split; [|reflexivity]. done.
Qed.

(** A frame with the three poses, one of which has an axis that cannot
    be converted: the session is stamped, nothing is broadcast, and the
    handler throws. *)
Lemma handleSnapshot_threw env st ws client message :
  clients st !! ws = Some client → rateLimited env client = false →
  has_poses message = true →
  Relay.poses_convert StringToNumber ArrayToString message = false →
  handleSnapshot env st ws message
  = (stamp st ws client (now env), [], true).
Proof.
  intros Hc Hr Hp Hconv. unfold Relay.handleSnapshot.
  by rewrite Hc, Hr, sanitizeSnapshot_throws.
Qed.

Lemma rateLimited_stamped env client t :
  rateLimited env (stamped client t) = negb (t =? 0) && (now env - t <? 40).
Proof. done. Qed.

Lemma members_stamp st ws client t roomId :
  members (stamp st ws client t) roomId = members st roomId.
Proof. done. Qed.

Lemma lookup_stamp st ws client t :
  clients (stamp st ws client t) !! ws = Some (stamped client t).
Proof. unfold stamp. simpl. by rewrite lookup_insert_eq. Qed.

Lemma snapshots_received_app c (s1 s2 : Sent) :
  snapshots_received c (s1 ++ s2)
  = (snapshots_received c s1 + snapshots_received c s2)%nat.
Proof.
  unfold snapshots_received.
  by rewrite received_app, filter_app, length_app.
Qed.

(** One accepted snapshot reaches each other open member once. *)
Lemma accepted_snapshot_received env st ws client message c :
  clients st !! ws = Some client → rateLimited env client = false →
  has_poses message = true →
  Relay.poses_convert StringToNumber ArrayToString message = true →
  c ≠ ws → c ∈ members st (room client) → isOpen env c = true →
  snapshots_received c (handleSnapshot env st ws message).1.2 = 1%nat.
Proof.
  intros Hc Hr Hp Hconv Hne Hin Hopen.
  destruct (handleSnapshot_accepted env st ws client message)
    as (sanitized & _ & ->); try done.
  unfold snapshots_received. simpl. rewrite received_broadcast.
  rewrite decide_True; [done|]. rewrite members_stamp.
  split; [congruence|done].
Qed.

(** Frames inside the window opened at [t] are all dropped. *)
Lemma window_drops_all ws client t frames : ∀ st,
  clients st !! ws = Some (stamped client t) → t ≠ 0 →
  Forall (λ f, snapshot_frame f.2 ∧ now f.1 - t < 40) frames →
  run st (frames_of ws frames) = (st, []).
Proof.
  induction frames as [|[env message] frames IH]; intros st Hc Ht Hall;
    [done|].
  apply Forall_cons in Hall as [[[Hv Hty] Hlt] Hall]. simpl in Hlt.
  change (frames_of ws ((env, message) :: frames))
    with ((env, Frame ws (Some message)) :: frames_of ws frames).
  cbn [Relay.run].
  rewrite (step_returned env st ws message st []).
  - by rewrite (IH st).
  - rewrite handleMessage_snapshot by done.
    apply (handleSnapshot_dropped env st ws (stamped client t)); [done|].
    rewrite rateLimited_stamped. apply andb_true_intro. split.
    + apply negb_true_iff. lia.
    + lia.
Qed.

(** Frames at least 40ms apart are all let through. *)
Lemma spaced_all_received ws c frames : ∀ st client,
  clients st !! ws = Some client → c ≠ ws → c ∈ members st (room client) →
  match frames with
  | [] => True
  | f :: rest => rateLimited f.1 client = false ∧ every_40ms (now f.1) rest
  end →
  Forall (λ f, snapshot_frame f.2 ∧ has_poses f.2 = true
               ∧ Relay.poses_convert StringToNumber ArrayToString f.2 = true
               ∧ isOpen f.1 c = true) frames →
  snapshots_received c (run st (frames_of ws frames)).2 = length frames.
Proof.
  induction frames as [|[env message] frames IH];
    intros st client Hc Hne Hin Hsp Hall; [done|].
  apply Forall_cons in Hall as [([Hv Hty] & Hp & Hconv & Hopen) Hall].
  destruct Hsp as [Hr Hsp]. simpl in Hp, Hconv, Hopen, Hr, Hsp.
  change (frames_of ws ((env, message) :: frames))
    with ((env, Frame ws (Some message)) :: frames_of ws frames).
  cbn [Relay.run].
  pose proof (accepted_snapshot_received env st ws client message c
                Hc Hr Hp Hconv Hne Hin Hopen) as Hone.
  destruct (handleSnapshot_accepted env st ws client message)
    as (sanitized & _ & Heq); try done.
  rewrite Heq in Hone. cbn [fst snd] in Hone.
  rewrite (step_returned env st ws message _ _
             ltac:(by rewrite handleMessage_snapshot)).
  specialize (IH (stamp st ws client (now env)) (stamped client (now env))).
  destruct (run (stamp st ws client (now env)) (frames_of ws frames))
    as [st' sent'] eqn:Erun.
  simpl. rewrite snapshots_received_app, Hone. f_equal.
  apply IH; try done.
  - apply lookup_stamp.
  - destruct frames as [|f rest]; [done|]. destruct Hsp as [Hge Hsp].
    split; [|done]. rewrite rateLimited_stamped.
    apply andb_false_intro2. lia.
Qed.

Lemma rateLimited_inside env client last :
  lastSnapshot client = Some last → last ≠ 0 → now env - last < 40 →
  rateLimited env client = true.
Proof.
  intros Hl H0 Hlt. unfold rateLimited. rewrite Hl.
  apply andb_true_intro. split; [apply negb_true_iff|]; lia.
Qed.

Lemma rateLimited_outside env client :
  (∀ last, lastSnapshot client = Some last → 40 ≤ now env - last) →
  rateLimited env client = false.
Proof.
  intros H. unfold rateLimited. destruct (lastSnapshot client) as [last|];
    [|done].
  specialize (H last eq_refl). apply andb_false_intro2. lia.
Qed.

(** ** Events that leave the window alone *)

Lemma cleanupClient_lookup st ws ws' :
  ws' ≠ ws → clients (cleanupClient st ws') !! ws = clients st !! ws.
Proof.
  intros Hne. unfold cleanupClient.
  destruct (clients st !! ws') as [old|]; [|done]. simpl.
  by rewrite lookup_delete_ne.
Qed.

Lemma handleHello_lookup env st ws ws' message :
  ws' ≠ ws →
  clients (handleHello env st ws' message).1.1 !! ws = clients st !! ws.
Proof.
  intros Hne. unfold handleHello.
  destruct (truthy (msg_clientId message)); [|done]. cbn [negb].
  destruct (unprintable _); cbn [fst clients];
    by rewrite lookup_insert_ne, cleanupClient_lookup.
Qed.

Lemma handleSnapshot_lookup env st ws ws' message :
  ws' ≠ ws →
  clients (handleSnapshot env st ws' message).1.1 !! ws = clients st !! ws.
Proof.
  intros Hne. unfold Relay.handleSnapshot.
  destruct (clients st !! ws') as [client|]; [|done].
  destruct (rateLimited env client); [done|].
  destruct (Relay.sanitizeSnapshot _ _ env message) as [[sanitized|]|];
    cbn [fst clients]; by rewrite lookup_insert_ne.
Qed.

Lemma handlePlantEvent_state env st ws message :
  (handlePlantEvent env st ws message).1.1 = st.
Proof.
  unfold Relay.handlePlantEvent. destruct (clients st !! ws); [|done].
  destruct (_ || _); [done|]. by destruct (_ ≫= _) as [[pos quat]|].
Qed.

Lemma handlePong_lastSnapshot env st ws ws' :
  lastSnapshot_of (handlePong env st ws').1.1 ws = lastSnapshot_of st ws.
Proof.
  unfold handlePong, lastSnapshot_of.
  destruct (clients st !! ws') as [client|] eqn:E; [|done].
  cbn [fst clients]. destruct (decide (ws' = ws)) as [->|Hne].
  - by rewrite lookup_insert_eq, E.
  - by rewrite lookup_insert_ne.
Qed.

Lemma handleDisconnect_lookup env st ws ws' :
  ws' ≠ ws →
  clients (handleDisconnect env st ws').1.1 !! ws = clients st !! ws.
Proof.
  intros Hne. unfold handleDisconnect.
  destruct (clients st !! ws') as [client|]; [|done].
  destruct (unprintable _); [done|].
  destruct (rooms st !! room client) as [roomClients|];
    [case_decide|]; cbn [fst clients]; by rewrite lookup_delete_ne.
Qed.

(** An event that is not a hello, a snapshot or the close of [ws]
    leaves the time of the last snapshot of [ws] as it is: the frames
    and the closes of other connections do, and so do the pongs, the
    plant events and the frames of unknown type of [ws] itself. *)
Lemma step_keeps_window env st ev ws :
  keeps_window ws ev = true →
  lastSnapshot_of (step env st ev).1 ws = lastSnapshot_of st ws.
Proof.
  destruct ev as [ws' [message|]|ws']; [| done |].
  - rewrite step_frame. cbn [fst keeps_window]. unfold Relay.handleMessage.
    destruct (is_one (msg_v message)); [|done]. cbn [negb].
    rewrite andb_true_r.
    destruct (is_string _ "hello").
    { rewrite andb_true_r, negb_true_iff, bool_decide_eq_false.
      intros Hne. unfold lastSnapshot_of. by rewrite handleHello_lookup. }
    destruct (is_string _ "snapshot").
    { rewrite andb_true_r, negb_true_iff, bool_decide_eq_false.
      intros Hne. unfold lastSnapshot_of. by rewrite handleSnapshot_lookup. }
    intros _.
    destruct (is_string _ "event:plant");
      [by rewrite handlePlantEvent_state|].
    destruct (is_string _ "pong"); [apply handlePong_lastSnapshot|done].
  - cbn [keeps_window Relay.step].
    rewrite negb_true_iff, bool_decide_eq_false. intros Hne.
    unfold lastSnapshot_of. by rewrite handleDisconnect_lookup.
Qed.

Lemma run_step st env ev trace :
  (run st ((env, ev) :: trace)).1 = (run (step env st ev).1 trace).1.
Proof.
  cbn [Relay.run]. destruct (step env st ev) as [st' sent]. cbn [fst].
  by destruct (Relay.run _ _ st' trace).
Qed.

Lemma run_keeps_window ws trace : ∀ st,
  Forall (λ e, keeps_window ws e.2 = true) trace →
  lastSnapshot_of (run st trace).1 ws = lastSnapshot_of st ws.
Proof.
  induction trace as [|[env ev] trace IH]; intros st Hall; [done|].
  apply Forall_cons in Hall as [Hev Hall].
  by rewrite run_step, IH, step_keeps_window.
Qed.

(** C1.  For a session [client] of connection [ws] and another member
    [c] of its room.  A snapshot frame that arrives less than 40ms after
    the last one let through changes nothing and sends nothing.  One that
    arrives 40ms or more after it, or is the first, is let through: the
    session is stamped with the arrival time and [c] is sent the
    snapshot once.  Of a series of frames that all arrive within 40ms of
    the first, [c] is sent exactly one snapshot; of a series in which
    each frame arrives 40ms or more after the one before, [c] is sent
    one per frame.  The window is the session's own: whatever else the
    relay handles in between (frames and closes of other connections,
    pongs and plant events of [ws]), a snapshot frame of [ws] that
    arrives less than 40ms after the last one let through is dropped.
    The snapshots that are to be broadcast carry head, lh and rh, with
    axes the sanitizer can convert to numbers; the clock does not read
    0.  A frame with an axis that cannot be converted is let through
    the limiter as well: the session is stamped, nothing is broadcast,
    and the sender is told "Invalid message format". *)
Theorem snapshot_rate_limit st ws client c :
  clients st !! ws = Some client →
  c ≠ ws → c ∈ members st (room client) →
  (∀ env last message,
     snapshot_frame message →
     lastSnapshot client = Some last → last ≠ 0 → now env - last < 40 →
     step env st (Frame ws (Some message)) = (st, []))
  ∧ (∀ env message,
       snapshot_frame message → has_poses message = true →
       Relay.poses_convert StringToNumber ArrayToString message = true →
       (∀ last, lastSnapshot client = Some last → 40 ≤ now env - last) →
       isOpen env c = true →
       (step env st (Frame ws (Some message))).1
       = stamp st ws client (now env)
       ∧ snapshots_received c (step env st (Frame ws (Some message))).2
         = 1%nat)
  ∧ (∀ env message frames,
       snapshot_frame message → has_poses message = true →
       Relay.poses_convert StringToNumber ArrayToString message = true →
       rateLimited env client = false → now env ≠ 0 →
       isOpen env c = true →
       Forall (λ f, snapshot_frame f.2 ∧ now f.1 - now env < 40) frames →
       snapshots_received c (run st (frames_of ws ((env, message) :: frames))).2
       = 1%nat)
  ∧ (∀ env message frames,
       rateLimited env client = false → every_40ms (now env) frames →
       Forall (λ f, snapshot_frame f.2 ∧ has_poses f.2 = true
                    ∧ Relay.poses_convert StringToNumber ArrayToString f.2
                      = true
                    ∧ isOpen f.1 c = true) ((env, message) :: frames) →
       snapshots_received c (run st (frames_of ws ((env, message) :: frames))).2
       = length ((env, message) :: frames))
  ∧ (∀ trace env last message,
       Forall (λ e, keeps_window ws e.2 = true) trace →
       snapshot_frame message →
       lastSnapshot client = Some last → last ≠ 0 → now env - last < 40 →
       step env (run st trace).1 (Frame ws (Some message))
       = ((run st trace).1, []))
  ∧ (∀ env message,
       snapshot_frame message → has_poses message = true →
       Relay.poses_convert StringToNumber ArrayToString message = false →
       rateLimited env client = false →
       step env st (Frame ws (Some message))
       = (stamp st ws client (now env),
          sendError env ws "Invalid message format")).
Proof.
  intros Hc Hne Hin.
  split; [|split; [|split; [|split; [|split]]]].
  - intros env last message [Hv Hty] Hl H0 Hlt.
    apply step_returned. rewrite handleMessage_snapshot by done.
    apply (handleSnapshot_dropped env st ws client); [done|].
    by apply (rateLimited_inside env client last).
  - intros env message [Hv Hty] Hp Hconv Hout Hopen.
    pose proof (rateLimited_outside env client Hout) as Hr.
    pose proof (accepted_snapshot_received env st ws client message c
                  Hc Hr Hp Hconv Hne Hin Hopen) as Hone.
    destruct (handleSnapshot_accepted env st ws client message)
      as (sanitized & _ & Heq); try done.
    rewrite Heq in Hone.
    rewrite (step_returned env st ws message _ _
               ltac:(by rewrite handleMessage_snapshot)).
    done.
  - intros env message frames [Hv Hty] Hp Hconv Hr H0 Hopen Hall.
    change (frames_of ws ((env, message) :: frames))
      with ((env, Frame ws (Some message)) :: frames_of ws frames).
    cbn [Relay.run].
    pose proof (accepted_snapshot_received env st ws client message c
                  Hc Hr Hp Hconv Hne Hin Hopen) as Hone.
    destruct (handleSnapshot_accepted env st ws client message)
      as (sanitized & _ & Heq); try done.
    rewrite Heq in Hone.
    rewrite (step_returned env st ws message _ _
               ltac:(by rewrite handleMessage_snapshot)).
    rewrite (window_drops_all ws client (now env) frames);
      [|apply lookup_stamp|done|done].
    cbn [snd]. by rewrite app_nil_r.
  - intros env message frames Hr Hsp Hall.
    by apply (spaced_all_received ws c _ st client).
  - intros trace env last message Hquiet [Hv Hty] Hl H0 Hlt.
    pose proof (run_keeps_window ws trace st Hquiet) as Hkeep.
    unfold lastSnapshot_of in Hkeep. rewrite Hc in Hkeep.
    destruct (clients (run st trace).1 !! ws) as [client'|] eqn:Hc';
      [|done].
    injection Hkeep as Hkeep.
    apply step_returned. rewrite handleMessage_snapshot by done.
    apply (handleSnapshot_dropped env _ ws client'); [done|].
    apply (rateLimited_inside env client' last); [congruence|done|done].
  - intros env message [Hv Hty] Hp Hconv Hr.
    rewrite (step_threw env st ws message (stamp st ws client (now env)) []);
      [done|].
    rewrite handleMessage_snapshot by done.
    by apply handleSnapshot_threw.
Qed.

(** C9, as amended.  A snapshot frame of a session that lacks head, lh
    or rh makes the relay send nothing, neither a broadcast nor an
    error.  If it arrives inside the 40ms window of an earlier snapshot
    it is dropped like any other and the session is left as it was.
    Otherwise the session is stamped with its arrival time, and every
    snapshot frame that arrives less than 40ms later is dropped without
    a trace. *)
Theorem malformed_snapshot_consumes_window env st ws client message :
  clients st !! ws = Some client →
  snapshot_frame message → has_poses message = false →
  (step env st (Frame ws (Some message))).2 = []
  ∧ (rateLimited env client = true →
     (step env st (Frame ws (Some message))).1 = st)
  ∧ (rateLimited env client = false → now env ≠ 0 →
     let st' := (step env st (Frame ws (Some message))).1 in
     st' = stamp st ws client (now env)
     ∧ ∀ env' message',
         snapshot_frame message' → now env' - now env < 40 →
         step env' st' (Frame ws (Some message')) = (st', [])).
Proof.
  intros Hc [Hv Hty] Hp.
  destruct (rateLimited env client) eqn:Hr.
  - rewrite (step_returned env st ws message st []); [done|].
    rewrite handleMessage_snapshot by done.
    by apply (handleSnapshot_dropped env st ws client).
  - rewrite (step_returned env st ws message
               (stamp st ws client (now env)) []).
    2:{ rewrite handleMessage_snapshot by done.
        by apply handleSnapshot_malformed. }
    repeat split; try done.
    intros env' message' [Hv' Hty'] Hlt.
    apply step_returned. rewrite handleMessage_snapshot by done.
    apply (handleSnapshot_dropped env' _ ws (stamped client (now env)));
      [apply lookup_stamp|].
    rewrite rateLimited_stamped.
    apply andb_true_intro. split; [apply negb_true_iff|]; lia.
Qed.

(** ** Sessions *)

Lemma handleDisconnect_no_empty_room env st ws client :
  clients st !! ws = Some client →
  unprintable (clientId client) = false →
  rooms (handleDisconnect env st ws).1.1 !! room client ≠ Some ∅.
Proof.
  intros Hc Hprint. unfold handleDisconnect. rewrite Hc, Hprint.
  destruct (rooms st !! room client) as [roomClients|] eqn:E.
  - case_decide as Hsize; simpl.
    + by rewrite lookup_delete_eq.
    + rewrite lookup_insert_eq. intros [= H]. rewrite H in Hsize.
      by rewrite size_empty in Hsize.
  - simpl. by rewrite E.
Qed.

(** C8, as amended.  On a connection without a session, a version-1
    snapshot or event:plant frame is answered with the error
    "Not authenticated", sent to that connection alone, and a pong frame
    is answered with nothing; in each case the relay's state is
    unchanged and all it does is this one send, so the connection stays
    open. *)
Theorem sessionless_message_reply env st ws message :
  clients st !! ws = None →
  isOpen env ws = true →
  is_one (msg_v message) = true →
  (msg_type message = Str "snapshot" ∨ msg_type message = Str "event:plant" →
   step env st (Frame ws (Some message))
   = (st, [(ws, Error "Not authenticated" (now env))]))
  ∧ (msg_type message = Str "pong" →
     step env st (Frame ws (Some message)) = (st, [])).
Proof.
  intros Hnone Hopen Hv. split.
  - intros [Ht|Ht]; apply step_returned.
    + rewrite handleMessage_snapshot by done.
      unfold Relay.handleSnapshot, sendError, send. by rewrite Hnone, Hopen.
    + rewrite handleMessage_plant by done.
      unfold Relay.handlePlantEvent, sendError, send. by rewrite Hnone, Hopen.
  - intros Ht. apply step_returned. rewrite handleMessage_pong by done.
    unfold handlePong. by rewrite Hnone.
Qed.

End Facts.

(** ** Concrete runs *)

Lemma two_in_r1_session : clients two_in_r1 !! 1%nat = Some session_a.
Proof. vm_compute. reflexivity. Qed.

Lemma two_in_r1_member : (2%nat : conn) ∈ members two_in_r1 "r1".
Proof. apply (bool_decide_unpack _). vm_compute. exact I. Qed.

Lemma snapshot_converts : poses_convert noNumber noText snapshot = true.
Proof. vm_compute. reflexivity. Qed.

(** Connection 1 sends three snapshots within 39ms, and three snapshots
    41ms apart: connection 2 is sent one, and three.  A snapshot of
    connection 1 at 1000 is followed by its pong and by a frame of
    connection 2: its snapshot at 1030 is dropped.  A snapshot with an
    axis that cannot be converted stamps the session and is answered
    with the error. *)
Lemma snapshot_rate_limit_witness :
  snapshots_received 2%nat
    (run noNumber noText two_in_r1
       (frames_of 1%nat
          [(at_ 1000, snapshot); (at_ 1010, snapshot); (at_ 1039, snapshot)])).2
  = 1%nat
  ∧ snapshots_received 2%nat
      (run noNumber noText two_in_r1
         (frames_of 1%nat
            [(at_ 1000, snapshot); (at_ 1041, snapshot);
             (at_ 1082, snapshot)])).2
    = 3%nat
  ∧ (let st := stamp two_in_r1 1%nat session_a 1000 in
     let st' :=
       (run noNumber noText st
          [(at_ 1010, Frame 1%nat (Some pong));
           (at_ 1020, Frame 2%nat (Some snapshot))]).1 in
     step noNumber noText (at_ 1030) st' (Frame 1%nat (Some snapshot))
     = (st', []))
  ∧ step noNumber noText (at_ 1000) two_in_r1
      (Frame 1%nat (Some unprintable_snapshot))
    = (stamp two_in_r1 1%nat session_a 1000,
       [(1%nat, Error "Invalid message format" 1000)]).
Proof.
  destruct (snapshot_rate_limit noNumber noText two_in_r1 1%nat session_a
              2%nat two_in_r1_session ltac:(lia) two_in_r1_member)
    as (_ & _ & Hburst & Hspaced & _ & Hthrew).
  destruct (snapshot_rate_limit noNumber noText
              (stamp two_in_r1 1%nat session_a 1000) 1%nat
              (stamped session_a 1000) 2%nat
              (lookup_stamp two_in_r1 1%nat session_a 1000) ltac:(lia)
              two_in_r1_member)
    as (_ & _ & _ & _ & Hkeeps & _).
  split; [|split; [|split]].
  - apply Hburst;
      [by split|reflexivity|apply snapshot_converts|reflexivity|simpl; lia
      |reflexivity|].
    repeat constructor; simpl; lia.
  - apply Hspaced; [reflexivity|simpl; lia|].
    repeat constructor; apply snapshot_converts.
  - apply (Hkeeps _ (at_ 1030) 1000 snapshot);
      [by repeat constructor|by split|done|lia|simpl; lia].
  - apply Hthrew; [by split|reflexivity|vm_compute; reflexivity|reflexivity].
Defined.

(** Connection 2 joins the room of connection 1: the join goes to 1, the
    acknowledgement to 2. *)
Lemma hello_join_excludes_sender_witness :
  let sent :=
    (step noNumber noText (at_ 6)
       (run noNumber noText initial
          [(at_ 5, Frame 1%nat (Some (hello "a" "r1")))]).1
       (Frame 2%nat (Some (hello "b" "r1")))).2 in
  received 1%nat sent = [Join (Str "b") 6]
  ∧ received 2%nat sent = [HelloAck (Str "b") "r1"].
Proof.
  intros sent.
  destruct (hello_join_excludes_sender noNumber noText (at_ 6)
              (run noNumber noText initial
                 [(at_ 5, Frame 1%nat (Some (hello "a" "r1")))]).1
              2%nat (hello "b" "r1") eq_refl eq_refl eq_refl eq_refl)
    as (Hothers & Hself & _).
  unfold sent. split.
  - rewrite (Hothers 1%nat) by lia. apply decide_True. split; [|done].
    apply (bool_decide_unpack _). vm_compute. exact I.
  - apply Hself.
Defined.

(** A hello whose [clientId] is an object with a property [toString]:
    the session is registered, the members of the room are not told,
    the sender gets no [hello_ack] but the error
    "Invalid message format"; a snapshot of the new member is then
    relayed to the room like any other. *)
Lemma hello_unprintable_clientId :
  let message :=
    mkMessage (Num (Fin 1)) (Str "hello") unprintable_object (Some "r1"%string)
      Undefined Undefined Undefined Undefined Undefined Undefined Undefined in
  let '(st, sent) :=
    step noNumber noText (at_ 7) two_in_r1 (Frame 3%nat (Some message)) in
  truthy (msg_clientId message) = true
  ∧ clients st !! 3%nat = Some (mkClient unprintable_object "r1" 7 None)
  ∧ (3%nat : conn) ∈ members st "r1"
  ∧ sent = [(3%nat, Error "Invalid message format" 7)]
  ∧ snapshots_received 1%nat
      (step noNumber noText (at_ 100) st (Frame 3%nat (Some snapshot))).2
    = 1%nat.
Proof.
  vm_compute step. repeat split; vm_compute; reflexivity.
Qed.

(** A malformed snapshot that arrives 30ms after an accepted one does not
    move the time stamp: a well-formed snapshot 20ms after it is
    broadcast. *)
Lemma malformed_snapshot_inside_window :
  let st := (step noNumber noText (at_ 100) two_in_r1
               (Frame 1%nat (Some snapshot))).1 in
  let st' := (step noNumber noText (at_ 130) st
                (Frame 1%nat (Some snapshot_without_rh))).1 in
  has_poses snapshot_without_rh = false
  ∧ lastSnapshot <$> clients st' !! 1%nat = Some (Some 100)
  ∧ 150 - 130 < 40
  ∧ snapshots_received 2%nat
      (step noNumber noText (at_ 150) st' (Frame 1%nat (Some snapshot))).2
    = 1%nat.
Proof. repeat split; vm_compute; reflexivity. Qed.

(** A first snapshot without [rh] at 130: nothing is sent, the session is
    stamped 130 and a well-formed snapshot at 150 is dropped. *)
Lemma malformed_snapshot_consumes_window_witness :
  let st' := (step noNumber noText (at_ 130) two_in_r1
                (Frame 1%nat (Some snapshot_without_rh))).1 in
  (step noNumber noText (at_ 130) two_in_r1
     (Frame 1%nat (Some snapshot_without_rh))).2 = []
  ∧ st' = stamp two_in_r1 1%nat session_a 130
  ∧ step noNumber noText (at_ 150) st' (Frame 1%nat (Some snapshot))
    = (st', []).
Proof.
  destruct (malformed_snapshot_consumes_window noNumber noText (at_ 130)
              two_in_r1 1%nat session_a snapshot_without_rh
              two_in_r1_session (conj eq_refl eq_refl) eq_refl)
    as (Hnone & _ & Hwin).
  destruct (Hwin eq_refl ltac:(simpl; lia)) as [Hst Hdrop].
  split; [exact Hnone|]. split; [exact Hst|].
  apply Hdrop; [split; reflexivity|simpl; lia].
Defined.

(** A pong on a connection without a session is answered with nothing. *)
Lemma pong_without_session_gets_no_error :
  clients initial !! 7%nat = None
  ∧ step noNumber noText (at_ 1000) initial (Frame 7%nat (Some pong))
    = (initial, []).
Proof. split; reflexivity. Qed.

(** A snapshot on a connection without a session is answered with the
    error. *)
Lemma sessionless_message_reply_witness :
  step noNumber noText (at_ 1000) initial
    (Frame 7%nat (Some (mkMessage (Num (Fin 1)) (Str "snapshot") Undefined None
       Undefined Undefined Undefined Undefined Undefined Undefined Undefined)))
  = (initial, [(7%nat, Error "Not authenticated" 1000)]).
Proof.
  apply (sessionless_message_reply noNumber noText (at_ 1000) initial 7%nat);
    [reflexivity|reflexivity|reflexivity|by left].
Defined.

(** Malformed axes reach the room: the plant of connection 1 with a
    position that has only [x] is sent to connection 2 with NaN for [y]
    and [z]. *)
Lemma unchecked_axes_reach_the_room :
  ∃ vx quat,
    received 2%nat
      (step noNumber noText (at_ 100) two_in_r1
         (Frame 1%nat
            (Some (mkMessage (Num (Fin 1)) (Str "event:plant") Undefined None
                     Undefined Undefined Undefined Undefined (Str "rose")
                     (Obj [("x"%string, Num (Fin 1))])
                     (Obj [("x"%string, Num (Fin 0)); ("y"%string, Num (Fin 0));
                           ("z"%string, Num (Fin 0)); ("w"%string, Num (Fin 1))]))))).2
    = [PlantMsg (Str "a") (Str "rose") (mkVector3 vx NaN NaN) quat
         (Num (of_Z 100))].
Proof. do 2 eexists. vm_compute. reflexivity. Qed.

(** C3.  The invariant that every room of the registry has a member
    fails.  When connection 1 says hello for room r1 and then for room
    r2, it is the only member of r2 and the registry, reached by these
    two frames, still holds r1 with no member at all; had the connection
    closed instead, r1 would be gone from the registry. *)
Theorem second_hello_leaves_empty_room StringToNumber ArrayToString :
  let st :=
    (run StringToNumber ArrayToString initial
       [(at_ 5, Frame 1%nat (Some (hello "a" "r1")));
        (at_ 6, Frame 1%nat (Some (hello "a" "r2")))]).1 in
  let st' :=
    (run StringToNumber ArrayToString initial
       [(at_ 5, Frame 1%nat (Some (hello "a" "r1")));
        (at_ 6, Close 1%nat)]).1 in
  reachable StringToNumber ArrayToString st
  ∧ rooms st !! "r1"%string = Some ∅
  ∧ members st "r2" = {[1%nat]}
  ∧ rooms st' !! "r1"%string = None.
Proof.
  intros st st'. split; [by eexists|]. split; [|split].
  - vm_compute. reflexivity.
  - apply set_eq. intros c. vm_compute members. set_solver.
  - vm_compute. reflexivity.
Qed.

End RelayFacts.
(** * Facts about the client transport *)

Module TransportFacts.
Import Transport.

Section Facts.

Variable Message : Type.
Variable JSON_stringify : Message → string.
Variable throws : string → bool.

Abbreviation send := (Transport.send Message JSON_stringify throws).
Abbreviation send_all := (Transport.send_all Message JSON_stringify throws).
Abbreviation flush := (Transport.flush throws).
Abbreviation flushQueue := (Transport.flushQueue throws).
Abbreviation onOpen := (Transport.onOpen throws).
Abbreviation step := (Transport.step Message JSON_stringify throws).
Abbreviation run := (Transport.run Message JSON_stringify throws).

(** ** The queue *)

Lemma queueMessage_newest t text :
  bounded t →
  messageQueue (queueMessage t text)
  = newest (maxQueueSize t) (messageQueue t ++ [text]).
Proof.
  intros [H1 Hlen]. unfold queueMessage, newest. simpl.
  rewrite length_app. simpl.
  destruct (Nat.leb_spec (maxQueueSize t) (length (messageQueue t))) as [H|H].
  - replace (length (messageQueue t) + 1 - maxQueueSize t)%nat with 1%nat
      by lia.
    destruct (messageQueue t); [simpl in *; lia|done].
  - replace (length (messageQueue t) + 1 - maxQueueSize t)%nat with 0%nat
      by lia.
    done.
Qed.

Lemma newest_length n l : (length (newest n l) ≤ n)%nat.
Proof. unfold newest. rewrite length_drop. lia. Qed.

Lemma newest_all n l : (length l ≤ n)%nat → newest n l = l.
Proof.
  intros H. unfold newest.
  by replace (length l - n)%nat with 0%nat by lia.
Qed.

Lemma newest_app n l1 l2 : newest n (newest n l1 ++ l2) = newest n (l1 ++ l2).
Proof.
  destruct (decide (length l1 ≤ n)%nat) as [Hle|Hgt].
  - by rewrite (newest_all n l1).
  - unfold newest. rewrite !length_app, length_drop.
    rewrite <- drop_app_le by lia. rewrite drop_drop. f_equal. lia.
Qed.

Lemma queueMessage_bounded t text : bounded t → bounded (queueMessage t text).
Proof.
  intros Hb. split; [apply Hb|].
  rewrite queueMessage_newest by done. apply newest_length.
Qed.

Lemma send_disconnected t message :
  isConnected t = false →
  send t message = Some (queueMessage t (JSON_stringify message), false).
Proof. intros H. unfold Transport.send. by rewrite H. Qed.

Lemma send_all_disconnected messages : ∀ t,
  isConnected t = false → bounded t →
  ∃ t', send_all t messages = Some (t', (λ _, false) <$> messages)
        ∧ isConnected t' = false ∧ ws t' = ws t
        ∧ maxQueueSize t' = maxQueueSize t
        ∧ messageQueue t'
          = newest (maxQueueSize t)
              (messageQueue t ++ (JSON_stringify <$> messages)).
Proof.
  induction messages as [|message rest IH]; intros t Hd Hb.
  - exists t. repeat split; try done. simpl. rewrite app_nil_r.
    symmetry. apply newest_all, Hb.
  - simpl. rewrite send_disconnected by done.
    destruct (IH (queueMessage t (JSON_stringify message)))
      as (t' & -> & Hd' & Hws & Hmax & Hq);
      [done|by apply queueMessage_bounded|].
    exists t'. repeat split; try done.
    rewrite Hq, queueMessage_newest by done. simpl.
    by rewrite newest_app, <- app_assoc.
Qed.

(** ** Flushing *)

(** The loop hands the queue to the socket front first and stops at the
    first text the socket refuses. *)
Lemma flush_prefix queue : ∀ sock,
  ∃ flushed rest,
    queue = flushed ++ rest
    ∧ flush (Some sock) queue
      = (Some (mkWebSocket (readyState sock) (transmitted sock ++ flushed)),
         rest)
    ∧ Forall (λ text, throws text = false) flushed
    ∧ (∀ text, head rest = Some text → throws text = true).
Proof.
  induction queue as [|text queue IH]; intros sock.
  - exists [], []. simpl. rewrite app_nil_r. by destruct sock.
  - simpl. destruct (throws text) eqn:E.
    + exists [], (text :: queue). simpl. rewrite app_nil_r.
      repeat split; try done; [by destruct sock|]. by intros ? [= <-].
    + destruct (IH (mkWebSocket (readyState sock) (transmitted sock ++ [text])))
        as (flushed & rest & -> & Hf & Hall & Hrest).
      exists (text :: flushed), rest. simpl in *.
      rewrite Hf, <- app_assoc. repeat split; try done.
      by apply Forall_cons.
Qed.

Lemma flush_all queue sock :
  Forall (λ text, throws text = false) queue →
  flush (Some sock) queue
  = (Some (mkWebSocket (readyState sock) (transmitted sock ++ queue)), []).
Proof.
  intros Hall.
  destruct (flush_prefix queue sock) as (flushed & rest & -> & -> & _ & Hrest).
  destruct rest as [|text rest]; [by rewrite app_nil_r|].
  apply Forall_app in Hall as [_ Hall]. apply Forall_cons in Hall as [H _].
  specialize (Hrest text eq_refl). congruence.
Qed.

Lemma onOpen_flushes t sock :
  ws t = Some sock →
  ∃ flushed rest,
    messageQueue t = flushed ++ rest
    ∧ messageQueue (onOpen t).1 = rest
    ∧ ws (onOpen t).1
      = Some (mkWebSocket (readyState sock) (transmitted sock ++ flushed))
    ∧ (Forall (λ text, throws text = false) (messageQueue t) → rest = []).
Proof.
  intros Hws. unfold Transport.onOpen, Transport.flushQueue. simpl.
  rewrite Hws.
  destruct (flush_prefix (messageQueue t) sock)
    as (flushed & rest & Hq & -> & _ & Hrest).
  exists flushed, rest. simpl. repeat split; try done.
  intros Hall. destruct rest as [|text rest]; [done|].
  rewrite Hq in Hall.
  apply Forall_app in Hall as [_ Hall]. apply Forall_cons in Hall as [H _].
  specialize (Hrest text eq_refl). congruence.
Qed.

(** ** The bound holds whatever happens *)

Lemma flush_length s queue : (length (flush s queue).2 ≤ length queue)%nat.
Proof.
  revert s. induction queue as [|text queue IH]; intros s; [done|].
  simpl. destruct (ws_send throws s text) as [s'|]; simpl; [|done].
  specialize (IH (Some s')). lia.
Qed.

Lemma scheduleReconnect_queue t :
  messageQueue (scheduleReconnect t).1 = messageQueue t
  ∧ maxQueueSize (scheduleReconnect t).1 = maxQueueSize t.
Proof. unfold scheduleReconnect. by destruct (_ <=? _)%nat. Qed.

Lemma step_bounded t c : bounded t → bounded (step t c).1.
Proof.
  intros Hb. pose proof Hb as [H1 Hlen].
  destruct c as [constructs| |message| |code| |parses|constructs]; simpl.
  - unfold connect. destruct (_ || _); [done|].
    destruct constructs; [done|].
    unfold bounded. by rewrite !(proj1 (scheduleReconnect_queue _)),
      !(proj2 (scheduleReconnect_queue _)).
  - unfold disconnect. destruct (reconnectTimer t); simpl;
      destruct (ws t); simpl; split; simpl; lia.
  - unfold Transport.send.
    destruct (isConnected t); [|by apply queueMessage_bounded].
    destruct (ws t) as [sock|]; [|done].
    destruct (is_OPEN sock); [|by apply queueMessage_bounded].
    destruct (ws_send _ _ _); [done|by apply queueMessage_bounded].
  - unfold Transport.onOpen, Transport.flushQueue. simpl.
    pose proof (flush_length ((λ sock, mkWebSocket OPEN (transmitted sock))
                                <$> ws t) (messageQueue t)) as Hflush.
    destruct (flush _ _) as [s queue]. simpl in *.
    split; simpl; lia.
  - unfold onClose. destruct (code =? 1000); [done|].
    pose proof (scheduleReconnect_queue
                  (with_flags (socket_becomes CLOSED t) false false))
      as [Hq Hm].
    destruct (scheduleReconnect _) as [t' effects]. simpl in *.
    unfold bounded. by rewrite Hq, Hm.
  - done.
  - done.
  - unfold onReconnectTimer, connect. simpl.
    destruct (_ || _); [done|]. destruct constructs; [done|].
    unfold bounded. by rewrite !(proj1 (scheduleReconnect_queue _)),
      !(proj2 (scheduleReconnect_queue _)).
Qed.

Lemma run_bounded calls : ∀ t, bounded t → bounded (run t calls).1.
Proof.
  induction calls as [|c calls IH]; intros t Hb; [done|].
  simpl. pose proof (step_bounded t c Hb) as Hb'.
  destruct (step t c) as [t' effects]. specialize (IH t' Hb').
  by destruct (run t' calls).
Qed.

(** C4.  On a transport that is not connected, whose queue is within
    its bound, [send] returns false for each message and appends its
    text to the queue; the queue is then the newest [maxQueueSize] texts
    of what it held followed by what was sent, oldest dropped first, and
    whatever is called afterwards it never holds more than
    [maxQueueSize].  When the socket opens, the queue is handed to it
    front first, after what it had taken before: all of it when no send
    throws, else up to the first text whose send throws, which stays in
    the queue with those behind it. *)
Theorem disconnected_send_queues_then_flushes t messages :
  bounded t → isConnected t = false →
  ∃ t',
    send_all t messages = Some (t', (λ _, false) <$> messages)
    ∧ messageQueue t'
      = newest (maxQueueSize t)
          (messageQueue t ++ (JSON_stringify <$> messages))
    ∧ (∀ calls,
         (length (messageQueue (run t' calls).1)
          ≤ maxQueueSize (run t' calls).1)%nat)
    ∧ (∀ sock, ws t' = Some sock →
       ∃ flushed rest,
         messageQueue t' = flushed ++ rest
         ∧ ws (step t' SocketOpen).1
           = Some (mkWebSocket OPEN (transmitted sock ++ flushed))
         ∧ messageQueue (step t' SocketOpen).1 = rest
         ∧ (Forall (λ text, throws text = false) (messageQueue t') →
            rest = [])).
Proof.
  intros Hb Hd.
  destruct (send_all_disconnected messages t Hd Hb)
    as (t' & Hsend & Hd' & Hws & Hmax & Hq).
  assert (Hb' : bounded t').
  { split; [rewrite Hmax; apply Hb|]. rewrite Hq, Hmax. apply newest_length. }
  exists t'. repeat split; try done.
  - intros calls. apply (run_bounded calls t' Hb').
  - intros sock Hsock. simpl.
    destruct (onOpen_flushes (socket_becomes OPEN t')
                (mkWebSocket OPEN (transmitted sock)))
      as (flushed & rest & Hfl & Hrest & Hws' & Hall).
    { unfold socket_becomes. simpl. by rewrite Hsock. }
    exists flushed, rest. done.
Qed.

End Facts.

(** ** Reconnecting *)

Lemma scheduleReconnect_below t :
  (reconnectAttempts t < maxReconnectAttempts t)%nat →
  scheduleReconnect t
  = (with_timer t (Some (backoff t (reconnectAttempts t))),
     [SetTimeout (backoff t (reconnectAttempts t))]).
Proof.
  intros H. unfold scheduleReconnect.
  destruct (Nat.leb_spec (maxReconnectAttempts t) (reconnectAttempts t));
    [lia|done].
Qed.

Lemma scheduleReconnect_reached t :
  (maxReconnectAttempts t ≤ reconnectAttempts t)%nat →
  scheduleReconnect t = (t, [Emit "maxReconnectAttemptsReached"]).
Proof.
  intros H. unfold scheduleReconnect.
  destruct (Nat.leb_spec (maxReconnectAttempts t) (reconnectAttempts t));
    [done|lia].
Qed.

Lemma delays_app e1 e2 : delays (e1 ++ e2) = delays e1 ++ delays e2.
Proof. apply omap_app. Qed.

Lemma failures_delays n : ∀ t,
  (reconnectAttempts t + n ≤ maxReconnectAttempts t)%nat →
  delays (failures n t).2 = backoff t <$> seq (reconnectAttempts t) n
  ∧ reconnectAttempts (failures n t).1 = (reconnectAttempts t + n)%nat
  ∧ maxReconnectAttempts (failures n t).1 = maxReconnectAttempts t
  ∧ Emit "maxReconnectAttemptsReached" ∉ (failures n t).2.
Proof.
  induction n as [|n IH]; intros t Hle.
  - simpl. repeat split; [lia|apply not_elem_of_nil].
  - simpl. unfold onClose. simpl.
    rewrite scheduleReconnect_below by (simpl; lia). simpl.
    unfold onReconnectTimer, connect. simpl.
    match goal with |- context [failures n ?u] =>
      destruct (IH u) as (Hd & Ha & Hm & He); [simpl; lia|];
      destruct (failures n u) as [t3 e3] end.
    simpl in *. repeat split.
    + by rewrite Hd.
    + lia.
    + done.
    + rewrite !not_elem_of_cons. done.
Qed.

(** C5.  With [k] reconnect attempts made and [k] below the maximum,
    [scheduleReconnect] sets one timer, of
    min(reconnectDelay * 2^k, maxReconnectDelay) milliseconds; with the
    maximum reached it sets none and emits
    [maxReconnectAttemptsReached].  So [n] failed attempts in a row, from
    none made, set the timers of k = 0 .. n-1 in turn, and the failure
    after the last allowed attempt sets none and emits the event; for a
    new transport (1000ms, 30000ms, 10 attempts) the delays are 1000,
    2000, 4000, 8000, 16000 and then 30000 five times. *)
Theorem reconnect_backoff t :
  ((reconnectAttempts t < maxReconnectAttempts t)%nat →
   scheduleReconnect t
   = (with_timer t (Some (Z.min (reconnectDelay t
                                 * 2 ^ Z.of_nat (reconnectAttempts t))
                                (maxReconnectDelay t))),
      [SetTimeout (Z.min (reconnectDelay t
                          * 2 ^ Z.of_nat (reconnectAttempts t))
                         (maxReconnectDelay t))]))
  ∧ ((maxReconnectAttempts t ≤ reconnectAttempts t)%nat →
     scheduleReconnect t = (t, [Emit "maxReconnectAttemptsReached"]))
  ∧ (reconnectAttempts t = 0%nat →
     (∀ n, (n ≤ maxReconnectAttempts t)%nat →
           delays (failures n t).2
           = (λ k, Z.min (reconnectDelay t * 2 ^ Z.of_nat k)
                         (maxReconnectDelay t)) <$> seq 0 n)
     ∧ (onClose 1006
          (socket_becomes CLOSED (failures (maxReconnectAttempts t) t).1)).2
       = [Emit "close"; Emit "maxReconnectAttemptsReached"])
  ∧ delays (failures 10 (connect true constructor).1).2
    = [1000; 2000; 4000; 8000; 16000; 30000; 30000; 30000; 30000; 30000].
Proof.
  split; [apply scheduleReconnect_below|].
  split; [apply scheduleReconnect_reached|].
  split; [|reflexivity].
  intros H0. split.
  - intros n Hn. destruct (failures_delays n t) as (Hd & _); [lia|].
    by rewrite Hd, H0.
  - destruct (failures_delays (maxReconnectAttempts t) t)
      as (_ & Ha & Hm & _); [lia|].
    unfold onClose. simpl.
    rewrite scheduleReconnect_reached; [done|]. simpl. lia.
Qed.

(** A new transport: the sixth delay is capped at 30000, the eleventh
    failure is final, and the first three delays double. *)
Lemma reconnect_backoff_witness :
  scheduleReconnect (with_attempts constructor 5)
  = (with_timer (with_attempts constructor 5) (Some 30000),
     [SetTimeout 30000])
  ∧ scheduleReconnect (with_attempts constructor 10)
    = (with_attempts constructor 10, [Emit "maxReconnectAttemptsReached"])
  ∧ delays (failures 3 constructor).2 = [1000; 2000; 4000].
Proof.
  split; [|split].
  - apply (reconnect_backoff (with_attempts constructor 5)). simpl. lia.
  - apply (reconnect_backoff (with_attempts constructor 10)). simpl. lia.
  - apply (reconnect_backoff constructor); [reflexivity|simpl; lia].
Defined.

(** Three messages sent while connecting to a transport whose queue
    holds two. *)
Lemma disconnected_send_queues_then_flushes_witness :
  let t :=
    mkTransport (Some (mkWebSocket CONNECTING [])) true false 0 10 1000 30000
      [] 2 None in
  ∃ t',
    Transport.send_all string id (λ _, false) t ["a"; "b"; "c"]%string
    = Some (t', [false; false; false])
    ∧ messageQueue t' = ["b"; "c"]%string
    ∧ ws (Transport.step string id (λ _, false) t' SocketOpen).1
      = Some (mkWebSocket OPEN ["b"; "c"]%string)
    ∧ messageQueue (Transport.step string id (λ _, false) t' SocketOpen).1
      = [].
Proof.
  intros t.
  destruct (disconnected_send_queues_then_flushes string id (λ _, false) t
              ["a"; "b"; "c"]%string)
    as (t' & Hsend & Hq & _ & Hflush).
  { split; simpl; lia. }
  { reflexivity. }
  exists t'. split; [exact Hsend|]. split; [exact Hq|].
  assert (Hws : ws t' = Some (mkWebSocket CONNECTING [])).
  { simpl in Hsend. by injection Hsend as <-. }
  destruct (Hflush _ Hws) as (flushed & rest & Hsplit & Hws' & Hq' & Hall).
  assert (rest = []) as ->.
  { apply Hall. rewrite Hq. by repeat constructor. }
  rewrite app_nil_r in Hsplit. subst flushed.
  rewrite Hws', Hq', Hq. done.
Defined.

End TransportFacts.
(** * Facts about the sync coordinator *)

Module SyncFacts.
Import JS Sync.

Lemma SameValueZero_string k s :
  SameValueZero k (Str s) = true → is_string k s = true.
Proof. destruct k as [| | |[]| | |]; simpl; done. Qed.

Lemma Map_get_foreign (m : PlayerMap) self :
  (∀ k e, (k, e) ∈ m → is_string k self = false) →
  Map_get m (Str self) = None.
Proof.
  intros H. unfold Map_get.
  destruct (List.find _ m) as [[k e]|] eqn:E; [|done].
  apply find_some in E as [Hin Hk]. simpl in Hk.
  apply SameValueZero_string in Hk.
  apply list_elem_of_In in Hin. apply H in Hin. congruence.
Qed.

Lemma elem_of_Map_set (m : PlayerMap) k v k' v' :
  (k', v') ∈ Map_set m k v → (k' = k ∧ v' = v) ∨ ∃ u, (k', u) ∈ m.
Proof.
  induction m as [|[k0 v0] m IH]; simpl.
  - rewrite list_elem_of_singleton. intros [= -> ->]. by left.
  - destruct (SameValueZero k0 k).
    + rewrite elem_of_cons. intros [[= -> ->]|Hin]; right.
      * exists v0. left.
      * exists v'. by right.
    + rewrite elem_of_cons. intros [[= -> ->]|Hin].
      * right. exists v0. left.
      * destruct (IH Hin) as [?|[u Hu]]; [by left|].
        right. exists u. by right.
Qed.

Lemma elem_of_Map_delete (m : PlayerMap) k kv :
  kv ∈ Map_delete m k → kv ∈ m.
Proof.
  unfold Map_delete. rewrite !list_elem_of_In, filter_In. tauto.
Qed.

(** ** The world keeps foreign avatars foreign *)

Lemma createEntity_avatars self w :
  foreign_avatars self w → foreign_avatars self (createEntity w).1.
Proof.
  intros H ent e np. simpl. rewrite lookup_insert.
  case_decide; [|apply H]. intros [= <-]. by rewrite elem_of_nil.
Qed.

Lemma addComponent_avatars self w ent d :
  foreign_avatars self w →
  (∀ np, d = NetworkedPlayerData np → is_string (np_clientId np) self = false) →
  foreign_avatars self (addComponent w ent d).
Proof.
  intros H Hd ent' e' np. unfold addComponent.
  destruct (entityList w !! ent) as [e|] eqn:E; [|apply H].
  destruct (hasComponent e (type_of d)); [apply H|]. simpl.
  rewrite lookup_insert. case_decide as Heq; [|apply H].
  intros [= <-]. rewrite elem_of_app, list_elem_of_singleton.
  intros [Hin|Heq']; [by apply (H ent e)|]. by apply Hd.
Qed.

Lemma remove_avatars self w ent :
  foreign_avatars self w → foreign_avatars self (remove w ent).
Proof.
  intros H ent' e np. simpl. rewrite lookup_delete.
  case_decide; [done|apply H].
Qed.

Lemma clearEvents_avatars self w :
  foreign_avatars self w → foreign_avatars self (clearEvents w).
Proof. done. Qed.

Lemma updateTargets_clientId now snapshot c :
  np_clientId (updateTargets now snapshot c) = np_clientId c.
Proof.
  unfold updateTargets.
  destruct (setTarget _ _) as [[hp hq] []]; [done|].
  destruct (setTarget _ _) as [[lp lq] []]; [done|].
  by destruct (setTarget _ _) as [[rp rq] []].
Qed.

Lemma updateRemotePlayerTransform_avatars self now w ent snapshot :
  foreign_avatars self w →
  foreign_avatars self (updateRemotePlayerTransform now w ent snapshot).
Proof.
  intros H ent' e' np. unfold updateRemotePlayerTransform.
  destruct (entityList w !! ent) as [e|] eqn:E; [|apply H]. simpl.
  rewrite lookup_insert. case_decide as Heq; [|apply H].
  intros [= <-]. rewrite list_elem_of_fmap. intros (d & Hd & Hin).
  destruct d as [| | |c|]; try done.
  injection Hd as ->. rewrite updateTargets_clientId. by apply (H ent e).
Qed.

Lemma foldl_remove_avatars self ents : ∀ w,
  foreign_avatars self w → foreign_avatars self (foldl remove w ents).
Proof.
  induction ents as [|ent ents IH]; intros w H; [done|].
  simpl. by apply IH, remove_avatars.
Qed.

(** ** The system keeps both *)

Section Facts.

Variable getOnlyEntity : list nat → Only.

Abbreviation findScene := (Sync.findScene getOnlyEntity).
Abbreviation createRemotePlayer := (Sync.createRemotePlayer getOnlyEntity).
Abbreviation handleMessage := (Sync.handleMessage getOnlyEntity).
Abbreviation step := (Sync.step getOnlyEntity).
Abbreviation run := (Sync.run getOnlyEntity).

Lemma findScene_same s s' :
  findScene s = Some s' →
  clientId s' = clientId s ∧ remotePlayers s' = remotePlayers s
  ∧ world s' = world s.
Proof.
  unfold Sync.findScene. destruct (scene s); [by intros [= <-]|].
  destruct (getOnlyEntity _); try done. by intros [= <-].
Qed.

Lemma findScene_inv s s' : inv s → findScene s = Some s' → inv s'.
Proof.
  intros [Hk Ha] H. apply findScene_same in H as (Hc & Hr & Hw).
  unfold inv, foreign_keys. by rewrite Hc, Hr, Hw.
Qed.

Lemma createRemotePlayer_inv s cid s' ent :
  inv s → is_string cid (clientId s) = false →
  createRemotePlayer s cid = Some (s', ent) →
  inv s' ∧ clientId s' = clientId s.
Proof.
  intros Hinv Hcid. unfold Sync.createRemotePlayer.
  destruct (findScene s) as [s0|] eqn:E; [|done].
  pose proof (findScene_inv s s0 Hinv E) as [Hk Ha].
  apply findScene_same in E as (Hc & _ & _).
  intros [= <- <-]. simpl. split; [|done]. split.
  - intros k e. simpl. intros Hin.
    apply elem_of_Map_set in Hin as [[-> _]|[u Hu]]; [by rewrite Hc|].
    by apply (Hk k u).
  - simpl. apply addComponent_avatars.
    + by apply (createEntity_avatars _ (world s0)).
    + intros np [= <-]. simpl. by rewrite Hc.
Qed.

Lemma removeRemotePlayer_inv s cid : inv s → inv (removeRemotePlayer s cid).
Proof.
  intros [Hk Ha]. unfold removeRemotePlayer.
  destruct (Map_get _ _) as [ent|]; [|done]. split.
  - intros k e. simpl. intros Hin. apply elem_of_Map_delete in Hin.
    by apply (Hk k e).
  - simpl. by apply remove_avatars.
Qed.

Lemma handleMessage_inv now s message :
  inv s →
  inv (handleMessage now s message)
  ∧ clientId (handleMessage now s message) = clientId s.
Proof.
  intros Hinv. unfold Sync.handleMessage.
  destruct (nullish message); [done|].
  destruct (is_string _ "join").
  { unfold Sync.handlePlayerJoin.
    destruct (is_string _ (clientId s)) eqn:E; [done|].
    destruct (Map_get _ _); [done|].
    destruct (createRemotePlayer s _) as [[s' ent]|] eqn:Ec; [|done].
    by apply (createRemotePlayer_inv s (get message "clientId") s' ent). }
  destruct (is_string _ "leave").
  { unfold handlePlayerLeave.
    destruct (is_string _ (clientId s)) eqn:E; [done|].
    split; [by apply removeRemotePlayer_inv|].
    unfold removeRemotePlayer. by destruct (Map_get _ _). }
  destruct (is_string _ "snapshot").
  { unfold Sync.handleSnapshot.
    destruct (is_string _ (clientId s)) eqn:E; [done|].
    destruct (Map_get _ _) as [ent|].
    - destruct Hinv as [Hk Ha]. split; [|done]. split; [done|].
      simpl. by apply updateRemotePlayerTransform_avatars.
    - destruct (createRemotePlayer s _) as [[s' ent]|] eqn:Ec; [|done].
      destruct (createRemotePlayer_inv s _ s' ent Hinv E Ec) as [[Hk Ha] Hc].
      split; [|done]. split; [done|]. simpl.
      by apply updateRemotePlayerTransform_avatars. }
  destruct (is_string _ "event:plant"); [|done].
  unfold Sync.handleRemotePlantEvent.
  destruct (is_string _ (clientId s)) eqn:E; [done|].
  destruct (findScene s) as [s0|] eqn:Es; [|done].
  pose proof (findScene_inv s s0 Hinv Es) as [Hk Ha].
  apply findScene_same in Es as (Hc & _ & _).
  destruct (_ || _); [done|].
  split; [|done]. split; [done|]. simpl.
  repeat apply addComponent_avatars; try done.
  by apply (createEntity_avatars _ (world s0)).
Qed.

Lemma step_inv s ev :
  inv s → inv (step s ev).1 ∧ clientId (step s ev).1 = clientId s.
Proof.
  intros Hinv. destruct ev as [now message|env time|]; simpl.
  - by apply handleMessage_inv.
  - unfold Sync.frame, Sync.execute, Sync.publishSnapshot.
    destruct (negb (isConnected env)); [done|].
    destruct (Qle_bool _ _).
    + destruct (match localPlayerEntity s with
                | Some entity => Found entity
                | None => getOnlyEntity (results (world s) "localPlayer")
                end) as [| |entity]; [done| |].
      * simpl. by destruct (match query (world s) "newlyPlanted" with
                            | Some {| added := Some ents |} =>
                                broadcastPlanted env (world s) ents
                            | _ => ([], false)
                            end) as [planted []].
      * simpl. destruct (entityList (world s) !! entity) as [e|]; simpl.
        -- destruct (hasComponent e PlayerStateComponent); simpl.
           ++ destruct (localPose env) as [[[head lh] rh]|]; simpl;
                by destruct (match query (world s) "newlyPlanted" with
                             | Some {| added := Some ents |} =>
                                 broadcastPlanted env (world s) ents
                             | _ => ([], false)
                             end) as [planted []].
           ++ by destruct (match query (world s) "newlyPlanted" with
                           | Some {| added := Some ents |} =>
                               broadcastPlanted env (world s) ents
                           | _ => ([], false)
                           end) as [planted []].
        -- by destruct (match query (world s) "newlyPlanted" with
                        | Some {| added := Some ents |} =>
                            broadcastPlanted env (world s) ents
                        | _ => ([], false)
                        end) as [planted []].
    + simpl. by destruct (match query (world s) "newlyPlanted" with
                          | Some {| added := Some ents |} =>
                              broadcastPlanted env (world s) ents
                          | _ => ([], false)
                          end) as [planted []].
  - destruct Hinv as [Hk Ha]. split; [|done]. split.
    + intros k e. simpl. by rewrite elem_of_nil.
    + simpl. by apply foldl_remove_avatars.
Qed.

Lemma run_inv trace : ∀ s,
  inv s → inv (run s trace).1 ∧ clientId (run s trace).1 = clientId s.
Proof.
  induction trace as [|ev trace IH]; intros s Hinv; [done|].
  simpl. destruct (step_inv s ev Hinv) as [Hinv' Hc].
  destruct (step s ev) as [s' sent]. simpl in *.
  destruct (IH s' Hinv') as [Hinv'' Hc'].
  destruct (run s' trace) as [s'' sent']. simpl in *.
  split; [done|congruence].
Qed.

Lemma handleMessage_own now s message :
  is_string (get message "clientId") (clientId s) = true →
  handleMessage now s message = s.
Proof.
  intros H. unfold Sync.handleMessage, Sync.handlePlayerJoin,
    handlePlayerLeave, Sync.handleSnapshot, Sync.handleRemotePlantEvent.
  rewrite H.
  destruct (nullish message); [done|].
  destruct (is_string _ "join"); [done|].
  destruct (is_string _ "leave"); [done|].
  destruct (is_string _ "snapshot"); [done|].
  by destruct (is_string _ "event:plant").
Qed.

(** C10.  An inbound message whose [clientId] is the system's own is
    ignored: the system is unchanged and nothing is sent.  So in every
    state the system reaches from [init], whatever arrives, the
    remote-player map has no entry under the local [clientId], none of
    its keys is the local [clientId], and no entity is a remote avatar
    for it, provided the world it starts in has none. *)
Theorem own_clientId_ignored self room w :
  foreign_avatars self w →
  (∀ now s message,
     is_string (get message "clientId") (clientId s) = true →
     step s (Inbound now message) = (s, []))
  ∧ (∀ trace,
       let s := (run (init self room w) trace).1 in
       clientId s = self
       ∧ Map_get (remotePlayers s) (Str self) = None
       ∧ (∀ k e, (k, e) ∈ remotePlayers s → is_string k self = false)
       ∧ (∀ ent e np,
            entityList (world s) !! ent = Some e →
            NetworkedPlayerData np ∈ e →
            is_string (np_clientId np) self = false)).
Proof.
  intros Hw. split.
  - intros now s message H. simpl. by rewrite handleMessage_own.
  - intros trace s.
    destruct (run_inv trace (init self room w)) as [[Hk Ha] Hc].
    { split; [intros k e; simpl; by rewrite elem_of_nil|done]. }
    fold s in Hk, Ha, Hc. simpl in Hc. rewrite Hc in Ha.
    assert (Hk' : ∀ k e, (k, e) ∈ remotePlayers s → is_string k self = false).
    { intros k e Hin. specialize (Hk k e Hin). by rewrite Hc in Hk. }
    repeat split; try done. by apply Map_get_foreign.
Qed.

(** ** Replicated plants *)

Lemma filter_other (next : nat) (es : list nat) :
  next ∉ es → filter (λ i, i ≠ next) es = es.
Proof.
  induction es as [|i es IH]; [done|].
  rewrite not_elem_of_cons. intros [Hne Hnotin].
  rewrite filter_cons_True by done. by rewrite IH.
Qed.

Lemma query_updated ents next (qs : list (string * Query)) f name :
  query (mkWorld ents next (prod_map id f <$> qs)) name
  = f <$> query (mkWorld ents next qs) name.
Proof.
  unfold query. simpl. induction qs as [|[n q] qs IH]; [done|].
  simpl. by destruct (String.eqb n name).
Qed.

(** In any state in which the scene can be had, the entity made for a
    plant of another client enters the [added] list of [newlyPlanted]
    with its second component, and is still there once it carries the
    [Networked] tag. *)
Lemma remote_plant_enters_added s s0 message q l :
  is_string (get message "clientId") (clientId s) = false →
  findScene s = Some s0 →
  nullish (get message "pos") = false →
  nullish (get message "quat") = false →
  query (world s) "newlyPlanted" = Some q →
  Components q = [PlantGrowingComponent; Object3DComponent] →
  NotComponents q = [Networked] →
  added q = Some l →
  nextId (world s) ∉ entities q →
  let s' := Sync.handleRemotePlantEvent getOnlyEntity s message in
  ∃ q', query (world s') "newlyPlanted" = Some q'
        ∧ entities q' = entities q
        ∧ ∃ l', added q' = Some l' ∧ nextId (world s) ∈ l'.
Proof.
  intros Hcid Hscene Hpos Hquat Hq HC HN Hadded Hfresh.
  unfold Sync.handleRemotePlantEvent. rewrite Hcid, Hscene, Hpos, Hquat.
  apply findScene_same in Hscene as (_ & _ & Hw). rewrite Hw.
  destruct (world s) as [ents next qs]. simpl in *.
  unfold addComponent. simpl. rewrite lookup_insert_eq. simpl.
  rewrite lookup_insert_eq. simpl. rewrite lookup_insert_eq. simpl.
  rewrite !query_updated. unfold query in *. simpl in *. rewrite Hq. simpl.
  destruct q as [C N es a]. simpl in *. subst C N a.
  unfold onEntityComponentAdded at 3. simpl.
  unfold onEntityComponentAdded at 2. simpl.
  rewrite (bool_decide_false (next ∈ es)) by done. simpl.
  unfold onEntityComponentAdded. simpl.
  rewrite (bool_decide_true (next ∈ es ++ [next])) by set_solver. simpl.
  eexists. split; [reflexivity|]. simpl. split.
  - rewrite filter_app. simpl.
    rewrite filter_cons_False by naive_solver.
    rewrite filter_nil, app_nil_r. by apply filter_other.
  - case_bool_decide; eexists; (split; [reflexivity|]); set_solver.
Qed.

End Facts.

Lemma stage_foreign self : foreign_avatars self stage.
Proof.
  assert (entityList stage
          = <[0%nat := [OtherData THREEGlobalComponent]]> ∅) as Hstage
    by (vm_compute; reflexivity).
  intros ent e np. rewrite Hstage, lookup_insert.
  case_decide; [|by rewrite lookup_empty].
  intros [= <-]. by rewrite list_elem_of_singleton.
Qed.

(** A join that bears the local identifier changes nothing, and the map
    has no entry for it after a join of client b and one of its own. *)
Lemma own_clientId_ignored_witness :
  Sync.step theOnly (init "me" "default" stage)
    (Inbound 100
       (Obj [("type"%string, Str "join"); ("clientId"%string, Str "me")]))
  = (init "me" "default" stage, [])
  ∧ Map_get
      (remotePlayers
         (Sync.run theOnly (init "me" "default" stage)
            [Inbound 100
               (Obj [("type"%string, Str "join");
                     ("clientId"%string, Str "b")]);
             Inbound 101
               (Obj [("type"%string, Str "join");
                     ("clientId"%string, Str "me")])]).1)
      (Str "me")
    = None.
Proof.
  destruct (own_clientId_ignored theOnly "me" "default" stage
              (stage_foreign "me")) as [Hown Hrun].
  split.
  - apply Hown. reflexivity.
  - apply (Hrun [Inbound 100 _; Inbound 101 _]).
Defined.

(** C7.  The plant made for an [event:plant] of client b is sent back.
    [handleRemotePlantEvent] adds [Networked] last, so the entity is in
    the [added] list of [newlyPlanted] by the time the tag arrives, and
    the next frame hands [transport.send] an [event:plant] with the very
    type, position and rotation that were received.  The world holds the
    scene in entity 0; the plant is entity 1. *)
Theorem remote_plant_is_sent_back :
  let pos := Obj [("x"%string, Num (Fin 1)); ("y"%string, Num (Fin 0));
                  ("z"%string, Num (Fin 2))] in
  let quat := Obj [("x"%string, Num (Fin 0)); ("y"%string, Num (Fin 0));
                   ("z"%string, Num (Fin 0)); ("w"%string, Num (Fin 1))] in
  let s := Sync.handleMessage theOnly 100 (init "me" "default" stage)
             (plantEvent "b" (Str "rose") pos quat) in
  entityList (world s) !! 1%nat
  = Some [Object3DData
            (mkVector3 (Num (Fin 1)) (Num (Fin 0)) (Num (Fin 2)))
            (mkQuaternion (Num (Fin 0)) (Num (Fin 0)) (Num (Fin 0))
               (Num (Fin 1)));
          PlantGrowingData (Str "rose"); NetworkedData]
  ∧ (added <$> query (world s) "newlyPlanted") = Some (Some [1%nat])
  ∧ (Sync.frame theOnly (mkEnv true 200 None) 16 s).2
    = [PlantOut (Str "rose")
         (mkVector3 (Num (Fin 1)) (Num (Fin 0)) (Num (Fin 2)))
         (mkQuaternion (Num (Fin 0)) (Num (Fin 0)) (Num (Fin 0))
            (Num (Fin 1)))
         200].
Proof. repeat split; vm_compute; reflexivity. Qed.

End SyncFacts.
(** * Facts about the rounding to doubles *)

Module RoundingFacts.
Import JS Relay.

(** ** The nearest integer *)

Lemma nearest_even_bounds n d :
  0 < d → n / d ≤ nearest_even n d ≤ n / d + 1.
Proof.
  intros Hd. unfold nearest_even.
  destruct (2 * (n mod d) ?= d); [destruct (Z.even (n / d))| |]; lia.
Qed.

(** No further than one half from the quotient. *)
Lemma nearest_even_near n d :
  0 < d → 2 * Z.abs (nearest_even n d * d - n) ≤ d.
Proof.
  intros Hd. unfold nearest_even.
  pose proof (Z.div_mod n d ltac:(lia)) as Hdm.
  pose proof (Z.mod_pos_bound n d Hd) as Hm.
  destruct (Z.compare_spec (2 * (n mod d)) d);
    [destruct (Z.even (n / d))| |]; nia.
Qed.

(** Monotone at the integers. *)
Lemma nearest_even_ge n d N : 0 < d → N * d ≤ n → N ≤ nearest_even n d.
Proof.
  intros Hd HN. pose proof (nearest_even_bounds n d Hd).
  assert (N ≤ n / d) by (apply Z.div_le_lower_bound; lia). lia.
Qed.

Lemma nearest_even_le n d N : 0 < d → n ≤ N * d → nearest_even n d ≤ N.
Proof.
  intros Hd HN. unfold nearest_even.
  pose proof (Z.div_mod n d ltac:(lia)) as Hdm.
  pose proof (Z.mod_pos_bound n d Hd) as Hm.
  assert (n / d ≤ N) by (apply Z.div_le_upper_bound; lia).
  destruct (Z.compare_spec (2 * (n mod d)) d);
    [destruct (Z.even (n / d))| |]; nia.
Qed.

(** ** Scaling by a power of two *)

Lemma scaled_nonneg n d e :
  0 ≤ e → scaled n d e = (n, d * 2 ^ e).
Proof. intros He. unfold scaled. by rewrite (proj2 (Z.leb_le 0 e)). Qed.

Lemma scaled_neg n d e :
  e < 0 → scaled n d e = (n * 2 ^ (- e), d).
Proof. intros He. unfold scaled. by rewrite (proj2 (Z.leb_gt 0 e)). Qed.

(** The binary logarithm is not too large: [2 ^ floor_log2 n d <= n / d]. *)
Lemma floor_log2_lower n d :
  0 < n → 0 < d →
  let '(a, b) := scaled n d (floor_log2 n d) in b ≤ a.
Proof.
  intros Hn Hd. unfold floor_log2.
  set (l := Z.log2 n - Z.log2 d).
  destruct (scaled n d l) as [n' d'] eqn:E.
  destruct (Z.ltb_spec n' d') as [Hlt|Hge]; [|by rewrite E].
  destruct (Z.log2_spec n Hn) as [Hn1 Hn2].
  destruct (Z.log2_spec d Hd) as [Hd1 Hd2].
  pose proof (Z.log2_nonneg n). pose proof (Z.log2_nonneg d).
  destruct (Z.le_gt_cases 0 (l - 1)) as [Hl|Hl].
  - rewrite scaled_nonneg by done.
    assert (2 ^ Z.log2 n = 2 ^ (l - 1) * 2 ^ Z.succ (Z.log2 d)) as Hpow.
    { rewrite <- Z.pow_add_r by lia. f_equal. lia. }
    assert (0 < 2 ^ (l - 1)) by (apply Z.pow_pos_nonneg; lia).
    nia.
  - rewrite scaled_neg by done.
    assert (2 ^ Z.succ (Z.log2 d) = 2 ^ Z.log2 n * 2 ^ (- (l - 1))) as Hpow.
    { rewrite <- Z.pow_add_r by lia. f_equal. lia. }
    assert (0 < 2 ^ (- (l - 1))) by (apply Z.pow_pos_nonneg; lia).
    nia.
Qed.

(** A quotient below [2 ^ K] has a logarithm below [K]. *)
Lemma floor_log2_upper n d K :
  0 < n → 0 < d → 0 ≤ K → n < d * 2 ^ K → floor_log2 n d < K.
Proof.
  intros Hn Hd HK Hlt. pose proof (floor_log2_lower n d Hn Hd) as Hlow.
  destruct (Z.lt_ge_cases (floor_log2 n d) K) as [|Hge]; [done|].
  rewrite scaled_nonneg in Hlow by lia.
  assert (2 ^ K ≤ 2 ^ floor_log2 n d) by (apply Z.pow_le_mono_r; lia).
  nia.
Qed.

Lemma exponent_cases n d :
  (exponent n d = floor_log2 n d - 52 ∧ -1074 ≤ exponent n d)
  ∨ (exponent n d = -1074 ∧ floor_log2 n d - 52 ≤ -1074).
Proof. unfold exponent. lia. Qed.

(** ** The mantissa *)

Lemma significand_nonneg n d : 0 ≤ n → 0 < d → 0 ≤ significand n d.
Proof.
  intros Hn Hd. unfold significand.
  destruct (Z.le_gt_cases 0 (exponent n d)) as [He|He].
  - rewrite scaled_nonneg by done.
    assert (0 < 2 ^ exponent n d) by (apply Z.pow_pos_nonneg; lia).
    apply nearest_even_ge; nia.
  - rewrite scaled_neg by done.
    assert (0 < 2 ^ (- exponent n d)) by (apply Z.pow_pos_nonneg; lia).
    apply nearest_even_ge; nia.
Qed.

(** ** The value of a mantissa and an exponent *)

Lemma dyadic_nonneg_exponent m e : 0 ≤ e → dyadic m e = inject_Z (m * 2 ^ e).
Proof. intros He. unfold dyadic. by rewrite (proj2 (Z.leb_le 0 e)). Qed.

Lemma dyadic_neg_exponent m e :
  e < 0 → dyadic m e = m # Z.to_pos (2 ^ (- e)).
Proof. intros He. unfold dyadic. by rewrite (proj2 (Z.leb_gt 0 e)). Qed.

Lemma pow2_pos e : 0 ≤ e → Z.pos (Z.to_pos (2 ^ e)) = 2 ^ e.
Proof. intros He. apply Z2Pos.id, Z.pow_pos_nonneg; lia. Qed.

Section Core.

(** A positive fraction [n / p], its exponent and its mantissa. *)
Variables (n : Z) (p : positive).
Hypothesis n_positive : 0 < n.

Abbreviation ex := (exponent n (Z.pos p)).
Abbreviation sig := (significand n (Z.pos p)).

Lemma core_nonneg : (0 <= dyadic sig ex)%Q.
Proof.
  pose proof (significand_nonneg n (Z.pos p) ltac:(lia) ltac:(lia)) as Hm.
  destruct (Z.le_gt_cases 0 ex) as [He|He].
  - rewrite dyadic_nonneg_exponent by done.
    assert (0 < 2 ^ ex) by (apply Z.pow_pos_nonneg; lia).
    change 0%Q with (inject_Z 0). rewrite <- Zle_Qle. nia.
  - rewrite dyadic_neg_exponent by done. unfold Qle. simpl. lia.
Qed.

(** Below an integer [c] that is a double, the fraction has a double
    that is not above [c]. *)
Lemma core_le c :
  0 < c < 2 ^ 53 → n ≤ c * Z.pos p →
  ex ≤ 0 ∧ (dyadic sig ex <= inject_Z c)%Q.
Proof.
  intros Hc Hn.
  assert (ex ≤ 0) as He.
  { assert (floor_log2 n (Z.pos p) < 53).
    { apply floor_log2_upper; try lia.
      change (2 ^ 53) with 9007199254740992 in *. nia. }
    destruct (exponent_cases n (Z.pos p)) as [[H1 _]|[H1 _]];
      lia. }
  split; [done|]. unfold significand.
  destruct (Z.le_gt_cases 0 ex) as [He0|He0].
  - assert (ex = 0) as -> by lia. rewrite scaled_nonneg by done.
    rewrite dyadic_nonneg_exponent by done. rewrite <- Zle_Qle.
    change (2 ^ 0) with 1. rewrite !Z.mul_1_r.
    apply nearest_even_le; lia.
  - rewrite scaled_neg by done. rewrite dyadic_neg_exponent by done.
    assert (0 < 2 ^ (- ex)) by (apply Z.pow_pos_nonneg; lia).
    unfold Qle. cbn [Qnum Qden inject_Z]. rewrite pow2_pos by lia.
    rewrite Z.mul_1_r. apply nearest_even_le; [lia|nia].
Qed.

(** Above it, one that is not below. *)
Lemma core_ge c :
  0 < c < 2 ^ 53 → c * Z.pos p ≤ n → (inject_Z c <= dyadic sig ex)%Q.
Proof.
  intros Hc Hn. unfold significand.
  destruct (Z.le_gt_cases ex 0) as [He|He].
  - destruct (Z.le_gt_cases 0 ex) as [He0|He0].
    + assert (ex = 0) as -> by lia. rewrite scaled_nonneg by done.
      rewrite dyadic_nonneg_exponent by done. rewrite <- Zle_Qle.
      change (2 ^ 0) with 1. rewrite !Z.mul_1_r.
      apply nearest_even_ge; lia.
    + rewrite scaled_neg by done. rewrite dyadic_neg_exponent by done.
      assert (0 < 2 ^ (- ex)) by (apply Z.pow_pos_nonneg; lia).
      unfold Qle. cbn [Qnum Qden inject_Z]. rewrite pow2_pos by lia.
      rewrite Z.mul_1_r. apply nearest_even_ge; [lia|nia].
  - assert (ex = floor_log2 n (Z.pos p) - 52) as Hfl.
    { destruct (exponent_cases n (Z.pos p)) as [[H1 _]|[H1 _]];
        lia. }
    pose proof (floor_log2_lower n (Z.pos p) n_positive ltac:(lia)) as Hlow.
    rewrite scaled_nonneg in Hlow by lia.
    assert (2 ^ floor_log2 n (Z.pos p) = 2 ^ 52 * 2 ^ ex) as Hpow.
    { rewrite <- Z.pow_add_r by lia. f_equal. lia. }
    assert (2 ^ 1 ≤ 2 ^ ex) by (apply Z.pow_le_mono_r; lia).
    rewrite scaled_nonneg by lia. rewrite dyadic_nonneg_exponent by lia.
    rewrite <- Zle_Qle.
    assert (2 ^ 52 ≤ nearest_even n (Z.pos p * 2 ^ ex))
      by (apply nearest_even_ge; nia).
    change (2 ^ 1) with 2 in *. nia.
Qed.

(** A fraction of no more than [2 ^ 20] is within [2 ^ -33] of its
    double. *)
Lemma core_near :
  n ≤ Z.pos p * 2 ^ 20 →
  ex < 0
  ∧ (dyadic sig ex - (n # p) <= 1 # 8589934592)%Q
  ∧ ((n # p) - dyadic sig ex <= 1 # 8589934592)%Q.
Proof.
  intros Hn.
  assert (ex ≤ -32) as He.
  { assert (floor_log2 n (Z.pos p) < 21)
      by (apply floor_log2_upper; lia).
    destruct (exponent_cases n (Z.pos p)) as [[H1 _]|[H1 _]];
      lia. }
  split; [lia|]. unfold significand.
  rewrite scaled_neg by lia. rewrite dyadic_neg_exponent by lia.
  assert (2 ^ 32 ≤ 2 ^ (- ex)) as HP by (apply Z.pow_le_mono_r; lia).
  pose proof (nearest_even_near (n * 2 ^ (- ex)) (Z.pos p) ltac:(lia)) as Hm.
  set (k := nearest_even (n * 2 ^ (- ex)) (Z.pos p)) in *.
  unfold Qle, Qminus, Qplus, Qopp. cbn [Qnum Qden].
  rewrite !Pos2Z.inj_mul, !pow2_pos by lia.
  set (P := 2 ^ (- ex)) in *. change (2 ^ 32) with 4294967296 in HP.
  split; nia.
Qed.

End Core.

(** ** The double of a rational *)

Lemma overflow_test e m :
  e ≤ 0 → (971 <? e) || ((e =? 971) && (2 ^ 53 <=? m)) = false.
Proof.
  intros He. rewrite (proj2 (Z.ltb_ge 971 e)) by lia.
  by rewrite (proj2 (Z.eqb_neq e 971)) by lia.
Qed.

(** A rational of no more than [2 ^ 20] in absolute value is within
    [2 ^ -33] of its double. *)
Lemma round64_near q :
  (- (1048576) <= q)%Q → (q <= 1048576)%Q →
  ∃ r, round64 q = Fin r
       ∧ (r - q <= 1 # 8589934592)%Q ∧ (q - r <= 1 # 8589934592)%Q.
Proof.
  destruct q as [a p]. intros Hlo Hhi. unfold Qle in Hlo, Hhi.
  cbn [Qnum Qden Qopp] in Hlo, Hhi. unfold round64. cbn [Qnum Qden].
  destruct (Z.eqb_spec a 0) as [->|Ha].
  { exists 0%Q. split; [done|]. unfold Qle. simpl. lia. }
  destruct (Z.ltb_spec 0 a) as [Hpos|Hneg].
  - rewrite Z.abs_eq by lia.
    destruct (core_near a p Hpos ltac:(lia)) as (He & H1 & H2).
    rewrite overflow_test by lia. eexists. split; [done|].
    rewrite Qred_correct. done.
  - assert (0 < - a) as Hpos by lia. rewrite Z.abs_neq by lia.
    destruct (core_near (- a) p Hpos ltac:(lia)) as (He & H1 & H2).
    rewrite overflow_test by lia. eexists. split; [done|].
    rewrite Qred_correct.
    assert (a # p == - (- a # p))%Q as Hq
      by (unfold Qeq, Qopp; simpl; lia).
    rewrite Hq. split; lra.
Qed.

(** Rounding does not cross an integer that is a double. *)
Lemma round64_ge c q :
  0 < c < 2 ^ 53 → (inject_Z c <= q)%Q → at_least (inject_Z c) (round64 q).
Proof.
  intros Hc. destruct q as [a p]. unfold Qle at 1. cbn [Qnum Qden inject_Z].
  intros Hq. unfold round64. cbn [Qnum Qden].
  destruct (Z.eqb_spec a 0) as [->|Ha]; [lia|].
  destruct (Z.ltb_spec 0 a) as [Hpos|Hneg]; [|lia].
  rewrite Z.abs_eq by lia. destruct (_ || _); [done|].
  cbn [at_least]. rewrite Qred_correct. apply core_ge; lia.
Qed.

Lemma round64_le c q :
  0 < c < 2 ^ 53 → (q <= inject_Z c)%Q → at_most (inject_Z c) (round64 q).
Proof.
  intros Hc. destruct q as [a p]. unfold Qle at 1. cbn [Qnum Qden inject_Z].
  intros Hq. unfold round64. cbn [Qnum Qden].
  destruct (Z.eqb_spec a 0) as [->|Ha].
  { cbn [at_most]. change 0%Q with (inject_Z 0). rewrite <- Zle_Qle. lia. }
  destruct (Z.ltb_spec 0 a) as [Hpos|Hneg].
  - rewrite Z.abs_eq by lia.
    destruct (core_le a p Hpos c Hc ltac:(lia)) as [He Hle].
    rewrite overflow_test by done. cbn [at_most]. by rewrite Qred_correct.
  - destruct (_ || _); [done|]. cbn [at_most]. rewrite Qred_correct.
    pose proof (core_nonneg (Z.abs a) p ltac:(lia)) as H0.
    assert (0 <= inject_Z c)%Q
      by (change 0%Q with (inject_Z 0); rewrite <- Zle_Qle; lia).
    lra.
Qed.

Lemma round64_ge_opp c q :
  0 < c < 2 ^ 53 → (- inject_Z c <= q)%Q →
  at_least (- inject_Z c) (round64 q).
Proof.
  intros Hc. destruct q as [a p]. unfold Qle at 1.
  cbn [Qnum Qden inject_Z Qopp]. intros Hq. unfold round64. cbn [Qnum Qden].
  assert (0 <= inject_Z c)%Q as H0
    by (change 0%Q with (inject_Z 0); rewrite <- Zle_Qle; lia).
  destruct (Z.eqb_spec a 0) as [->|Ha]; [cbn [at_least]; lra|].
  destruct (Z.ltb_spec 0 a) as [Hpos|Hneg].
  - destruct (_ || _); [done|]. cbn [at_least]. rewrite Qred_correct.
    pose proof (core_nonneg (Z.abs a) p ltac:(lia)). lra.
  - assert (0 < - a) as Hpos by lia. rewrite Z.abs_neq by lia.
    destruct (core_le (- a) p Hpos c Hc ltac:(lia)) as [He Hle].
    rewrite overflow_test by done. cbn [at_least]. rewrite Qred_correct.
    lra.
Qed.

Lemma round64_le_opp c q :
  0 < c < 2 ^ 53 → (q <= - inject_Z c)%Q →
  at_most (- inject_Z c) (round64 q).
Proof.
  intros Hc. destruct q as [a p]. unfold Qle at 1.
  cbn [Qnum Qden inject_Z Qopp]. intros Hq. unfold round64. cbn [Qnum Qden].
  destruct (Z.eqb_spec a 0) as [->|Ha]; [lia|].
  destruct (Z.ltb_spec 0 a) as [Hpos|Hneg]; [lia|].
  assert (0 < - a) as Hpos by lia. rewrite Z.abs_neq by lia.
  destruct (_ || _); [done|]. cbn [at_most]. rewrite Qred_correct.
  pose proof (core_ge (- a) p Hpos c Hc ltac:(lia)). lra.
Qed.

(** [round64] agrees with the arithmetic of the hardware on the
    products and quotients below, among them those the sanitizer makes
    of 1.2345 and of 0.2345. *)
Lemma round64_as_hardware :
  forallb (λ xy, same_product xy.1 xy.2)
    [(1.2345, 1000); (0.2345, 1000); (-0.7, 1000); (0.1, 0.2);
     (1e308, 10); (-1e308, 10); (5e-324, 0.5); (2.5e-323, 0.5);
     (3e-310, 1.5); (0.3333333333333333, 3); (123456789.123, 1000);
     (4503599627370497, 1.5); (9007199254740993, 1000)]%float
  && forallb (λ xy, same_quotient xy.1 xy.2)
       [(1235, 1000); (235, 1000); (-700, 1000); (1, 3); (2, 3); (1, 10);
        (5e-324, 2); (1.5e-323, 2); (1e308, 1e-308); (999999, 1000);
        (-1234567, 1000); (1, 1e308); (7, 1000)]%float
  = true.
Proof. vm_compute. reflexivity. Qed.

End RoundingFacts.
(** * More facts about the sanitizer *)

Module SanitizerMore.
Import JS Relay RoundingFacts.

(** ** [Math.round] *)

Lemma Qfloor_between (t : Q) (k : Z) :
  (inject_Z k <= t)%Q → (t < inject_Z k + 1)%Q → Qfloor t = k.
Proof.
  intros Hle Hlt. apply Z.le_antisymm.
  - apply Z.lt_succ_r. rewrite Zlt_Qlt.
    eapply Qle_lt_trans; [apply Qfloor_le|].
    unfold Z.succ. rewrite inject_Z_plus. done.
  - rewrite <- (Qfloor_Z k). by apply Qfloor_resp_le.
Qed.

Lemma round_near (x : Q) :
  (x - (1 # 2) <= inject_Z (Qfloor (x + (1 # 2))))%Q
  ∧ (inject_Z (Qfloor (x + (1 # 2))) <= x + (1 # 2))%Q.
Proof.
  pose proof (Qfloor_le (x + (1 # 2))) as Hle.
  pose proof (Qlt_floor (x + (1 # 2))) as Hlt.
  rewrite inject_Z_plus in Hlt. change (inject_Z 1) with 1%Q in Hlt.
  split; lra.
Qed.

Lemma round_above (C : Z) (x : Q) :
  (inject_Z C <= x)%Q → C ≤ Qfloor (x + (1 # 2)).
Proof.
  intros H. rewrite <- (Qfloor_Z C). apply Qfloor_resp_le. lra.
Qed.

Lemma round_below (C : Z) (x : Q) :
  (x <= inject_Z C)%Q → Qfloor (x + (1 # 2)) ≤ C.
Proof.
  intros H. apply Z.lt_succ_r. rewrite Zlt_Qlt.
  eapply Qle_lt_trans; [apply Qfloor_le|].
  unfold Z.succ. rewrite inject_Z_plus. change (inject_Z 1) with 1%Q. lra.
Qed.

Lemma thousandths k : ((k # 1000) * 1000 == inject_Z k)%Q.
Proof. unfold Qeq. simpl. lia. Qed.

(** ** [Math.round(n * 1000) / 1000] *)

Section Rounded.

(** The bounds are [-B] and [B], for a whole number [B] up to 1000. *)
Variable B : Z.
Hypothesis B_range : 0 < B ≤ 1000.

Abbreviation hi := (inject_Z B).
Abbreviation lo := (- inject_Z B)%Q.

Abbreviation rounded n := (div (Math_round (mul n 1000)) 1000).

Lemma B_bounds : (0 < hi)%Q ∧ (hi <= 1000)%Q.
Proof.
  split.
  - change 0%Q with (inject_Z 0). rewrite <- Zlt_Qlt. lia.
  - change 1000%Q with (inject_Z 1000). rewrite <- Zle_Qle. lia.
Qed.

Lemma scaled_bound : (inject_Z (1000 * B) == hi * 1000)%Q.
Proof. rewrite inject_Z_mult. change (inject_Z 1000) with 1000%Q. ring. Qed.

Lemma rounded_ge v : (hi <= v)%Q → at_least hi (rounded (Fin v)).
Proof.
  intros Hv. cbn [mul].
  assert (at_least (inject_Z (1000 * B)) (round64 (v * 1000))) as Hx.
  { apply round64_ge; [change (2 ^ 53) with 9007199254740992; lia|].
    rewrite scaled_bound. lra. }
  destruct (round64 (v * 1000)) as [x| | |]; try done.
  cbn [Math_round at_least] in *. rewrite SanitizerFacts.div_of_Z.
  apply round64_ge; [change (2 ^ 53) with 9007199254740992; lia|].
  apply round_above in Hx.
  unfold Qle. cbn [Qnum Qden inject_Z]. lia.
Qed.

Lemma rounded_le v : (v <= hi)%Q → at_most hi (rounded (Fin v)).
Proof.
  intros Hv. cbn [mul].
  assert (at_most (inject_Z (1000 * B)) (round64 (v * 1000))) as Hx.
  { apply round64_le; [change (2 ^ 53) with 9007199254740992; lia|].
    rewrite scaled_bound. lra. }
  destruct (round64 (v * 1000)) as [x| | |]; try done.
  cbn [Math_round at_most] in *. rewrite SanitizerFacts.div_of_Z.
  apply round64_le; [change (2 ^ 53) with 9007199254740992; lia|].
  apply round_below in Hx.
  unfold Qle. cbn [Qnum Qden inject_Z]. lia.
Qed.

Lemma rounded_ge_opp v : (lo <= v)%Q → at_least lo (rounded (Fin v)).
Proof.
  intros Hv. cbn [mul].
  assert (at_least (- inject_Z (1000 * B)) (round64 (v * 1000))) as Hx.
  { apply round64_ge_opp; [change (2 ^ 53) with 9007199254740992; lia|].
    rewrite scaled_bound. lra. }
  destruct (round64 (v * 1000)) as [x| | |]; try done.
  cbn [Math_round at_least] in *. rewrite SanitizerFacts.div_of_Z.
  apply round64_ge_opp; [change (2 ^ 53) with 9007199254740992; lia|].
  rewrite <- inject_Z_opp in Hx. apply round_above in Hx.
  unfold Qle. cbn [Qnum Qden inject_Z Qopp]. lia.
Qed.

Lemma rounded_le_opp v : (v <= lo)%Q → at_most lo (rounded (Fin v)).
Proof.
  intros Hv. cbn [mul].
  assert (at_most (- inject_Z (1000 * B)) (round64 (v * 1000))) as Hx.
  { apply round64_le_opp; [change (2 ^ 53) with 9007199254740992; lia|].
    rewrite scaled_bound. lra. }
  destruct (round64 (v * 1000)) as [x| | |]; try done.
  cbn [Math_round at_most] in *. rewrite SanitizerFacts.div_of_Z.
  apply round64_le_opp; [change (2 ^ 53) with 9007199254740992; lia|].
  rewrite <- inject_Z_opp in Hx. apply round_below in Hx.
  unfold Qle. cbn [Qnum Qden inject_Z Qopp]. lia.
Qed.

(** Within the bounds: a finite number, the double of [k / 1000] for a
    whole number [k], near the input. *)
Lemma rounded_near v :
  (lo <= v)%Q → (v <= hi)%Q →
  ∃ y, rounded (Fin v) = Fin y
       ∧ (v - (1 # 2000) - (1 # 1000000000) <= y)%Q
       ∧ (y <= v + (1 # 2000) + (1 # 1000000000))%Q.
Proof.
  intros Hlo Hhi. destruct B_bounds as [HB0 HB]. cbn [mul].
  destruct (round64_near (v * 1000)) as (x & -> & Hx1 & Hx2); [lra|lra|].
  cbn [Math_round]. rewrite SanitizerFacts.div_of_Z.
  destruct (round_near x) as [Hk1 Hk2].
  set (k := Qfloor (x + (1 # 2))) in *.
  pose proof (thousandths k) as Hk.
  destruct (round64_near (k # 1000)) as (y & -> & Hy1 & Hy2); [lra|lra|].
  exists y. split; [done|]. split; lra.
Qed.

(** ** The clamping expression *)

Lemma lo_le_hi : Qle_bool lo hi = true.
Proof.
  apply Qle_bool_iff. destruct B_bounds. lra.
Qed.

Lemma Qle_bool_false p q : Qle_bool p q = false → (q < p)%Q.
Proof.
  intros H. apply Qnot_le_lt. intros Hle. apply Qle_bool_iff in Hle.
  congruence.
Qed.

(** What the clamping expression makes of an axis that is a number. *)
Lemma bound_sanitized input :
  milli_within lo hi (Fin lo) → milli_within lo hi (Fin hi) →
  input ≠ NaN → sanitized lo hi input (bound lo hi input).
Proof.
  intros Hmlo Hmhi Hnan.
  pose proof (SanitizerFacts.bound_within lo hi input Hnan Hmlo Hmhi)
    as Hwithin.
  pose proof lo_le_hi as Hb. destruct B_bounds as [HB0 HB].
  unfold bound in *.
  destruct input as [v| | |]; try done.
  - pose proof (rounded_ge v) as Hge. pose proof (rounded_le v) as Hle.
    pose proof (rounded_ge_opp v) as Hge'.
    pose proof (rounded_le_opp v) as Hle'.
    pose proof (rounded_near v) as Hnear.
    destruct (rounded (Fin v)) as [y| | |];
      cbn [Math_min Math_max at_least at_most] in *; try done.
    + destruct (Qle_bool hi y) eqn:E1; cbn [Math_max] in *.
      * rewrite Hb in *. cbn [sanitized milli_within] in *.
        destruct Hwithin as (? & ? & ?). apply Qle_bool_iff in E1.
        do 3 (split; [done|]). split; [intros Hv1 Hv2|split; intros Hv1].
        -- destruct (Hnear Hv1 Hv2) as (y' & [= <-] & ? & ?).
           specialize (Hle Hv2). split; lra.
        -- reflexivity.
        -- specialize (Hle' Hv1). lra.
      * apply Qle_bool_false in E1.
        destruct (Qle_bool lo y) eqn:E2; cbn [sanitized milli_within] in *;
          destruct Hwithin as (? & ? & ?);
          (do 3 (split; [done|]));
          (split; [intros Hv1 Hv2|split; intros Hv1]).
        -- destruct (Hnear Hv1 Hv2) as (y' & [= <-] & ? & ?). split; lra.
        -- specialize (Hge Hv1). lra.
        -- specialize (Hle' Hv1). lra.
        -- apply Qle_bool_false in E2. specialize (Hge' Hv1). lra.
        -- apply Qle_bool_false in E2. specialize (Hge Hv1). lra.
        -- reflexivity.
    + rewrite Hb in *. cbn [sanitized milli_within] in *.
      destruct Hwithin as (? & ? & ?).
      do 3 (split; [done|]). split; [intros Hv1 Hv2|split; intros Hv1].
      * by specialize (Hle Hv2).
      * reflexivity.
      * exfalso. apply Hle. lra.
    + cbn [sanitized milli_within] in *.
      destruct Hwithin as (? & ? & ?).
      do 3 (split; [done|]). split; [intros Hv1 Hv2|split; intros Hv1].
      * by specialize (Hge' Hv1).
      * exfalso. apply Hge'. lra.
      * reflexivity.
  - cbn [mul Math_round div Math_min Math_max] in *. rewrite Hb in *.
    cbn [sanitized milli_within] in *. destruct Hwithin as (? & ? & ?).
    do 3 (split; [done|]). reflexivity.
  - cbn [mul Math_round div Math_min Math_max sanitized milli_within] in *.
    destruct Hwithin as (? & ? & ?).
    do 3 (split; [done|]). reflexivity.
Qed.

(** A number strictly within the bounds that is what [rounded] made of
    some number comes out of [rounded] as it is. *)
Lemma rounded_again n r :
  rounded n = Fin r → (lo < r)%Q → (r < hi)%Q → rounded (Fin r) = Fin r.
Proof.
  intros Hr Hlo Hhi. destruct B_bounds as [HB0 HB].
  destruct n as [v| | |]; try done. cbn [mul] in Hr.
  destruct (round64 (v * 1000)) as [x| | |]; try done.
  cbn [Math_round] in Hr. rewrite SanitizerFacts.div_of_Z in Hr.
  set (k := Qfloor (x + (1 # 2))) in *.
  pose proof (thousandths k) as Hk.
  assert (- (1000 * B) < k < 1000 * B) as Hrange.
  { split.
    - destruct (Z.lt_ge_cases (- (1000 * B)) k) as [|Hge]; [done|].
      exfalso.
      assert (at_most (- inject_Z B) (round64 (k # 1000))) as Hm.
      { apply round64_le_opp; [change (2 ^ 53) with 9007199254740992; lia|].
        unfold Qle. cbn [Qnum Qden inject_Z Qopp]. lia. }
      rewrite Hr in Hm. cbn [at_most] in Hm. lra.
    - destruct (Z.lt_ge_cases k (1000 * B)) as [|Hge]; [done|].
      exfalso.
      assert (at_least (inject_Z B) (round64 (k # 1000))) as Hm.
      { apply round64_ge; [change (2 ^ 53) with 9007199254740992; lia|].
        unfold Qle. cbn [Qnum Qden inject_Z]. lia. }
      rewrite Hr in Hm. cbn [at_least] in Hm. lra. }
  assert (-1000000 <= inject_Z k)%Q
    by (change (-1000000)%Q with (inject_Z (-1000000)); rewrite <- Zle_Qle;
        lia).
  assert (inject_Z k <= 1000000)%Q
    by (change 1000000%Q with (inject_Z 1000000); rewrite <- Zle_Qle; lia).
  destruct (round64_near (k # 1000)) as (r' & Hr' & Hr1 & Hr2); [lra|lra|].
  rewrite Hr in Hr'. injection Hr' as <-.
  cbn [mul].
  destruct (round64_near (r * 1000)) as (x' & -> & Hx1 & Hx2); [lra|lra|].
  cbn [Math_round]. rewrite SanitizerFacts.div_of_Z.
  rewrite (Qfloor_between (x' + (1 # 2)) k); [done|lra|lra].
Qed.

(** Clamping what was clamped gives the same number. *)
Lemma bound_again input :
  milli_within lo hi (Fin lo) → milli_within lo hi (Fin hi) →
  input ≠ NaN →
  same_number (bound lo hi (bound lo hi input)) (bound lo hi input).
Proof.
  intros Hmlo Hmhi Hnan.
  pose proof (bound_sanitized input Hmlo Hmhi Hnan) as H1.
  pose proof lo_le_hi as Hb. destruct B_bounds as [HB0 HB].
  assert (∃ r, bound lo hi input = Fin r
               ∧ (rounded input = Fin r ∨ (r == lo)%Q ∨ (r == hi)%Q))
    as (r & Hr & Hcases).
  { unfold bound. destruct (rounded input) as [y| | |] eqn:E;
      cbn [Math_min Math_max].
    - destruct (Qle_bool hi y); cbn [Math_max].
      + rewrite Hb. eexists. split; [done|]. right. by right.
      + destruct (Qle_bool lo y); eexists; (split; [done|]);
          [by left|right; by left].
    - rewrite Hb. eexists. split; [done|]. right. by right.
    - eexists. split; [done|]. right. by left.
    - by destruct (SanitizerFacts.rounded_milli input Hnan). }
  rewrite Hr in H1 |- *. destruct H1 as (Hlo & Hhi & _).
  pose proof (bound_sanitized (Fin r) Hmlo Hmhi ltac:(done)) as H2.
  destruct (bound lo hi (Fin r)) as [r2| | |] eqn:E2; try done.
  destruct H2 as (_ & _ & _ & _ & Hup & Hdown). cbn [same_number].
  destruct (Qlt_le_dec r hi) as [Hlt|Hge]; [|rewrite Hup by done; lra].
  destruct (Qlt_le_dec lo r) as [Hgt|Hle]; [|rewrite Hdown by done; lra].
  destruct Hcases as [Hrounded|[?|?]]; [|lra..].
  unfold bound in E2. rewrite (rounded_again input r) in E2 by done.
  cbn [Math_min Math_max] in E2.
  assert (Qle_bool hi r = false) as E1.
  { destruct (Qle_bool hi r) eqn:E; [|done]. apply Qle_bool_iff in E. lra. }
  rewrite E1 in E2. cbn [Math_max] in E2.
  assert (Qle_bool lo r = true) as E3 by (apply Qle_bool_iff; lra).
  rewrite E3 in E2. by injection E2 as <-.
Qed.

End Rounded.

Section Facts.

Variable StringToNumber : string → number.
Variable ArrayToString : list value → string.

Abbreviation clamp := (Relay.clamp StringToNumber ArrayToString).
Abbreviation clampVector3 := (Relay.clampVector3 StringToNumber ArrayToString).
Abbreviation clampQuaternion :=
  (Relay.clampQuaternion StringToNumber ArrayToString).

(** What the sanitizers make of one axis of a position and of one
    component of a rotation. *)
Lemma position_axis_sanitized input :
  input ≠ NaN → sanitized (-1000) 1000 input (bound (-1000) 1000 input).
Proof.
  destruct SanitizerFacts.bounds_within_1000.
  by apply (bound_sanitized 1000 ltac:(lia)).
Qed.

Lemma rotation_axis_sanitized input :
  input ≠ NaN → sanitized (-1) 1 input (bound (-1) 1 input).
Proof.
  destruct SanitizerFacts.bounds_within_1.
  by apply (bound_sanitized 1 ltac:(lia)).
Qed.

Lemma position_axis_again input :
  input ≠ NaN →
  same_number (bound (-1000) 1000 (bound (-1000) 1000 input))
              (bound (-1000) 1000 input).
Proof.
  destruct SanitizerFacts.bounds_within_1000.
  by apply (bound_again 1000 ltac:(lia)).
Qed.

Lemma rotation_axis_again input :
  input ≠ NaN →
  same_number (bound (-1) 1 (bound (-1) 1 input)) (bound (-1) 1 input).
Proof.
  destruct SanitizerFacts.bounds_within_1.
  by apply (bound_again 1 ltac:(lia)).
Qed.

Lemma clampVector3_of_numbers vec a b c :
  get vec "x" = Num a → get vec "y" = Num b → get vec "z" = Num c →
  clampVector3 vec
  = Returned (mkVector3 (bound (-1000) 1000 a) (bound (-1000) 1000 b)
                (bound (-1000) 1000 c)).
Proof.
  intros Hx Hy Hz. unfold Relay.clampVector3, Relay.clamp.
  assert (truthy vec = true) as -> by (by destruct vec).
  by rewrite Hx, Hy, Hz.
Qed.

Lemma clampQuaternion_of_numbers quat a b c d :
  get quat "x" = Num a → get quat "y" = Num b → get quat "z" = Num c →
  get quat "w" = Num d →
  clampQuaternion quat
  = Returned (mkQuaternion (bound (-1) 1 a) (bound (-1) 1 b)
                (bound (-1) 1 c) (bound (-1) 1 d)).
Proof.
  intros Hx Hy Hz Hw. unfold Relay.clampQuaternion, Relay.clamp.
  assert (truthy quat = true) as -> by (by destruct quat).
  by rewrite Hx, Hy, Hz, Hw.
Qed.

(** X1.  [clampVector3] on a vector whose three axes are numbers, in
    the arithmetic of doubles: it returns, and each axis of the result
    is within [-1000, 1000] and the double of a whole number of
    thousandths; it is the bound itself when the input is at or beyond
    it (an infinite input included), and for an input within the bounds
    it is no further from the input than half a thousandth and the
    rounding of the two operations, less than a billionth. *)
Theorem clampVector3_sanitizes vec a b c :
  get vec "x" = Num a → get vec "y" = Num b → get vec "z" = Num c →
  a ≠ NaN → b ≠ NaN → c ≠ NaN →
  ∃ out,
    clampVector3 vec = Returned out
    ∧ sanitized (-1000) 1000 a (vx out)
    ∧ sanitized (-1000) 1000 b (vy out)
    ∧ sanitized (-1000) 1000 c (vz out).
Proof.
  intros Hx Hy Hz Ha Hb Hc. eexists.
  split; [by apply clampVector3_of_numbers|].
  cbn [vx vy vz]. repeat split; by apply position_axis_sanitized.
Qed.

(** X2.  [clampQuaternion] on a quaternion whose four components are
    numbers, in the arithmetic of doubles: it returns, and each
    component of the result is within [-1, 1] and the double of a whole
    number of thousandths; it is the bound itself when the input is at
    or beyond it, and for an input within the bounds it is no further
    from the input than half a thousandth and the rounding of the two
    operations, less than a billionth.  Nothing makes the result a unit
    quaternion. *)
Theorem clampQuaternion_sanitizes quat a b c d :
  get quat "x" = Num a → get quat "y" = Num b → get quat "z" = Num c →
  get quat "w" = Num d →
  a ≠ NaN → b ≠ NaN → c ≠ NaN → d ≠ NaN →
  ∃ out,
    clampQuaternion quat = Returned out
    ∧ sanitized (-1) 1 a (qx out)
    ∧ sanitized (-1) 1 b (qy out)
    ∧ sanitized (-1) 1 c (qz out)
    ∧ sanitized (-1) 1 d (qw out).
Proof.
  intros Hx Hy Hz Hw Ha Hb Hc Hd. eexists.
  split; [by apply clampQuaternion_of_numbers|].
  cbn [qx qy qz qw]. repeat split; by apply rotation_axis_sanitized.
Qed.

(** X3.  Sanitizing is idempotent, in the arithmetic of doubles: a
    vector or quaternion with numeric axes that went through the
    sanitizer comes out of it again with the same numbers. *)
Theorem sanitizing_again_changes_nothing vec quat a b c x y z w :
  get vec "x" = Num a → get vec "y" = Num b → get vec "z" = Num c →
  get quat "x" = Num x → get quat "y" = Num y → get quat "z" = Num z →
  get quat "w" = Num w →
  a ≠ NaN ∧ b ≠ NaN ∧ c ≠ NaN ∧ x ≠ NaN ∧ y ≠ NaN ∧ z ≠ NaN ∧ w ≠ NaN →
  ∃ v1 v2 q1 q2,
    clampVector3 vec = Returned v1
    ∧ clampVector3 (vector_value v1) = Returned v2
    ∧ clampQuaternion quat = Returned q1
    ∧ clampQuaternion (quaternion_value q1) = Returned q2
    ∧ (same_number (vx v2) (vx v1) ∧ same_number (vy v2) (vy v1)
       ∧ same_number (vz v2) (vz v1))
    ∧ (same_number (qx q2) (qx q1) ∧ same_number (qy q2) (qy q1)
       ∧ same_number (qz q2) (qz q1) ∧ same_number (qw q2) (qw q1)).
Proof.
  intros Hx Hy Hz Hqx Hqy Hqz Hqw (Ha & Hb & Hc & Hx' & Hy' & Hz' & Hw').
  do 4 eexists.
  split; [by apply clampVector3_of_numbers|].
  split; [by apply clampVector3_of_numbers|].
  split; [by apply clampQuaternion_of_numbers|].
  split; [by apply clampQuaternion_of_numbers|].
  cbn [vx vy vz qx qy qz qw].
  repeat split;
    first [by apply position_axis_again|by apply rotation_axis_again].
Qed.

End Facts.

(** The far position and the long rotation, sanitized: the double
    1.2345 becomes the double 1.235, which is further from it than half
    a thousandth. *)
Lemma clampVector3_sanitizes_witness :
  ∃ out,
    clampVector3 noNumber noText far_position = Returned out
    ∧ vx out = of_float 1.235
    ∧ sanitized (-1000) 1000 (of_float 1.2345) (vx out)
    ∧ sanitized (-1000) 1000 (Fin (-5000)) (vy out)
    ∧ sanitized (-1000) 1000 PosInf (vz out).
Proof.
  destruct (clampVector3_sanitizes noNumber noText far_position
              (of_float 1.2345) (Fin (-5000)) PosInf
              eq_refl eq_refl eq_refl)
    as (out & Hout & Hx & Hy & Hz);
    [by vm_compute|done|done|].
  exists out. repeat split; try done.
  assert (clampVector3 noNumber noText far_position
          = Returned (mkVector3 (of_float 1.235) (Fin (-1000)) (Fin 1000)))
    as Hval by (vm_compute; reflexivity).
  rewrite Hval in Hout. by injection Hout as <-.
Defined.

Lemma clampQuaternion_sanitizes_witness :
  ∃ out,
    clampQuaternion noNumber noText long_rotation = Returned out
    ∧ sanitized (-1) 1 (of_float 0.2345) (qx out)
    ∧ sanitized (-1) 1 (Fin 3) (qy out)
    ∧ sanitized (-1) 1 (of_float (-0.7)) (qz out)
    ∧ sanitized (-1) 1 (Fin 1) (qw out).
Proof.
  apply (clampQuaternion_sanitizes noNumber noText long_rotation
           (of_float 0.2345) (Fin 3) (of_float (-0.7)) (Fin 1));
    first [reflexivity|by vm_compute|done].
Defined.

Lemma sanitizing_again_changes_nothing_witness :
  ∃ v1 v2 q1 q2,
    clampVector3 noNumber noText far_position = Returned v1
    ∧ clampVector3 noNumber noText (vector_value v1) = Returned v2
    ∧ clampQuaternion noNumber noText long_rotation = Returned q1
    ∧ clampQuaternion noNumber noText (quaternion_value q1) = Returned q2
    ∧ same_number (vx v2) (vx v1) ∧ same_number (qz q2) (qz q1).
Proof.
  destruct (sanitizing_again_changes_nothing noNumber noText far_position
              long_rotation (of_float 1.2345) (Fin (-5000)) PosInf
              (of_float 0.2345) (Fin 3) (of_float (-0.7)) (Fin 1)
              eq_refl eq_refl eq_refl eq_refl eq_refl eq_refl eq_refl)
    as (v1 & v2 & q1 & q2 & H1 & H2 & H3 & H4 & (Hv & _) & (_ & _ & Hq & _)).
  { repeat split; by vm_compute. }
  exists v1, v2, q1, q2. repeat split; done.
Defined.

End SanitizerMore.
(** * More facts about the relay *)

Module RelayMore.
Import JS Relay RelayFacts.

(** ** Rooms and sessions *)

Lemma members_cleanupClient st ws roomId :
  members (cleanupClient st ws) roomId
  = match clients st !! ws with
    | Some client =>
        if decide (room client = roomId) then members st roomId ∖ {[ws]}
        else members st roomId
    | None => members st roomId
    end.
Proof.
  unfold cleanupClient, members.
  destruct (clients st !! ws) as [client|]; [|done]. simpl.
  rewrite lookup_alter. case_decide as Hr; [|done]. rewrite Hr.
  destruct (rooms st !! roomId); simpl; [done|set_solver].
Qed.

(** The state a hello with a [clientId] leaves, whether or not the
    handler throws at its log line. *)
Lemma handleHello_state env st ws message :
  truthy (msg_clientId message) = true →
  (handleHello env st ws message).1.1
  = let room := default "default"%string (msg_room message) in
    let st := cleanupClient st ws in
    mkServer
      (alter (λ members, members ∪ {[ws]}) room
         match rooms st !! room with
         | Some _ => rooms st
         | None => <[room := ∅]> (rooms st)
         end)
      (<[ws := mkClient (msg_clientId message) room (now env) None]>
         (clients st)).
Proof.
  intros Hcid. unfold handleHello. rewrite Hcid. cbn [negb].
  by destruct (unprintable _).
Qed.

Lemma members_handleHello env st ws message roomId :
  truthy (msg_clientId message) = true →
  members (handleHello env st ws message).1.1 roomId
  = if decide (roomId = default "default"%string (msg_room message))
    then members (cleanupClient st ws) roomId ∪ {[ws]}
    else members (cleanupClient st ws) roomId.
Proof.
  intros Hcid. rewrite handleHello_state by done. cbn zeta.
  set (r := default "default"%string (msg_room message)).
  unfold members at 1. simpl. rewrite lookup_alter.
  case_decide as Hr.
  - rewrite decide_True by done. subst roomId. unfold members.
    destruct (rooms (cleanupClient st ws) !! r) as [roomClients|] eqn:E.
    + by rewrite E.
    + rewrite lookup_insert_eq. simpl. set_solver.
  - rewrite decide_False by done. unfold members.
    destruct (rooms (cleanupClient st ws) !! r) as [roomClients|] eqn:E;
      [done|]. by rewrite lookup_insert_ne.
Qed.

Lemma members_handleDisconnect env st ws client roomId :
  clients st !! ws = Some client →
  unprintable (clientId client) = false →
  members (handleDisconnect env st ws).1.1 roomId
  = if decide (roomId = room client) then members st roomId ∖ {[ws]}
    else members st roomId.
Proof.
  intros Hc Hprint. unfold handleDisconnect. rewrite Hc, Hprint.
  destruct (rooms st !! room client) as [roomClients|] eqn:E.
  - destruct (decide (size (roomClients ∖ {[ws]}) = 0%nat)) as [Hsize|Hsize];
      simpl; unfold members; simpl.
    + rewrite lookup_delete.
      destruct (decide (roomId = room client)) as [->|Hr].
      * rewrite decide_True by done. rewrite E. simpl.
        apply size_empty_iff in Hsize. set_solver.
      * by rewrite decide_False.
    + rewrite lookup_insert.
      destruct (decide (roomId = room client)) as [->|Hr].
      * rewrite decide_True by done. by rewrite E.
      * by rewrite decide_False.
  - simpl. unfold members. simpl.
    destruct (decide (roomId = room client)) as [->|Hr]; [|done].
    rewrite E. simpl. set_solver.
Qed.

Lemma cleanupClient_consistent st ws :
  consistent st →
  consistent (cleanupClient st ws)
  ∧ clients (cleanupClient st ws) !! ws = None
  ∧ ∀ roomId, ws ∉ members (cleanupClient st ws) roomId.
Proof.
  intros [H1 H2].
  assert (Hout : ∀ roomId, ws ∉ members (cleanupClient st ws) roomId).
  { intros roomId. rewrite members_cleanupClient.
    destruct (clients st !! ws) as [client|] eqn:E.
    - case_decide as Hr; [set_solver|]. intros Hin.
      destruct (H2 _ _ Hin) as (c & Hc & Hroom). congruence.
    - intros Hin. destruct (H2 _ _ Hin) as (c & Hc & _). congruence. }
  assert (Hclients : clients (cleanupClient st ws) = delete ws (clients st)).
  { unfold cleanupClient. destruct (clients st !! ws) eqn:E; [done|].
    symmetry. by apply delete_id. }
  split; [|split; [by rewrite Hclients, lookup_delete_eq|done]].
  split.
  - intros ws' client. rewrite Hclients, lookup_delete.
    case_decide as Hne; [done|]. intros Hc. apply H1 in Hc.
    rewrite members_cleanupClient.
    destruct (clients st !! ws); [|done]. case_decide; set_solver.
  - intros ws' roomId Hin.
    assert (ws' ≠ ws) as Hne by (intros ->; by apply (Hout roomId)).
    rewrite Hclients, lookup_delete_ne by done. apply H2.
    rewrite members_cleanupClient in Hin.
    destruct (clients st !! ws); [|done]. case_decide; set_solver.
Qed.

Lemma handleHello_consistent env st ws message :
  consistent st → consistent (handleHello env st ws message).1.1.
Proof.
  intros Hst. destruct (truthy (msg_clientId message)) eqn:Hcid;
    [|unfold handleHello; by rewrite Hcid].
  destruct (cleanupClient_consistent st ws Hst) as ([H1 H2] & Hnone & Hout).
  set (r := default "default"%string (msg_room message)).
  assert (Hclients : clients (handleHello env st ws message).1.1
            = <[ws := mkClient (msg_clientId message) r (now env) None]>
                (clients (cleanupClient st ws))).
  { by rewrite handleHello_state. }
  split.
  - intros ws' client. rewrite Hclients, lookup_insert.
    rewrite members_handleHello by done. fold r.
    case_decide as Hw.
    + intros [= <-]. simpl. rewrite decide_True by done. set_solver.
    + intros Hc. apply H1 in Hc. case_decide; set_solver.
  - intros ws' roomId. rewrite members_handleHello by done. fold r.
    rewrite Hclients, lookup_insert.
    destruct (decide (ws = ws')) as [<-|Hw].
    + case_decide as Hr; [eauto|]. intros Hin. by apply Hout in Hin.
    + intros Hin. apply H2. case_decide; set_solver.
Qed.

Lemma handleDisconnect_consistent env st ws :
  consistent st → consistent (handleDisconnect env st ws).1.1.
Proof.
  intros [H1 H2]. destruct (clients st !! ws) as [client|] eqn:Hc;
    [|unfold handleDisconnect; by rewrite Hc].
  destruct (unprintable (clientId client)) eqn:Hprint;
    [unfold handleDisconnect; by rewrite Hc, Hprint|].
  assert (Hclients : clients (handleDisconnect env st ws).1.1
                     = delete ws (clients st)).
  { unfold handleDisconnect. rewrite Hc, Hprint.
    by destruct (rooms st !! room client);
      [destruct (decide (size _ = 0%nat))|]. }
  split.
  - intros ws' client'. rewrite Hclients, lookup_delete.
    case_decide as Hw; [done|]. intros Hc'. apply H1 in Hc'.
    rewrite (members_handleDisconnect env st ws client) by done.
    case_decide; set_solver.
  - intros ws' roomId.
    rewrite (members_handleDisconnect env st ws client) by done.
    intros Hin.
    assert (ws' ∈ members st roomId) as Hin' by (case_decide; set_solver).
    assert (ws' ≠ ws) as Hne.
    { intros ->. case_decide as Hr; [set_solver|].
      destruct (H2 _ _ Hin') as (c & Hc' & Hroom). congruence. }
    rewrite Hclients, lookup_delete_ne by done. by apply H2.
Qed.

(** A session record rewritten in place, its room kept. *)
Lemma rewrite_session_consistent st ws client client' :
  consistent st → clients st !! ws = Some client →
  room client' = room client →
  consistent (mkServer (rooms st) (<[ws := client']> (clients st))).
Proof.
  intros [H1 H2] Hc Hroom. split.
  - intros ws' c. simpl. rewrite lookup_insert. case_decide as Hw.
    + intros [= <-]. subst ws'. rewrite Hroom. by apply (H1 ws client).
    + apply H1.
  - intros ws' roomId Hin. simpl. rewrite lookup_insert.
    destruct (H2 ws' roomId Hin) as (c & Hc' & Hr).
    case_decide as Hw; [|eauto]. subst ws'. exists client'.
    split; [done|]. congruence.
Qed.

Section More.

Variable StringToNumber : string → number.
Variable ArrayToString : list value → string.

Abbreviation handleSnapshot := (Relay.handleSnapshot StringToNumber ArrayToString).
Abbreviation handlePlantEvent :=
  (Relay.handlePlantEvent StringToNumber ArrayToString).
Abbreviation handleMessage := (Relay.handleMessage StringToNumber ArrayToString).
Abbreviation step := (Relay.step StringToNumber ArrayToString).
Abbreviation run := (Relay.run StringToNumber ArrayToString).

Lemma handleSnapshot_consistent env st ws message :
  consistent st → consistent (handleSnapshot env st ws message).1.1.
Proof.
  intros Hst. unfold Relay.handleSnapshot.
  destruct (clients st !! ws) as [client|] eqn:Hc; [|done].
  destruct (rateLimited env client); [done|].
  assert (consistent
            (mkServer (rooms st)
               (<[ws := mkClient (clientId client) (room client)
                          (lastPing client) (Some (now env))]> (clients st))))
    by (by apply (rewrite_session_consistent st ws client)).
  by destruct (sanitizeSnapshot _ _ env message) as [[sanitized|]|].
Qed.

Lemma step_consistent env st ev : consistent st → consistent (step env st ev).1.
Proof.
  intros Hst. destruct ev as [ws [message|]|ws]; [|done|].
  - rewrite RelayFacts.step_frame. cbn [fst].
    unfold Relay.handleMessage. destruct (is_one _); simpl; [|done].
    destruct (is_string _ "hello"); [by apply handleHello_consistent|].
    destruct (is_string _ "snapshot"); [by apply handleSnapshot_consistent|].
    destruct (is_string _ "event:plant");
      [by rewrite RelayFacts.handlePlantEvent_state|].
    destruct (is_string _ "pong"); [|done].
    unfold handlePong. destruct (clients st !! ws) as [client|] eqn:Hc;
      [|done].
    by apply (rewrite_session_consistent st ws client).
  - by apply handleDisconnect_consistent.
Qed.

Lemma run_consistent trace : ∀ st, consistent st → consistent (run st trace).1.
Proof.
  induction trace as [|[env ev] trace IH]; intros st Hst; [done|].
  rewrite RelayFacts.run_step. by apply IH, step_consistent.
Qed.

Lemma initial_consistent : consistent initial.
Proof.
  split.
  - intros ws client. simpl. by rewrite lookup_empty.
  - intros ws roomId. unfold members. simpl. rewrite lookup_empty. simpl.
    set_solver.
Qed.

(** X4.  Sessions and rooms agree in every state the relay reaches: a
    connection with a session is a member of the room its session
    names, and whoever is a member of a room has a session that names
    this room; so no connection is a member of two rooms. *)
Theorem sessions_and_rooms_agree trace :
  let st := (run initial trace).1 in
  consistent st
  ∧ ∀ ws r1 r2, ws ∈ members st r1 → ws ∈ members st r2 → r1 = r2.
Proof.
  intros st. assert (consistent st) as Hst
    by apply run_consistent, initial_consistent.
  split; [done|]. intros ws r1 r2 Hin1 Hin2.
  destruct Hst as [_ H2].
  destruct (H2 _ _ Hin1) as (c1 & Hc1 & <-).
  destruct (H2 _ _ Hin2) as (c2 & Hc2 & <-). congruence.
Qed.


(** ** What is relayed *)

(** X6.  A version-1 event:plant frame on a connection with a session
    never changes the relay's state.  With [plantType], [pos] and [quat]
    all present and axes the sanitizers can convert, every other member
    of the session's room whose socket is open is sent one event:plant,
    and nobody else anything; it bears the session's [clientId],
    whatever the frame says, the position and rotation the sanitizers
    return, and the frame's [t] or else the time of arrival.  When a
    sanitizer throws on an axis, nothing is relayed and the sender is
    told "Invalid message format".  With one of the three missing, all
    that is sent is the error "Invalid plant event data", to the
    sender. *)
Theorem plant_event_relayed env st ws client message :
  clients st !! ws = Some client →
  is_one (msg_v message) = true →
  msg_type message = Str "event:plant" →
  let sent := (step env st (Frame ws (Some message))).2 in
  (step env st (Frame ws (Some message))).1 = st
  ∧ (plant_complete message = true →
     ∀ pos quat,
       clampVector3 StringToNumber ArrayToString (msg_pos message)
       = Returned pos →
       clampQuaternion StringToNumber ArrayToString (msg_quat message)
       = Returned quat →
       ∀ c, received c sent
            = if decide (c ≠ ws ∧ isOpen env c = true
                         ∧ c ∈ members st (room client))
              then [PlantMsg (clientId client) (msg_plantType message)
                      pos quat
                      (or_else (msg_t message) (Num (of_Z (now env))))]
              else [])
  ∧ (plant_complete message = true →
     clampVector3 StringToNumber ArrayToString (msg_pos message) = Threw
     ∨ clampQuaternion StringToNumber ArrayToString (msg_quat message)
       = Threw →
     sent = sendError env ws "Invalid message format")
  ∧ (plant_complete message = false →
     sent = sendError env ws "Invalid plant event data").
Proof.
  intros Hc Hv Ht sent. subst sent. rewrite RelayFacts.step_frame.
  rewrite RelayFacts.handleMessage_plant by done. cbn [fst snd].
  split; [apply RelayFacts.handlePlantEvent_state|].
  unfold Relay.handlePlantEvent, plant_complete. rewrite Hc.
  destruct (truthy (msg_plantType message)), (truthy (msg_pos message)),
    (truthy (msg_quat message)); cbn [negb orb andb];
    (split; [|split]); try done;
    try (intros _; cbn [fst snd]; by rewrite app_nil_r).
  - intros _ pos quat -> -> c.
    cbn [mbind mret Result_bind Result_ret fst snd].
    rewrite app_nil_r, received_broadcast.
    apply decide_ext.
    split; [intros (? & ? & ?)|intros (? & ? & ?)];
      (split; [congruence|done]).
  - intros _ [->| ->]; [done|].
    by destruct (clampVector3 _ _ (msg_pos message)).
Qed.

(** X7.  A version-1 snapshot with its three poses, on a connection
    whose session is not rate limited.  When the sanitizer can convert
    the axes of the poses, the snapshot reaches every other member of
    the session's room whose socket is open, once, and nobody else; and
    it reaches them as the relay rebuilt it: the frame's [t] or else the
    time of arrival, the three poses the sanitizer returns, and the
    session's [clientId], whatever the frame says.  When the sanitizer
    throws on an axis, the session is stamped all the same, nothing is
    relayed and the sender is told "Invalid message format". *)
Theorem snapshot_relayed_as_sanitized env st ws client message :
  clients st !! ws = Some client →
  snapshot_frame message → has_poses message = true →
  rateLimited env client = false →
  (∀ head lh rh,
     sanitizePose StringToNumber ArrayToString (msg_head message)
     = Returned head →
     sanitizePose StringToNumber ArrayToString (msg_lh message)
     = Returned lh →
     sanitizePose StringToNumber ArrayToString (msg_rh message)
     = Returned rh →
     ∀ c,
       received c (step env st (Frame ws (Some message))).2
       = if decide (c ≠ ws ∧ isOpen env c = true
                    ∧ c ∈ members st (room client))
         then [SnapshotMsg
                 (mkSnapshot (or_else (msg_t message) (Num (of_Z (now env))))
                    head lh rh (clientId client))]
         else [])
  ∧ (poses_convert StringToNumber ArrayToString message = false →
     step env st (Frame ws (Some message))
     = (stamp st ws client (now env),
        sendError env ws "Invalid message format")).
Proof.
  intros Hc [Hv Ht] Hp Hr. split.
  - intros head lh rh Hhead Hlh Hrh c. rewrite RelayFacts.step_frame.
    rewrite RelayFacts.handleMessage_snapshot by done.
    unfold Relay.handleSnapshot, sanitizeSnapshot. rewrite Hc, Hr.
    unfold has_poses in Hp.
    destruct (truthy (msg_head message)), (truthy (msg_lh message)),
      (truthy (msg_rh message)); try done.
    rewrite Hhead, Hlh, Hrh.
    cbn [mbind mret Result_bind Result_ret fst snd negb orb snap_t snap_head
         snap_lh snap_rh].
    rewrite app_nil_r, received_broadcast.
    apply decide_ext.
    split; [intros (? & ? & ?)|intros (? & ? & ?)];
      (split; [congruence|done]).
  - intros Hconv.
    rewrite (RelayFacts.step_threw _ _ env st ws message
               (stamp st ws client (now env)) []); [done|].
    rewrite RelayFacts.handleMessage_snapshot by done.
    by apply RelayFacts.handleSnapshot_threw.
Qed.

(** ** Replies *)





(** ** A hello *)

(** X9.  A version-1 hello with a [clientId], in a state where sessions
    and rooms agree, gives the connection a new session ([clientId] and
    room of the frame, or room "default"; no snapshot time, so that the
    rate limit does not hold back its first snapshot whenever it
    arrives) and makes it a member of that room and of no other; the
    sessions and memberships of all other connections stay as they
    are. *)
Theorem hello_starts_afresh env st ws message :
  consistent st →
  is_one (msg_v message) = true →
  msg_type message = Str "hello" →
  truthy (msg_clientId message) = true →
  let st' := (step env st (Frame ws (Some message))).1 in
  let roomId := default "default"%string (msg_room message) in
  let session := mkClient (msg_clientId message) roomId (now env) None in
  clients st' !! ws = Some session
  ∧ (∀ env', rateLimited env' session = false)
  ∧ (∀ r, ws ∈ members st' r ↔ r = roomId)
  ∧ (∀ ws', ws' ≠ ws →
       clients st' !! ws' = clients st !! ws'
       ∧ ∀ r, ws' ∈ members st' r ↔ ws' ∈ members st r).
Proof.
  intros Hst Hv Ht Hcid st' roomId session. subst st'.
  rewrite RelayFacts.step_frame, RelayFacts.handleMessage_hello by done.
  cbn [fst].
  destruct (cleanupClient_consistent st ws Hst) as (_ & Hnone & Hout).
  assert (Hclients : clients (handleHello env st ws message).1.1
                     = <[ws := session]> (clients (cleanupClient st ws))).
  { by rewrite handleHello_state. }
  assert (Hclean : clients (cleanupClient st ws) = delete ws (clients st)).
  { unfold cleanupClient. destruct (clients st !! ws) eqn:E; [done|].
    symmetry. by apply delete_id. }
  split; [by rewrite Hclients, lookup_insert_eq|]. split; [done|]. split.
  - intros r. rewrite members_handleHello by done. fold roomId.
    case_decide as Hr; [set_solver|]. split; [|done].
    intros Hin. by apply Hout in Hin.
  - intros ws' Hne. split.
    + by rewrite Hclients, lookup_insert_ne, Hclean, lookup_delete_ne.
    + intros r. rewrite members_handleHello by done.
      assert (ws' ∈ members (cleanupClient st ws) r ↔ ws' ∈ members st r)
        as <- by (by apply cleanupClient_members).
      case_decide; set_solver.
Qed.

(** ** Liveness *)

Lemma handleSnapshot_lastPing env st ws ws' message :
  lastPing_of (handleSnapshot env st ws' message).1.1 ws = lastPing_of st ws.
Proof.
  unfold Relay.handleSnapshot, lastPing_of.
  destruct (clients st !! ws') as [client|] eqn:E; [|done].
  destruct (rateLimited env client); [done|].
  assert (lastPing <$>
            <[ws' := mkClient (clientId client) (room client)
                       (lastPing client) (Some (now env))]> (clients st)
              !! ws
          = lastPing <$> clients st !! ws) as Hsame.
  { rewrite lookup_insert. case_decide as Hw; [|done].
    subst ws'. by rewrite E. }
  by destruct (sanitizeSnapshot _ _ env message) as [[sanitized|]|].
Qed.

Lemma step_keeps_lastPing env st ev ws :
  quiet_for ws ev = true →
  lastPing_of (step env st ev).1 ws = lastPing_of st ws.
Proof.
  destruct ev as [ws' [message|]|ws']; [|done|].
  - rewrite RelayFacts.step_frame. cbn [fst quiet_for].
    unfold refreshes, Relay.handleMessage.
    destruct (is_one _); cbn [negb andb]; [|done].
    destruct (is_string _ "hello") eqn:Eh; cbn [andb orb].
    { destruct (truthy _) eqn:Hcid;
        [|unfold handleHello; by rewrite Hcid].
      rewrite andb_true_r. intros Hne%negb_true_iff%bool_decide_eq_false.
      unfold lastPing_of. by rewrite RelayFacts.handleHello_lookup. }
    destruct (is_string _ "snapshot");
      [intros _; apply handleSnapshot_lastPing|].
    destruct (is_string _ "event:plant");
      [by rewrite RelayFacts.handlePlantEvent_state|].
    destruct (is_string _ "pong"); [|done].
    rewrite andb_true_r. intros Hne%negb_true_iff%bool_decide_eq_false.
    unfold handlePong, lastPing_of. destruct (clients st !! ws'); [|done].
    cbn [fst clients]. by rewrite lookup_insert_ne.
  - cbn [quiet_for Relay.step].
    intros Hne%negb_true_iff%bool_decide_eq_false.
    unfold lastPing_of. by rewrite RelayFacts.handleDisconnect_lookup.
Qed.

Lemma run_keeps_lastPing ws trace : ∀ st,
  Forall (λ ee, quiet_for ws ee.2 = true) trace →
  lastPing_of (run st trace).1 ws = lastPing_of st ws.
Proof.
  induction trace as [|[env ev] trace IH]; intros st Hall; [done|].
  apply Forall_cons in Hall as [Hq Hall].
  by rewrite RelayFacts.run_step, IH, step_keeps_lastPing.
Qed.

Lemma heartbeat_reached now st sockets :
  (heartbeat now st sockets).1
  = omap (probe_of now st) (reached now st sockets).
Proof.
  induction sockets as [|ws sockets IH]; [done|].
  cbn [heartbeat reached]. unfold stops_at.
  destruct (clients st !! ws) as [client|] eqn:E.
  - assert (probe_of now st ws
            = Some (if 60000 <? now - lastPing client
                    then Terminate ws else Ping ws)) as Hp
      by (unfold probe_of, lastPing_of; by rewrite E).
    destruct (60000 <? now - lastPing client); cbn [andb].
    + destruct (unprintable _); [done|].
      destruct (heartbeat now st sockets) as [probes threw].
      cbn [omap list_omap fst] in *. by rewrite Hp, IH.
    + destruct (heartbeat now st sockets) as [probes threw].
      cbn [omap list_omap fst] in *. by rewrite Hp, IH.
  - assert (probe_of now st ws = None) as Hp
      by (unfold probe_of, lastPing_of; by rewrite E).
    cbn [omap list_omap]. by rewrite Hp.
Qed.

Lemma heartbeat_threw now st sockets :
  (heartbeat now st sockets).2 = true
  ↔ ∃ ws, ws ∈ sockets ∧ stops_at now st ws = true.
Proof.
  induction sockets as [|ws sockets IH].
  - split; [done|]. intros (ws & Hin & _). by apply elem_of_nil in Hin.
  - assert ((heartbeat now st (ws :: sockets)).2
            = stops_at now st ws || (heartbeat now st sockets).2) as ->.
    { cbn [heartbeat]. unfold stops_at.
      destruct (clients st !! ws) as [client|]; [|done].
      destruct (60000 <? now - lastPing client); cbn [andb].
      - destruct (unprintable _); [done|].
        by destruct (heartbeat now st sockets).
      - by destruct (heartbeat now st sockets). }
    rewrite orb_true_iff, IH. setoid_rewrite elem_of_cons. naive_solver.
Qed.

Lemma reached_all now st sockets :
  (∀ ws, ws ∈ sockets → stops_at now st ws = false) →
  reached now st sockets = sockets.
Proof.
  induction sockets as [|ws sockets IH]; [done|]. intros H.
  cbn [reached]. rewrite H by apply list_elem_of_here. f_equal.
  apply IH. intros ws' Hin. apply H. by apply list_elem_of_further.
Qed.

(** X10.  The heartbeat goes through the sockets in turn and stops, with
    an exception, at the first whose session is stale (its last
    liveness sign is more than 60 seconds old) and has a [clientId]
    that cannot be written to the log; the sockets after that one are
    neither pinged nor terminated.  Of the sockets it gets to, it
    terminates those with a stale session, pings those with a session
    that is not stale, and leaves those without a session alone; when
    no socket stops it, it gets to all.  The liveness sign of a session
    is moved by a hello or a pong of its own connection and by nothing
    else: after any events that are neither of these nor the close of
    the connection (its snapshots and plants, whatever the others do)
    the session is still there with the sign it had. *)
Theorem liveness_is_hello_and_pong now st sockets ws :
  (Terminate ws ∈ (heartbeat now st sockets).1
   ↔ ws ∈ reached now st sockets
     ∧ ∃ t, lastPing_of st ws = Some t ∧ 60000 < now - t)
  ∧ (Ping ws ∈ (heartbeat now st sockets).1
     ↔ ws ∈ reached now st sockets
       ∧ ∃ t, lastPing_of st ws = Some t ∧ now - t ≤ 60000)
  ∧ ((heartbeat now st sockets).2 = true
     ↔ ∃ ws', ws' ∈ sockets ∧ stops_at now st ws' = true)
  ∧ ((∀ ws', ws' ∈ sockets → stops_at now st ws' = false) →
     reached now st sockets = sockets)
  ∧ ∀ trace,
      Forall (λ ee, quiet_for ws ee.2 = true) trace →
      lastPing_of (run st trace).1 ws = lastPing_of st ws.
Proof.
  split; [|split; [|split; [|split]]].
  - rewrite heartbeat_reached, list_elem_of_omap. unfold probe_of. split.
    + intros (ws' & Hin & H).
      destruct (lastPing_of st ws') as [t|] eqn:Et; [|done].
      destruct (Z.ltb_spec 60000 (now - t)); [|done].
      injection H as <-. eauto.
    + intros (Hin & t & Ht & Hlt). exists ws. split; [done|]. rewrite Ht.
      destruct (Z.ltb_spec 60000 (now - t)); [done|lia].
  - rewrite heartbeat_reached, list_elem_of_omap. unfold probe_of. split.
    + intros (ws' & Hin & H).
      destruct (lastPing_of st ws') as [t|] eqn:Et; [|done].
      destruct (Z.ltb_spec 60000 (now - t)); [done|].
      injection H as <-. split; [done|]. exists t. split; [done|lia].
    + intros (Hin & t & Ht & Hle). exists ws. split; [done|]. rewrite Ht.
      destruct (Z.ltb_spec 60000 (now - t)); [lia|done].
  - apply heartbeat_threw.
  - apply reached_all.
  - intros trace. apply run_keeps_lastPing.
Qed.

End More.

Lemma sanitizePose_pose :
  ∃ sanitized, sanitizePose noNumber noText pose = Returned sanitized.
Proof. by eexists. Qed.


(** Connection 1, in room r1 as a, plants a rose and names itself
    someone else: connection 2 is told that a planted it, at the
    position and with the rotation the sanitizers return (1.2345 has
    become 1.235, and 0.2345 has become 0.235). *)
Lemma plant_event_relayed_witness :
  (step noNumber noText (at_ 50) two_in_r1 (Frame 1%nat (Some plant))).1
  = two_in_r1
  ∧ received 2%nat
      (step noNumber noText (at_ 50) two_in_r1 (Frame 1%nat (Some plant))).2
    = [PlantMsg (Str "a") (Str "rose")
         (mkVector3 (of_float 1.235) (Fin (-1000)) (Fin 1000))
         (mkQuaternion (of_float 0.235) (Fin 1) (of_float (-0.7)) (Fin 1))
         (Num (of_Z 50))].
Proof.
  destruct (plant_event_relayed noNumber noText (at_ 50) two_in_r1 1%nat
              session_a plant two_in_r1_session eq_refl eq_refl)
    as (Hst & Hok & _).
  split; [exact Hst|].
  rewrite (Hok eq_refl
             (mkVector3 (of_float 1.235) (Fin (-1000)) (Fin 1000))
             (mkQuaternion (of_float 0.235) (Fin 1) (of_float (-0.7)) (Fin 1))
             ltac:(vm_compute; reflexivity) ltac:(vm_compute; reflexivity)
             2%nat).
  apply decide_True.
  split; [lia|]. split; [done|]. apply two_in_r1_member.
Defined.

(** Connection 1 sends its first snapshot: connection 2 gets it with
    the poses sanitized and a as its [clientId]. *)
Lemma snapshot_relayed_as_sanitized_witness :
  let sanitized :=
    mkPose (mkVector3 (Fin 1) (Fin 2) (Fin 3))
           (mkQuaternion (Fin 0) (Fin 0) (Fin 0) (Fin 1)) in
  received 2%nat
    (step noNumber noText (at_ 50) two_in_r1 (Frame 1%nat (Some snapshot))).2
  = [SnapshotMsg
       (mkSnapshot (Num (of_Z 50)) sanitized sanitized sanitized (Str "a"))]
  ∧ received 3%nat
      (step noNumber noText (at_ 50) two_in_r1 (Frame 1%nat (Some snapshot))).2
    = [].
Proof.
  intros sanitized.
  assert (snapshot_frame snapshot) as Hframe by (by split).
  destruct (snapshot_relayed_as_sanitized noNumber noText (at_ 50)
              two_in_r1 1%nat session_a snapshot two_in_r1_session
              Hframe eq_refl eq_refl) as [Hrecv _].
  assert (sanitizePose noNumber noText pose = Returned sanitized) as Hpose
    by (vm_compute; reflexivity).
  split.
  - rewrite (Hrecv sanitized sanitized sanitized Hpose Hpose Hpose 2%nat).
    apply decide_True.
    split; [lia|]. split; [done|]. apply two_in_r1_member.
  - rewrite (Hrecv sanitized sanitized sanitized Hpose Hpose Hpose 3%nat).
    apply decide_False. intros (_ & _ & Hin).
    revert Hin. apply (bool_decide_unpack _). vm_compute. exact I.
Defined.


(** The first hello of connection 1. *)
Lemma hello_starts_afresh_witness :
  clients (step noNumber noText (at_ 5) initial
             (Frame 1%nat (Some (hello "a" "r1")))).1 !! 1%nat
  = Some session_a
  ∧ ∀ r, (1%nat : conn)
           ∈ members (step noNumber noText (at_ 5) initial
                        (Frame 1%nat (Some (hello "a" "r1")))).1 r
         ↔ r = "r1"%string.
Proof.
  destruct (hello_starts_afresh noNumber noText (at_ 5) initial 1%nat
              (hello "a" "r1") initial_consistent eq_refl eq_refl eq_refl)
    as (Hsession & _ & Hroom & _).
  split; [exact Hsession|exact Hroom].
Defined.

(** Connection 1 said hello at 5 and has only sent a snapshot since, at
    50000: the heartbeat of 60006 terminates it. *)
Lemma liveness_is_hello_and_pong_witness :
  let st :=
    (run noNumber noText two_in_r1
       [(at_ 50000, Frame 1%nat (Some snapshot))]).1 in
  lastPing_of st 1%nat = Some 5
  ∧ Terminate 1%nat ∈ (heartbeat 60006 st [1%nat; 2%nat]).1.
Proof.
  intros st.
  destruct (liveness_is_hello_and_pong noNumber noText 60006 two_in_r1
              [1%nat; 2%nat] 1%nat) as (_ & _ & _ & _ & Hquiet).
  destruct (liveness_is_hello_and_pong noNumber noText 60006 st
              [1%nat; 2%nat] 1%nat) as (Hterm & _ & _ & Hall & _).
  assert (lastPing_of st 1%nat = Some 5) as Hsign.
  { unfold st. rewrite Hquiet by repeat constructor.
    vm_compute. reflexivity. }
  split; [exact Hsign|].
  apply Hterm. rewrite Hall.
  - split; [apply list_elem_of_here|]. exists 5. split; [exact Hsign|lia].
  - intros ws' Hin.
    repeat (apply elem_of_cons in Hin as [->|Hin]; [vm_compute; reflexivity|]).
    by apply elem_of_nil in Hin.
Defined.

End RelayMore.
(** * More facts about the transport *)

Module TransportMore.
Import Transport TransportFacts.

Section More.

Variable Message : Type.
Variable JSON_stringify : Message → string.
Variable throws : string → bool.

Abbreviation send := (Transport.send Message JSON_stringify throws).
Abbreviation send_all := (Transport.send_all Message JSON_stringify throws).
Abbreviation flush := (Transport.flush throws).
Abbreviation step := (Transport.step Message JSON_stringify throws).
Abbreviation run := (Transport.run Message JSON_stringify throws).
Abbreviation feasible := (Transport.feasible Message JSON_stringify throws).

Lemma run_app calls1 calls2 : ∀ t,
  run t (calls1 ++ calls2)
  = ((run (run t calls1).1 calls2).1,
     (run t calls1).2 ++ (run (run t calls1).1 calls2).2).
Proof.
  induction calls1 as [|c calls1 IH]; intros t; simpl.
  - by destruct (run t calls2).
  - destruct (step t c) as [t1 e1]. rewrite IH.
    destruct (run t1 calls1) as [t2 e2]. simpl.
    destruct (run t2 calls2) as [t3 e3]. simpl. by rewrite app_assoc.
Qed.

Lemma run_cons c calls t :
  run t (c :: calls)
  = ((run (step t c).1 calls).1, (step t c).2 ++ (run (step t c).1 calls).2).
Proof.
  change (run t (c :: calls))
    with (let '(t', effects) := step t c in
          let '(t'', effects') := run t' calls in (t'', effects ++ effects')).
  destruct (step t c) as [t1 e1]. cbn [fst snd].
  destruct (run t1 calls). reflexivity.
Qed.

Lemma run_sends messages : ∀ t t' results,
  send_all t messages = Some (t', results) →
  run t (Send <$> messages) = (t', []).
Proof.
  induction messages as [|message messages IH]; intros t t' results.
  - by intros [= -> _].
  - rewrite fmap_cons, run_cons. cbn [Transport.send_all Transport.step].
    destruct (send t message) as [[t1 r]|]; [|done].
    destruct (send_all t1 messages) as [[t2 rs]|] eqn:E; [|done].
    intros [= -> _]. cbn [fst snd]. by rewrite (IH _ _ _ E).
Qed.

(** ** Connecting *)

(** X11.  [connect] does nothing on a transport that is connecting or
    connected; and once it has been called, whether or not the socket
    could be made, calling it again does nothing: no second socket is
    made, no timer is set. *)
Theorem connect_only_once t constructs again :
  (isConnecting t || isConnected t = true → connect constructs t = (t, []))
  ∧ connect again (connect constructs t).1 = ((connect constructs t).1, []).
Proof.
  split.
  - intros H. unfold connect. by rewrite H.
  - assert (isConnecting (connect constructs t).1
            || isConnected (connect constructs t).1 = true) as H.
    { unfold connect. destruct (isConnecting t || isConnected t) eqn:E;
        [exact E|]. destruct constructs; [done|].
      unfold scheduleReconnect. by destruct (_ <=? _)%nat. }
    generalize dependent (connect constructs t).1. intros t1 H.
    unfold connect. by rewrite H.
Qed.

Lemma attempt_does_nothing t c :
  isConnecting t = true → attempt c = true →
  (step t c).2 = [] ∧ ws (step t c).1 = ws t
  ∧ isConnecting (step t c).1 = true
  ∧ messageQueue (step t c).1 = messageQueue t.
Proof.
  intros Hc Ha. destruct c; try done; simpl.
  - unfold connect. by rewrite Hc.
  - unfold onReconnectTimer, connect. simpl. by rewrite Hc.
Qed.

(** X12.  When [new WebSocket] throws, [connect] sets the reconnect
    timer with the delay of the attempts made, and leaves [isConnecting]
    set.  So when that timer fires, the [connect] it calls returns at
    once: from then on, whatever timers fire and however often the owner
    calls [connect], no socket is made, no timer is set and nothing is
    emitted. *)
Theorem failed_constructor_ends_reconnecting t calls :
  isConnecting t = false → isConnected t = false →
  (reconnectAttempts t < maxReconnectAttempts t)%nat →
  Forall (λ c, attempt c = true) calls →
  (connect false t).2 = [SetTimeout (backoff t (reconnectAttempts t))]
  ∧ (run (connect false t).1 calls).2 = []
  ∧ ws (run (connect false t).1 calls).1 = ws t
  ∧ isConnecting (run (connect false t).1 calls).1 = true.
Proof.
  intros Hc Hd Hlt Hall.
  assert (connect false t
          = (with_timer (with_flags t true (isConnected t))
               (Some (backoff t (reconnectAttempts t))),
             [SetTimeout (backoff t (reconnectAttempts t))])) as ->.
  { unfold connect. rewrite Hc, Hd. simpl.
    by rewrite scheduleReconnect_below. }
  split; [done|]. simpl.
  set (t1 := with_timer _ _).
  assert (isConnecting t1 = true) as H1 by done.
  change (ws t) with (ws t1). clearbody t1. clear Hc Hd Hlt t.
  revert t1 H1. induction Hall as [|c calls Ha Hall IH]; intros t H1; [done|].
  simpl. destruct (attempt_does_nothing t c H1 Ha) as (He & Hws & Hc & _).
  destruct (step t c) as [t1 e1]. simpl in *. subst e1.
  destruct (IH t1 Hc) as (He' & Hws' & Hc').
  destruct (run t1 calls) as [t2 e2]. simpl in *. by rewrite <- Hws.
Qed.

(** ** Disconnecting *)

(** X13.  [disconnect] leaves the transport without socket and without
    timer, neither connected nor connecting, with an empty queue; it
    clears the timer exactly when one was pending and closes the socket
    exactly when there was one and it was open, and it emits nothing.
    What was queued is dropped for good: when the owner connects again
    and the new socket opens, nothing is handed to it. *)
Theorem disconnect_forgets_the_queue t :
  let t' := (disconnect t).1 in
  let effects := (disconnect t).2 in
  t' = mkTransport None false false (reconnectAttempts t)
         (maxReconnectAttempts t) (reconnectDelay t) (maxReconnectDelay t)
         [] (maxQueueSize t) None
  ∧ (ClearTimeout ∈ effects ↔ is_Some (reconnectTimer t))
  ∧ (CloseSocket ∈ effects ↔ ∃ sock, ws t = Some sock ∧ is_OPEN sock = true)
  ∧ (∀ e, e ∈ effects → e = ClearTimeout ∨ e = CloseSocket)
  ∧ ws (run t [Disconnect; Connect true; SocketOpen]).1
    = Some (mkWebSocket OPEN []).
Proof.
  intros t' effects. subst t' effects.
  destruct t as [s connecting connected attempts maxAttempts delay maxDelay
                   queue maxQueue timer].
  destruct timer as [d|], s as [[[] sent]|]; cbn.
  all: split; [reflexivity|].
  all: split;
    [rewrite ?elem_of_cons, ?elem_of_nil, is_Some_alt; naive_solver|].
  all: split;
    [rewrite ?elem_of_cons, ?elem_of_nil; split;
       [naive_solver|intros (sock & Hsock & Hopen); naive_solver]|].
  all: split; [intros e; rewrite ?elem_of_cons, ?elem_of_nil; naive_solver|].
  all: reflexivity.
Qed.

(** ** Sending while connected *)

Lemma send_connected t sock message :
  isConnected t = true → ws t = Some sock → is_OPEN sock = true →
  send t message
  = Some (if throws (JSON_stringify message)
          then (queueMessage t (JSON_stringify message), false)
          else (with_ws t
                  (Some (mkWebSocket (readyState sock)
                           (transmitted sock ++ [JSON_stringify message]))),
                true)).
Proof.
  intros Hc Hws Hopen. unfold Transport.send. rewrite Hc, Hws, Hopen.
  simpl. by destruct (throws _).
Qed.

(** X14.  On a connected transport whose socket is open, [send] hands
    each text to the socket and returns true, or, when the socket's
    [send] throws, queues the text and returns false.  So of a series of
    messages the socket takes those on which it does not throw, in the
    order sent, and the queue takes the others (the newest
    [maxQueueSize] of them); the rest of the transport stays as it
    is. *)
Theorem connected_send_transmits messages : ∀ t sock,
  bounded t → isConnected t = true → ws t = Some sock →
  is_OPEN sock = true →
  send_all t messages
  = Some
      (with_queue
         (with_ws t
            (Some (mkWebSocket (readyState sock)
                     (transmitted sock
                      ++ filter (λ text, throws text = false)
                           (JSON_stringify <$> messages)))))
         (newest (maxQueueSize t)
            (messageQueue t
             ++ filter (λ text, throws text = true)
                  (JSON_stringify <$> messages))),
       (λ message, negb (throws (JSON_stringify message))) <$> messages).
Proof.
  induction messages as [|message messages IH]; intros t sock Hb Hc Hws Hopen.
  - rewrite !fmap_nil, !filter_nil, !app_nil_r, newest_all by apply Hb.
    destruct t, sock; unfold with_queue, with_ws; simpl in *. by subst.
  - cbn [Transport.send_all]. rewrite (send_connected t sock) by done.
    rewrite !fmap_cons.
    destruct (throws (JSON_stringify message)) eqn:Ht.
    + rewrite (IH (queueMessage t (JSON_stringify message)) sock);
        [|by apply queueMessage_bounded|exact Hc|exact Hws|exact Hopen].
      rewrite (filter_cons_True (λ text, throws text = true)) by done.
      rewrite (filter_cons_False (λ text, throws text = false))
        by (by rewrite Ht).
      rewrite queueMessage_newest by done.
      change (maxQueueSize (queueMessage t (JSON_stringify message)))
        with (maxQueueSize t).
      rewrite newest_app, <- app_assoc. done.
    + assert (is_OPEN (mkWebSocket (readyState sock)
                         (transmitted sock ++ [JSON_stringify message]))
              = true) as Hopen' by done.
      rewrite (IH (with_ws t (Some (mkWebSocket (readyState sock)
                     (transmitted sock ++ [JSON_stringify message]))))
                 _ Hb Hc eq_refl Hopen').
      rewrite (filter_cons_True (λ text, throws text = false)) by done.
      rewrite (filter_cons_False (λ text, throws text = true))
        by (by rewrite Ht).
      cbn [readyState transmitted]. rewrite <- app_assoc. done.
Qed.

(** ** Outages *)

Lemma send_all_queues messages : ∀ t,
  isConnected t = false → bounded t →
  send_all t messages
  = Some (with_queue t
            (newest (maxQueueSize t)
               (messageQueue t ++ (JSON_stringify <$> messages))),
          (λ _, false) <$> messages).
Proof.
  induction messages as [|message messages IH]; intros t Hd Hb; simpl.
  - rewrite app_nil_r, newest_all by apply Hb. by destruct t.
  - rewrite send_disconnected by done.
    rewrite IH; [|done|by apply queueMessage_bounded].
    rewrite queueMessage_newest by done.
    change (maxQueueSize (queueMessage t (JSON_stringify message)))
      with (maxQueueSize t).
    by rewrite newest_app, <- app_assoc.
Qed.

(** X15.  Messages sent during an outage arrive after it.  The socket
    closes; the messages sent from then on are queued; a new socket is
    made, by the reconnect timer after a close with a code other than
    1000 and by the owner's [connect] after a clean close, which sets no
    timer; when the new socket opens, it is handed the newest
    [maxQueueSize] texts of the queue in the order sent, the queue is
    empty, and the count of attempts is back at 0.  Here no [send] of
    the socket throws. *)
Theorem queued_during_outage_sent_on_reopen t code messages :
  bounded t →
  (code ≠ 1000 → (reconnectAttempts t < maxReconnectAttempts t)%nat) →
  Forall (λ text, throws text = false)
    (messageQueue t ++ (JSON_stringify <$> messages)) →
  let reconnect :=
    if decide (code = 1000) then Connect true else TimerFires true in
  let calls :=
    SocketClose code :: (Send <$> messages) ++ [reconnect; SocketOpen] in
  ws (run t calls).1
  = Some (mkWebSocket OPEN
            (newest (maxQueueSize t)
               (messageQueue t ++ (JSON_stringify <$> messages))))
  ∧ messageQueue (run t calls).1 = []
  ∧ isConnected (run t calls).1 = true
  ∧ reconnectAttempts (run t calls).1 = 0%nat
  ∧ (run t calls).2
    = Emit "close"
      :: (if decide (code = 1000) then []
          else [SetTimeout (backoff t (reconnectAttempts t))])
      ++ [Emit "open"].
Proof.
  intros Hb Hlt Hall reconnect calls. subst calls.
  set (texts := JSON_stringify <$> messages) in *.
  set (queue := newest (maxQueueSize t) (messageQueue t ++ texts)).
  assert (Forall (λ text, throws text = false) queue) as Hqueue
    by (by apply Forall_drop).
  rewrite run_cons.
  (* the close *)
  assert (∃ t1 e1,
            step t (SocketClose code) = (t1, Emit "close" :: e1)
            ∧ isConnecting t1 = false ∧ isConnected t1 = false
            ∧ messageQueue t1 = messageQueue t
            ∧ maxQueueSize t1 = maxQueueSize t
            ∧ reconnectAttempts t1 = reconnectAttempts t
            ∧ e1 = (if decide (code = 1000) then []
                    else [SetTimeout (backoff t (reconnectAttempts t))]))
    as (t1 & e1 & -> & Hc1 & Hd1 & Hq1 & Hm1 & Ha1 & He1).
  { simpl. unfold onClose. destruct (code =? 1000) eqn:E.
    - apply Z.eqb_eq in E. eexists _, _. rewrite decide_True by done. done.
    - apply Z.eqb_neq in E. rewrite decide_False by done.
      rewrite scheduleReconnect_below by (by apply Hlt).
      eexists _, _. done. }
  assert (bounded t1) as Hb1 by (unfold bounded; by rewrite Hq1, Hm1).
  cbn [fst snd]. rewrite run_app.
  rewrite (run_sends messages t1 _ _ (send_all_queues messages t1 Hd1 Hb1)).
  cbn [fst snd]. rewrite Hq1, Hm1. fold texts. fold queue.
  set (t2 := with_queue t1 queue).
  rewrite (run_cons reconnect), (run_cons SocketOpen).
  assert (∃ t3, step t2 reconnect = (t3, [])
                ∧ ws t3 = Some (mkWebSocket CONNECTING [])
                ∧ messageQueue t3 = queue) as (t3 & -> & Hws3 & Hq3).
  { subst reconnect. destruct (decide (code = 1000)); simpl.
    - unfold connect. simpl. rewrite Hc1, Hd1. simpl. eauto.
    - unfold onReconnectTimer, connect. simpl. rewrite Hc1, Hd1. simpl.
      eauto. }
  cbn [fst snd Transport.run Transport.step].
  unfold Transport.onOpen, Transport.flushQueue, socket_becomes.
  simpl. rewrite Hws3, Hq3. simpl.
  rewrite flush_all by done. simpl. subst e1.
  repeat split.
Qed.

(** X16.  Once a socket has opened, the back-off starts over: the
    attempts made are counted from 0 again and the delay is reset to
    1000, so that the first timer after the next abnormal close waits
    1000ms (or [maxReconnectDelay], if that is less), however many
    attempts had failed before. *)
Theorem open_restarts_the_backoff t code :
  code ≠ 1000 → (0 < maxReconnectAttempts t)%nat →
  reconnectAttempts (step t SocketOpen).1 = 0%nat
  ∧ reconnectDelay (step t SocketOpen).1 = 1000
  ∧ (step (step t SocketOpen).1 (SocketClose code)).2
    = [Emit "close"; SetTimeout (Z.min 1000 (maxReconnectDelay t))].
Proof.
  intros Hcode Hmax.
  assert (reconnectAttempts (step t SocketOpen).1 = 0%nat
          ∧ reconnectDelay (step t SocketOpen).1 = 1000
          ∧ maxReconnectAttempts (step t SocketOpen).1
            = maxReconnectAttempts t
          ∧ maxReconnectDelay (step t SocketOpen).1 = maxReconnectDelay t)
    as (Ha & Hd & Hm & Hmd).
  { simpl. unfold Transport.onOpen, Transport.flushQueue. simpl.
    by destruct (Transport.flush _ _ _). }
  split; [done|]. split; [done|].
  destruct (step t SocketOpen) as [t1 e1]. simpl in *.
  unfold onClose. apply Z.eqb_neq in Hcode. rewrite Hcode.
  rewrite scheduleReconnect_below by (simpl; lia).
  unfold backoff. simpl. rewrite Ha, Hd, Hmd. simpl. done.
Qed.

(** ** The transport as its owner sees it *)

Lemma flush_socket queue : ∀ s, is_Some s → is_Some (flush s queue).1.
Proof.
  induction queue as [|text queue IH]; intros s Hs; [done|]. simpl.
  destruct (Transport.ws_send throws s text) eqn:E; [|done].
  by apply IH.
Qed.

Lemma step_sound t c : sound t → possible t c = true → sound (step t c).1.
Proof.
  intros (Hws & Hflags & Hb) Hp.
  split; [|split; [|by apply step_bounded]]; clear Hb.
  all: destruct t as [s connecting connected attempts maxAttempts delay
                        maxDelay queue maxQueue timer];
    simpl in Hws, Hflags.
  all: destruct c; cbn [Transport.step possible] in *.
  all: unfold connect, disconnect, Transport.send, onClose, onError,
         onMessage, onReconnectTimer, scheduleReconnect, Transport.ws_send,
         queueMessage, Transport.onOpen, Transport.flushQueue,
         socket_becomes;
    unfold connect, scheduleReconnect;
    cbn -[Transport.flush].
  all: repeat (case_match; cbn -[Transport.flush] in *; simplify_eq);
    try done; eauto.
  all: try (intros; by apply Hws).
  all: try (intros; by apply Hflags).
  all: try (intros ->; by destruct connecting).
  apply bool_decide_eq_true in Hp as [sock ->]. simpl in *.
  intros _.
  match goal with H : Transport.flush _ ?s ?q = _ |- _ =>
    pose proof (flush_socket q s) as Hf; rewrite H in Hf end.
  apply Hf. done.
Qed.

Lemma run_sound calls : ∀ t,
  sound t → feasible t calls = true → sound (run t calls).1.
Proof.
  induction calls as [|c calls IH]; intros t Ht Hf; [done|].
  simpl in *. apply andb_true_iff in Hf as [Hp Hf].
  pose proof (step_sound t c Ht Hp) as H1.
  destruct (step t c) as [t1 e1]. simpl in *.
  specialize (IH t1 H1 Hf). by destruct (run t1 calls).
Qed.

Lemma step_maxQueueSize t c : maxQueueSize (step t c).1 = maxQueueSize t.
Proof.
  destruct t as [s connecting connected attempts maxAttempts delay maxDelay
                   queue maxQueue timer].
  destruct c; cbn [Transport.step].
  all: unfold connect, disconnect, Transport.send, onClose, onError,
         onMessage, onReconnectTimer, scheduleReconnect, Transport.ws_send,
         queueMessage, Transport.onOpen, Transport.flushQueue,
         socket_becomes;
    unfold connect, scheduleReconnect;
    cbn -[Transport.flush].
  all: repeat (case_match; cbn -[Transport.flush] in *; simplify_eq);
    done.
Qed.

Lemma run_maxQueueSize calls : ∀ t,
  maxQueueSize (run t calls).1 = maxQueueSize t.
Proof.
  induction calls as [|c calls IH]; intros t; [done|].
  rewrite run_cons. cbn [fst]. by rewrite IH, step_maxQueueSize.
Qed.

(** X17.  Whatever has happened to a new transport (calls of its owner,
    events of the socket it listens to, its timer firing), [send] does
    not throw: it returns true or false.  For the transport is never
    connected without a socket.  Nor is it ever connected and connecting
    at once, and the queue length that [getConnectionState] reports is
    never above 100. *)
Theorem send_never_throws calls message :
  feasible constructor calls = true →
  let t := (run constructor calls).1 in
  is_Some (send t message)
  ∧ ¬ (cs_isConnected (getConnectionState t) = true
       ∧ cs_isConnecting (getConnectionState t) = true)
  ∧ (cs_queuedMessages (getConnectionState t) ≤ 100)%nat.
Proof.
  intros Hf t.
  assert (sound constructor) as H0.
  { split; [done|]. split; [done|]. split; simpl; lia. }
  assert (maxQueueSize t = 100%nat) as Hmax
    by (subst t; by rewrite run_maxQueueSize).
  destruct (run_sound calls constructor H0 Hf) as (Hws & Hflags & Hb).
  fold t in Hws, Hflags, Hb. split; [|split].
  - unfold Transport.send. destruct (isConnected t) eqn:E; [|done].
    destruct (Hws eq_refl) as [sock ->].
    destruct (is_OPEN sock); [|done]. simpl. by destruct (throws _).
  - simpl. intros [H1 H2]. rewrite Hflags in H2; done.
  - simpl. destruct Hb as [_ Hb]. lia.
Qed.

End More.

(** ** Listeners *)

Lemma called_emit fails l event :
  called (emit fails l event) = registered l event.
Proof.
  unfold emit, registered. destruct (l !! event) as [callbacks|]; [|done].
  simpl. induction callbacks as [|c callbacks IH]; [done|]. simpl.
  destruct (fails c); simpl; by rewrite IH.
Qed.

Lemma registered_on l event callback event' :
  registered (on l event callback) event'
  = if decide (event = event') then registered l event ++ [callback]
    else registered l event'.
Proof.
  unfold registered, on. rewrite lookup_insert.
  by destruct (decide (event = event')) as [<-|].
Qed.





(** X18.  [emit] calls the callbacks registered for the event, each as
    often as it was registered, in the order of registration, and goes
    on to the next when one throws; [on] puts a callback last in that
    order and leaves the other events alone. *)
Theorem emit_calls_in_order_of_registration fails l event callback event' :
  called (emit fails l event') = registered l event'
  ∧ called (emit fails (on l event callback) event')
    = if decide (event = event')
      then called (emit fails l event) ++ [callback]
      else called (emit fails l event').
Proof.
  rewrite !called_emit, registered_on. split; [done|].
  destruct (decide (event = event')); by rewrite ?called_emit.
Qed.


(** ** Instances *)

(** The constructor throws on a new transport: a timer of 1000ms, and
    nothing comes of it. *)
Lemma failed_constructor_ends_reconnecting_witness :
  (connect false constructor).2 = [SetTimeout 1000]
  ∧ (Transport.run string id accepts_all (connect false constructor).1
       [TimerFires true; Connect true; TimerFires true]).2 = []
  ∧ ws (Transport.run string id accepts_all (connect false constructor).1
          [TimerFires true; Connect true; TimerFires true]).1 = None.
Proof.
  destruct (failed_constructor_ends_reconnecting string id accepts_all
              constructor [TimerFires true; Connect true; TimerFires true])
    as (Htimer & Heffects & Hws & _).
  - reflexivity.
  - reflexivity.
  - simpl. lia.
  - repeat constructor.
  - split; [exact Htimer|]. split; [exact Heffects|exact Hws].
Defined.

(** Three texts, of which the socket refuses the second. *)
Lemma connected_send_transmits_witness :
  Transport.send_all string id refuses_b connected_transport
    ["a"; "b"; "c"]%string
  = Some (mkTransport (Some (mkWebSocket OPEN ["a"; "c"]%string)) false true
            0 10 1000 30000 ["b"%string] 100 None,
          [true; false; true]).
Proof.
  rewrite (connected_send_transmits string id refuses_b
             ["a"; "b"; "c"]%string connected_transport
             (mkWebSocket OPEN [])).
  - reflexivity.
  - split; simpl; lia.
  - reflexivity.
  - reflexivity.
  - reflexivity.
Defined.

(** The connection is lost, two messages are sent, the timer fires and
    the new socket opens. *)
Lemma queued_during_outage_sent_on_reopen_witness :
  ws (Transport.run string id accepts_all connected_transport
        [SocketClose 1006; Send "a"%string; Send "b"%string;
         TimerFires true; SocketOpen]).1
  = Some (mkWebSocket OPEN ["a"; "b"]%string)
  ∧ (Transport.run string id accepts_all connected_transport
       [SocketClose 1006; Send "a"%string; Send "b"%string;
        TimerFires true; SocketOpen]).2
    = [Emit "close"; SetTimeout 1000; Emit "open"].
Proof.
  destruct (queued_during_outage_sent_on_reopen string id accepts_all
              connected_transport 1006 ["a"; "b"]%string)
    as (Hws & _ & _ & _ & Heffects).
  - split; simpl; lia.
  - intros _. simpl. lia.
  - repeat constructor.
  - split; [exact Hws|exact Heffects].
Defined.

(** Seven attempts had failed before the socket opened. *)
Lemma open_restarts_the_backoff_witness :
  (Transport.step string id accepts_all
     (Transport.step string id accepts_all
        (with_attempts connected_transport 7) SocketOpen).1
     (SocketClose 1006)).2
  = [Emit "close"; SetTimeout 1000].
Proof.
  destruct (open_restarts_the_backoff string id accepts_all
              (with_attempts connected_transport 7) 1006)
    as (_ & _ & Heffects).
  - lia.
  - simpl. lia.
  - exact Heffects.
Defined.

(** A send after the connection was lost and the timer has made a new
    socket. *)
Lemma send_never_throws_witness :
  is_Some
    (Transport.send string id accepts_all
       (Transport.run string id accepts_all constructor
          [Connect true; SocketOpen; Send "a"%string; SocketClose 1006;
           TimerFires true]).1
       "b"%string).
Proof.
  destruct (send_never_throws string id accepts_all
              [Connect true; SocketOpen; Send "a"%string; SocketClose 1006;
               TimerFires true]
              "b"%string) as (Hsend & _).
  - reflexivity.
  - exact Hsend.
Defined.


End TransportMore.
(** * More facts about the client system *)

Module SyncMore.
Import JS Sync SyncFacts.

(** ** The map *)

Lemma SameValueZero_sym a b : SameValueZero a b = SameValueZero b a.
Proof.
  destruct a as [| |p|[p| | |]|s| |], b as [| |q|[q| | |]|s'| |]; simpl;
    try done.
  - by destruct p, q.
  - apply eq_true_iff_eq. rewrite !Qeq_bool_iff. split; intros H; by symmetry.
  - by rewrite String.eqb_sym.
Qed.

Lemma SameValueZero_trans a b c :
  SameValueZero a b = true → SameValueZero b c = true →
  SameValueZero a c = true.
Proof.
  destruct a as [| |p|[p| | |]|s| |], b as [| |q|[q| | |]|s'| |],
    c as [| |r|[r| | |]|s''| |]; simpl; try done.
  - destruct p, q, r; done.
  - rewrite !Qeq_bool_iff. intros H1 H2. by rewrite H1.
  - rewrite !String.eqb_eq. congruence.
Qed.

Lemma Map_get_None (m : PlayerMap) k :
  Map_get m k = None ↔ ∀ k' e, (k', e) ∈ m → SameValueZero k' k = false.
Proof.
  unfold Map_get. induction m as [|[k0 e0] m IH]; simpl.
  - split; [|done]. intros _ k' e. by rewrite elem_of_nil.
  - destruct (SameValueZero k0 k) eqn:E; simpl.
    + split; [done|]. intros H. specialize (H k0 e0 ltac:(left)). congruence.
    + rewrite IH. split.
      * intros H k' e. rewrite elem_of_cons. intros [[= -> ->]|Hin]; eauto.
      * intros H k' e Hin. apply (H k' e). by right.
Qed.

Lemma Map_get_Some (m : PlayerMap) k e :
  Map_get m k = Some e → ∃ k', (k', e) ∈ m ∧ SameValueZero k' k = true.
Proof.
  unfold Map_get. induction m as [|[k0 e0] m IH]; simpl; [done|].
  destruct (SameValueZero k0 k) eqn:E; simpl.
  - intros [= ->]. exists k0. split; [left|done].
  - intros H. destruct (IH H) as (k' & Hin & Hk). exists k'.
    split; [by right|done].
Qed.

Lemma Map_set_new (m : PlayerMap) k v :
  Map_get m k = None → Map_set m k v = m ++ [(k, v)].
Proof.
  unfold Map_get. induction m as [|[k0 e0] m IH]; simpl; [done|].
  destruct (SameValueZero k0 k); simpl; [done|]. intros H. by rewrite IH.
Qed.

Lemma Map_get_set (m : PlayerMap) k v :
  SameValueZero k k = true → Map_get (Map_set m k v) k = Some v.
Proof.
  intros Hk. unfold Map_get. induction m as [|[k0 e0] m IH]; simpl.
  - by rewrite Hk.
  - destruct (SameValueZero k0 k) eqn:E; simpl; by rewrite E.
Qed.

Lemma elem_of_Map_delete_iff (m : PlayerMap) k kv :
  kv ∈ Map_delete m k ↔ kv ∈ m ∧ SameValueZero kv.1 k = false.
Proof.
  unfold Map_delete. rewrite !list_elem_of_In, filter_In.
  by rewrite negb_true_iff.
Qed.

Lemma Map_get_delete (m : PlayerMap) k : Map_get (Map_delete m k) k = None.
Proof.
  apply Map_get_None. intros k' e Hin.
  by apply elem_of_Map_delete_iff in Hin as [_ H].
Qed.

Lemma distinct_keys_app (m : PlayerMap) k v :
  distinct_keys m → (∀ k' e, (k', e) ∈ m → SameValueZero k' k = false) →
  distinct_keys (m ++ [(k, v)]).
Proof.
  induction m as [|[k0 e0] m IH]; simpl.
  - intros _ _. split; [|done]. intros k' e'. by rewrite elem_of_nil.
  - intros [H0 Hm] Hk. split.
    + intros k' e'. rewrite elem_of_app, list_elem_of_singleton.
      intros [Hin|[= -> ->]]; [by apply (H0 k' e')|].
      apply (Hk k0 e0). left.
    + apply IH; [done|]. intros k' e Hin. apply (Hk k' e). by right.
Qed.

Lemma distinct_keys_delete (m : PlayerMap) k :
  distinct_keys m → distinct_keys (Map_delete m k).
Proof.
  unfold Map_delete. induction m as [|[k0 e0] m IH]; simpl; [done|].
  intros [H0 Hm]. destruct (negb (SameValueZero k0 k)); simpl; [|by apply IH].
  split; [|by apply IH]. intros k' e'.
  rewrite list_elem_of_In, filter_In, <- list_elem_of_In.
  intros [Hin _]. by apply (H0 k' e').
Qed.

Lemma distinct_keys_elem (m : PlayerMap) k e k' e' :
  distinct_keys m → (k, e) ∈ m → (k', e') ∈ m → e ≠ e' →
  SameValueZero k k' = false.
Proof.
  induction m as [|[k0 e0] m IH]; simpl; [by rewrite elem_of_nil|].
  intros [H0 Hm]. rewrite !elem_of_cons.
  intros [H|Hin] [H'|Hin'] Hne; simplify_eq; try done.
  - by apply (H0 k' e').
  - rewrite SameValueZero_sym. by apply (H0 k e).
  - by apply IH.
Qed.

Lemma NoDup_snd_elem (m : PlayerMap) k k' e :
  NoDup m.*2 → (k, e) ∈ m → (k', e) ∈ m → k = k'.
Proof.
  induction m as [|[k0 e0] m IH]; simpl; [by rewrite elem_of_nil|].
  rewrite NoDup_cons, !elem_of_cons.
  intros [Hnot Hm] [H|Hin] [H'|Hin']; simplify_eq; try done.
  - destruct Hnot. apply list_elem_of_fmap. by exists (k', e0).
  - destruct Hnot. apply list_elem_of_fmap. by exists (k, e0).
  - by apply IH.
Qed.

Lemma NoDup_snd_delete (m : PlayerMap) k :
  NoDup m.*2 → NoDup (Map_delete m k).*2.
Proof.
  unfold Map_delete. induction m as [|[k0 e0] m IH]; simpl; [done|].
  rewrite NoDup_cons. intros [Hnot Hm].
  destruct (negb (SameValueZero k0 k)); simpl; [|by apply IH].
  rewrite NoDup_cons. split; [|by apply IH]. intros Hin. destruct Hnot.
  apply list_elem_of_fmap in Hin as ([k1 e1] & -> & Hin).
  apply list_elem_of_In, filter_In in Hin as [Hin _].
  apply list_elem_of_fmap. exists (k1, e1). split; [done|].
  by apply list_elem_of_In.
Qed.

(** ** The world *)

Lemma lookup_foldl_remove ents : ∀ w ent,
  entityList (foldl remove w ents) !! ent
  = if decide (ent ∈ ents) then None else entityList w !! ent.
Proof.
  induction ents as [|e ents IH]; intros w ent; cbn [foldl].
  - rewrite decide_False; [done|]. apply not_elem_of_nil.
  - rewrite IH. cbn [remove entityList].
    destruct (decide (ent ∈ ents)) as [Hin|Hnot].
    + rewrite decide_True; [done|]. by right.
    + rewrite lookup_delete. destruct (decide (e = ent)) as [->|Hne].
      * rewrite decide_True; [done|]. left.
      * rewrite decide_False; [done|]. rewrite elem_of_cons. naive_solver.
Qed.

Lemma nextId_foldl_remove ents : ∀ w,
  nextId (foldl remove w ents) = nextId w.
Proof. induction ents as [|e ents IH]; intros w; [done|]. simpl. by rewrite IH. Qed.

Section More.

Variable getOnlyEntity : list nat → Only.

Abbreviation findScene := (Sync.findScene getOnlyEntity).
Abbreviation createRemotePlayer := (Sync.createRemotePlayer getOnlyEntity).
Abbreviation handlePlayerJoin := (Sync.handlePlayerJoin getOnlyEntity).
Abbreviation handleSnapshot := (Sync.handleSnapshot getOnlyEntity).
Abbreviation handleRemotePlantEvent :=
  (Sync.handleRemotePlantEvent getOnlyEntity).
Abbreviation handleMessage := (Sync.handleMessage getOnlyEntity).
Abbreviation publishSnapshot := (Sync.publishSnapshot getOnlyEntity).
Abbreviation execute := (Sync.execute getOnlyEntity).
Abbreviation frame := (Sync.frame getOnlyEntity).
Abbreviation step := (Sync.step getOnlyEntity).
Abbreviation run := (Sync.run getOnlyEntity).

(** ** The map and the avatars *)

Lemma findScene_paired s s' : paired s → findScene s = Some s' → paired s'.
Proof.
  intros H Hs. apply findScene_same in Hs as (_ & Hr & Hw).
  unfold paired. by rewrite Hr, Hw.
Qed.

Lemma createRemotePlayer_paired s cid s' ent :
  paired s → Map_get (remotePlayers s) cid = None →
  createRemotePlayer s cid = Some (s', ent) →
  paired s' ∧ (cid, ent) ∈ remotePlayers s'.
Proof.
  intros Hs Hget. unfold Sync.createRemotePlayer.
  destruct (findScene s) as [s0|] eqn:E; [|done].
  pose proof (findScene_paired s s0 Hs E) as (H1 & H2 & H3 & H4 & H5).
  apply findScene_same in E as (_ & Hr & _). rewrite <- Hr in Hget.
  intros [= <- <-]. simpl.
  rewrite Map_set_new by done.
  destruct (world s0) as [ents next qs] eqn:Ew. simpl in *.
  unfold addComponent. simpl. rewrite lookup_insert_eq. simpl.
  assert (∀ k e, (k, e) ∈ remotePlayers s0 → e ≠ next) as Hold.
  { intros k e Hin. destruct (H1 k e Hin) as (np & He & _).
    apply H5 in He. simpl in He. lia. }
  split; [|set_solver]. split; [|split; [|split; [|split]]]; simpl.
  - intros k e. rewrite elem_of_app, list_elem_of_singleton.
    intros [Hin|[= -> ->]].
    + destruct (H1 k e Hin) as (np & He & Hk). exists np.
      split; [|done]. simpl. rewrite !lookup_insert_ne; [done|..];
        intros <-; by apply (Hold k next).
    + eexists. simpl. rewrite lookup_insert_eq. done.
  - intros e' comps np. destruct (decide (e' = next)) as [->|Hne].
    + rewrite lookup_insert_eq. intros [= <-].
      rewrite list_elem_of_singleton. intros [= ->]. simpl. set_solver.
    + rewrite !lookup_insert_ne by done. intros He Hin.
      apply elem_of_app. left. by apply (H2 e' comps).
  - rewrite fmap_app. simpl. apply NoDup_app. split; [done|].
    split; [|apply NoDup_singleton]. intros e Hin.
    rewrite list_elem_of_singleton. intros ->.
    apply list_elem_of_fmap in Hin as ([k e] & -> & Hin).
    by apply (Hold k e).
  - apply distinct_keys_app; [done|]. by apply Map_get_None.
  - intros e' comps. simpl. destruct (decide (e' = next)) as [->|Hne].
    + intros _. lia.
    + rewrite !lookup_insert_ne by done. intros He. apply H5 in He.
      simpl in *. lia.
Qed.

Lemma removeRemotePlayer_paired s cid :
  paired s → paired (removeRemotePlayer s cid).
Proof.
  intros (H1 & H2 & H3 & H4 & H5). unfold removeRemotePlayer.
  destruct (Map_get _ _) as [ent|] eqn:E; [|done].
  apply Map_get_Some in E as (k0 & Hin0 & Hk0).
  split; [|split; [|split; [|split]]]; simpl.
  - intros k e. rewrite elem_of_Map_delete_iff. simpl. intros [Hin Hk].
    destruct (H1 k e Hin) as (np & He & Hnp). exists np. split; [|done].
    simpl. rewrite lookup_delete_ne; [done|]. intros <-.
    assert (k0 = k) as -> by (by apply (NoDup_snd_elem _ _ _ ent H3)).
    congruence.
  - intros e comps np. rewrite lookup_delete.
    destruct (decide (ent = e)) as [->|Hne]; [done|]. intros He Hin.
    apply elem_of_Map_delete_iff. split; [by apply (H2 e comps)|]. simpl.
    destruct (SameValueZero (np_clientId np) cid) eqn:Hk; [|done].
    pose proof (H2 e comps np He Hin) as Hin'.
    assert (SameValueZero k0 (np_clientId np) = false) as Hd
      by (by apply (distinct_keys_elem _ _ ent _ e H4)).
    rewrite (SameValueZero_trans k0 cid (np_clientId np)) in Hd; [done|done|].
    by rewrite SameValueZero_sym.
  - by apply NoDup_snd_delete.
  - by apply distinct_keys_delete.
  - intros e comps. simpl. rewrite lookup_delete. case_decide; [done|].
    apply H5.
Qed.

Lemma updateRemotePlayerTransform_paired now s ent message :
  paired s →
  paired (with_world s
            (updateRemotePlayerTransform now (world s) ent message)).
Proof.
  intros (H1 & H2 & H3 & H4 & H5). unfold updateRemotePlayerTransform.
  destruct (entityList (world s) !! ent) as [comps|] eqn:E;
    [|by destruct s].
  split; [|split; [|split; [|split]]]; simpl; try done.
  - intros k e Hin. destruct (H1 k e Hin) as (np & He & Hnp).
    destruct (decide (e = ent)) as [->|Hne].
    + rewrite He in E. injection E as <-.
      exists (updateTargets now message np). simpl.
      rewrite lookup_insert_eq. by rewrite updateTargets_clientId.
    + exists np. simpl. by rewrite lookup_insert_ne.
  - intros e comps' np. destruct (decide (e = ent)) as [->|Hne].
    + rewrite lookup_insert_eq. intros [= <-].
      rewrite list_elem_of_fmap. intros (d & Hd & Hin).
      destruct d as [| | |c|]; try done. injection Hd as ->.
      rewrite updateTargets_clientId. by apply (H2 ent comps).
    + rewrite lookup_insert_ne by done. apply H2.
  - intros e comps'. simpl. destruct (decide (e = ent)) as [->|Hne].
    + intros _. by apply (H5 ent comps).
    + rewrite lookup_insert_ne by done. apply H5.
Qed.

Lemma handleRemotePlantEvent_paired s message :
  paired s → paired (handleRemotePlantEvent s message).
Proof.
  intros Hs. unfold Sync.handleRemotePlantEvent.
  destruct (is_string _ _); [done|].
  destruct (findScene s) as [s0|] eqn:E; [|done].
  pose proof (findScene_paired s s0 Hs E) as (H1 & H2 & H3 & H4 & H5).
  destruct (_ || _); [done|].
  destruct (world s0) as [ents next qs] eqn:Ew. simpl in *.
  unfold addComponent. simpl. rewrite lookup_insert_eq. simpl.
  rewrite lookup_insert_eq. simpl. rewrite lookup_insert_eq. simpl.
  split; [|split; [|split; [|split]]]; simpl; try done.
  - intros k e Hin. destruct (H1 k e Hin) as (np & He & Hnp).
    exists np. split; [|done]. simpl.
    pose proof (H5 _ _ He) as Hlt. simpl in Hlt.
    rewrite !lookup_insert_ne by lia. done.
  - intros e comps np. destruct (decide (e = next)) as [->|Hne].
    + rewrite lookup_insert_eq. intros [= <-]. set_solver.
    + rewrite !lookup_insert_ne by done. apply H2.
  - intros e comps. simpl. destruct (decide (e = next)) as [->|Hne].
    + intros _. lia.
    + rewrite !lookup_insert_ne by done. intros He. apply H5 in He.
      simpl in *. lia.
Qed.

Lemma handleMessage_paired now s message :
  paired s → paired (handleMessage now s message).
Proof.
  intros Hs. unfold Sync.handleMessage.
  destruct (nullish message); [done|].
  destruct (is_string _ "join").
  { unfold Sync.handlePlayerJoin. destruct (is_string _ (clientId s)); [done|].
    destruct (Map_get _ _) eqn:Eg; [done|].
    destruct (createRemotePlayer s _) as [[s' ent]|] eqn:Ec; [|done].
    by destruct (createRemotePlayer_paired s _ s' ent Hs Eg Ec). }
  destruct (is_string _ "leave").
  { unfold handlePlayerLeave. destruct (is_string _ (clientId s)); [done|].
    by apply removeRemotePlayer_paired. }
  destruct (is_string _ "snapshot").
  { unfold Sync.handleSnapshot. destruct (is_string _ (clientId s)); [done|].
    destruct (Map_get _ _) as [ent|] eqn:Eg.
    - by apply updateRemotePlayerTransform_paired.
    - destruct (createRemotePlayer s _) as [[s' ent]|] eqn:Ec; [|done].
      apply updateRemotePlayerTransform_paired.
      by destruct (createRemotePlayer_paired s _ s' ent Hs Eg Ec). }
  destruct (is_string _ "event:plant"); [|done].
  by apply handleRemotePlantEvent_paired.
Qed.

Lemma publishSnapshot_same env time s s' sent :
  publishSnapshot env time s = Some (s', sent) →
  remotePlayers s' = remotePlayers s ∧ world s' = world s
  ∧ clientId s' = clientId s.
Proof.
  unfold Sync.publishSnapshot. destruct (Qle_bool _ _); [|by intros [= <- _]].
  destruct (match localPlayerEntity s with
            | Some entity => Found entity
            | None => getOnlyEntity (results (world s) "localPlayer")
            end) as [| |entity]; [done|by intros [= <- _]|].
  simpl. destruct (entityList (world s) !! entity) as [e|];
    [|by intros [= <- _]].
  destruct (hasComponent e PlayerStateComponent); [|by intros [= <- _]].
  destruct (localPose env) as [[[head lh] rh]|]; by intros [= <- _].
Qed.

Lemma frame_same env time s :
  remotePlayers (frame env time s).1 = remotePlayers s
  ∧ entityList (world (frame env time s).1) = entityList (world s)
  ∧ nextId (world (frame env time s).1) = nextId (world s).
Proof.
  unfold Sync.frame, Sync.execute.
  destruct (negb (isConnected env)); [done|].
  destruct (publishSnapshot env time s) as [[s' sent]|] eqn:E; [|done].
  apply publishSnapshot_same in E as (Hr & Hw & _).
  destruct (match query (world s') "newlyPlanted" with
            | Some {| added := Some ents |} =>
                broadcastPlanted env (world s') ents
            | _ => ([], false)
            end) as [planted []]; simpl; by rewrite Hr, Hw.
Qed.

Lemma step_paired s ev : paired s → paired (step s ev).1.
Proof.
  intros Hs. destruct ev as [now message|env time|]; simpl.
  - by apply handleMessage_paired.
  - destruct Hs as (H1 & H2 & H3 & H4 & H5).
    destruct (frame_same env time s) as (Hr & He & Hn).
    unfold paired, avatar, numbered. rewrite Hr, He, Hn. done.
  - destruct Hs as (H1 & H2 & H3 & H4 & H5).
    split; [|split; [|split; [|split]]]; simpl.
    + intros k e. by rewrite elem_of_nil.
    + intros ent comps np. rewrite lookup_foldl_remove.
      case_decide as Hin; [done|]. intros He Hnp. destruct Hin.
      apply list_elem_of_fmap. exists (np_clientId np, ent).
      split; [done|]. by apply (H2 ent comps).
    + apply NoDup_nil_2.
    + done.
    + intros ent comps. rewrite lookup_foldl_remove, nextId_foldl_remove.
      case_decide; [done|]. apply H5.
Qed.

Lemma run_paired trace : ∀ s, paired s → paired (run s trace).1.
Proof.
  induction trace as [|ev trace IH]; intros s Hs; [done|].
  simpl. pose proof (step_paired s ev Hs) as Hs'.
  destruct (step s ev) as [s' sent]. specialize (IH s' Hs').
  by destruct (run s' trace).
Qed.

(** X20.  The map of remote players and the avatars of the world go
    together in every state the system reaches, when it starts in a
    world without avatars: the entity of each entry of the map is in
    the world and carries one component, the
    [NetworkedPlayerComponent] of the entry's key (so
    [updateRemotePlayerTransform] and [removeRemotePlayer] find the
    component they read), and every avatar in the world is the entity
    of an entry.  So once a client has left no avatar of it is in the
    world, and once the system has stopped no avatar is. *)
Theorem remote_players_have_avatars self room w trace :
  numbered w → no_avatars w →
  let s := (run (init self room w) trace).1 in
  (∀ k e, (k, e) ∈ remotePlayers s →
          ∃ np, entityList (world s) !! e = Some [NetworkedPlayerData np]
                ∧ np_clientId np = k)
  ∧ (∀ ent e np,
       entityList (world s) !! ent = Some e → NetworkedPlayerData np ∈ e →
       (np_clientId np, ent) ∈ remotePlayers s)
  ∧ (∀ cid ent e np,
       entityList (world (removeRemotePlayer s cid)) !! ent = Some e →
       NetworkedPlayerData np ∈ e →
       SameValueZero (np_clientId np) cid = false)
  ∧ no_avatars (world (onStop s)).
Proof.
  intros Hn Hw s.
  assert (paired s) as Hs.
  { apply run_paired. split; [|split; [|split; [|split]]]; simpl; try done.
    - intros k e. by rewrite elem_of_nil.
    - intros ent e np He Hin. by destruct (Hw ent e np).
    - apply NoDup_nil_2. }
  split; [apply Hs|]. split; [apply Hs|]. split.
  - intros cid ent e np He Hin.
    destruct (removeRemotePlayer_paired s cid Hs) as (_ & H2 & _).
    specialize (H2 ent e np He Hin).
    unfold removeRemotePlayer in *.
    destruct (Map_get (remotePlayers s) cid) as [ent0|] eqn:E; simpl in *.
    + by apply elem_of_Map_delete_iff in H2 as [_ H2].
    + by apply (proj1 (Map_get_None _ _) E _ ent).
  - pose proof (step_paired s Stop Hs) as (_ & H2 & _). simpl in H2.
    intros ent e np He Hin. specialize (H2 ent e np He Hin).
    by apply elem_of_nil in H2.
Qed.

(** ** Joining *)

(** X21.  A second join of the same client makes no second avatar: for
    the [clientId] of another client that is a key equal to itself (a
    string, a number, ...), [handlePlayerJoin] on the state a join has
    left changes nothing; and a leave then takes the entry out of the
    map again. *)
Theorem join_twice_one_avatar s message :
  SameValueZero (get message "clientId") (get message "clientId") = true →
  is_string (get message "clientId") (clientId s) = false →
  handlePlayerJoin (handlePlayerJoin s message) message
  = handlePlayerJoin s message
  ∧ Map_get
      (remotePlayers (handlePlayerLeave (handlePlayerJoin s message) message))
      (get message "clientId")
    = None.
Proof.
  intros Hk Eown.
  assert (clientId (handlePlayerJoin s message) = clientId s) as Hc.
  { unfold Sync.handlePlayerJoin. rewrite Eown.
    destruct (Map_get _ _); [done|].
    destruct (createRemotePlayer s _) as [[s' ent]|] eqn:Ec; [|done].
    unfold Sync.createRemotePlayer in Ec.
    destruct (findScene s) as [s0|] eqn:Es; [|done].
    apply findScene_same in Es as (Hc & _ & _).
    by injection Ec as <- <-. }
  split.
  - destruct (Map_get (remotePlayers s) (get message "clientId"))
      as [ent|] eqn:Eg.
    { assert (handlePlayerJoin s message = s) as ->
        by (unfold Sync.handlePlayerJoin; by rewrite Eown, Eg).
      unfold Sync.handlePlayerJoin. by rewrite Eown, Eg. }
    destruct (createRemotePlayer s (get message "clientId"))
      as [[s' ent]|] eqn:Ec.
    + assert (handlePlayerJoin s message = s') as ->
        by (unfold Sync.handlePlayerJoin; by rewrite Eown, Eg, Ec).
      unfold Sync.createRemotePlayer in Ec.
      destruct (findScene s) as [s0|] eqn:Es; [|done].
      apply findScene_same in Es as (Hc0 & _ & _).
      injection Ec as <- <-. unfold Sync.handlePlayerJoin. simpl.
      by rewrite Hc0, Eown, Map_get_set.
    + assert (handlePlayerJoin s message = s) as ->
        by (unfold Sync.handlePlayerJoin; by rewrite Eown, Eg, Ec).
      unfold Sync.handlePlayerJoin. by rewrite Eown, Eg, Ec.
  - unfold handlePlayerLeave. rewrite Hc, Eown.
    unfold removeRemotePlayer.
    destruct (Map_get (remotePlayers (handlePlayerJoin s message))
                (get message "clientId")) as [ent|] eqn:Eg; [|done].
    simpl. apply Map_get_delete.
Qed.

(** ** Publishing *)

Lemma findScene_time s s' :
  findScene s = Some s' → lastSnapshotTime s' = lastSnapshotTime s.
Proof.
  unfold Sync.findScene. destruct (scene s); [by intros [= <-]|].
  destruct (getOnlyEntity _); try done. by intros [= <-].
Qed.

Lemma createRemotePlayer_time s cid s' ent :
  createRemotePlayer s cid = Some (s', ent) →
  lastSnapshotTime s' = lastSnapshotTime s.
Proof.
  unfold Sync.createRemotePlayer.
  destruct (findScene s) as [s0|] eqn:E; [|done].
  apply findScene_time in E. by intros [= <- _].
Qed.

Lemma handleMessage_time now s message :
  lastSnapshotTime (handleMessage now s message) = lastSnapshotTime s.
Proof.
  unfold Sync.handleMessage. destruct (nullish message); [done|].
  destruct (is_string _ "join").
  { unfold Sync.handlePlayerJoin. destruct (is_string _ (clientId s)); [done|].
    destruct (Map_get _ _); [done|].
    destruct (createRemotePlayer s _) as [[s' ent]|] eqn:Ec; [|done].
    by apply createRemotePlayer_time in Ec. }
  destruct (is_string _ "leave").
  { unfold handlePlayerLeave, removeRemotePlayer.
    destruct (is_string _ (clientId s)); [done|].
    by destruct (Map_get _ _). }
  destruct (is_string _ "snapshot").
  { unfold Sync.handleSnapshot. destruct (is_string _ (clientId s)); [done|].
    destruct (Map_get _ _); [done|].
    destruct (createRemotePlayer s _) as [[s' ent]|] eqn:Ec; [|done].
    by apply createRemotePlayer_time in Ec. }
  destruct (is_string _ "event:plant"); [|done].
  unfold Sync.handleRemotePlantEvent.
  destruct (is_string _ (clientId s)); [done|].
  destruct (findScene s) as [s0|] eqn:E; [|done].
  apply findScene_time in E. destruct (_ || _); [done|].
  by destruct (createEntity (world s0)).
Qed.

Lemma publishSnapshot_sent env time s s' sent :
  publishSnapshot env time s = Some (s', sent) →
  (sent = [] ∧ lastSnapshotTime s' = lastSnapshotTime s)
  ∨ (∃ head lh rh,
       sent = [SnapshotOut time head lh rh]
       ∧ (50 <= time - lastSnapshotTime s)%Q ∧ lastSnapshotTime s' = time).
Proof.
  unfold Sync.publishSnapshot.
  destruct (Qle_bool _ _) eqn:Ht; [|intros [= <- <-]; by left].
  apply Qle_bool_iff in Ht.
  destruct (match localPlayerEntity s with
            | Some entity => Found entity
            | None => getOnlyEntity (results (world s) "localPlayer")
            end) as [| |entity]; [done|intros [= <- <-]; by left|].
  simpl. destruct (entityList (world s) !! entity) as [e|];
    [|intros [= <- <-]; by left].
  destruct (hasComponent e PlayerStateComponent);
    [|intros [= <- <-]; by left].
  destruct (localPose env) as [[[head lh] rh]|]; intros [= <- <-];
    [right|by left].
  by exists head, lh, rh.
Qed.

Lemma plantMessage_plant env e m : plantMessage env e = Some m → is_plant m = true.
Proof.
  unfold plantMessage.
  destruct (list_find _ e) as [[i []]|]; try done.
  destruct (list_find _ e) as [[j []]|]; try done.
  by intros [= <-].
Qed.

Lemma broadcastPlanted_plants env w ents :
  Forall (λ m, is_plant m = true) (broadcastPlanted env w ents).1.
Proof.
  induction ents as [|ent ents IH]; simpl; [done|].
  destruct (entityList w !! ent ≫= plantMessage env) as [m|] eqn:E; [|done].
  destruct (broadcastPlanted env w ents) as [sent threw]. simpl in *.
  apply Forall_cons. split; [|done].
  destruct (entityList w !! ent) as [e|]; [|done]. simpl in E.
  by apply (plantMessage_plant env e).
Qed.

Lemma snapshot_times_plants sent :
  Forall (λ m, is_plant m = true) sent → snapshot_times sent = [].
Proof.
  induction 1 as [|m sent Hm _ IH]; [done|]. by destruct m.
Qed.

Lemma snapshot_times_app sent1 sent2 :
  snapshot_times (sent1 ++ sent2)
  = snapshot_times sent1 ++ snapshot_times sent2.
Proof. apply omap_app. Qed.

Lemma execute_sent env time s :
  ∃ published planted,
    (execute env time s).1.2 = published ++ planted
    ∧ Forall (λ m, is_plant m = true) planted
    ∧ ((published = []
        ∧ lastSnapshotTime (execute env time s).1.1 = lastSnapshotTime s)
       ∨ (∃ head lh rh,
            published = [SnapshotOut time head lh rh]
            ∧ (50 <= time - lastSnapshotTime s)%Q
            ∧ lastSnapshotTime (execute env time s).1.1 = time)).
Proof.
  unfold Sync.execute. destruct (negb (isConnected env)).
  { exists [], []. split; [done|]. split; [done|]. by left. }
  destruct (publishSnapshot env time s) as [[s' published]|] eqn:E.
  - pose proof (broadcastPlanted_plants env (world s')) as Hp.
    apply publishSnapshot_sent in E.
    destruct (query (world s') "newlyPlanted") as [[C N es [ents|]]|].
    + specialize (Hp ents).
      destruct (broadcastPlanted env (world s') ents) as [planted threw].
      by exists published, planted.
    + exists published, []. done.
    + exists published, []. done.
  - exists [], []. split; [done|]. split; [done|]. by left.
Qed.

Lemma step_spaced s ev :
  (snapshot_times (step s ev).2 = []
   ∧ lastSnapshotTime (step s ev).1 = lastSnapshotTime s)
  ∨ (∃ t, snapshot_times (step s ev).2 = [t]
          ∧ (50 <= t - lastSnapshotTime s)%Q
          ∧ lastSnapshotTime (step s ev).1 = t).
Proof.
  destruct ev as [now message|env time|]; simpl.
  - left. split; [done|]. apply handleMessage_time.
  - unfold Sync.frame.
    destruct (execute_sent env time s) as (published & planted & Hs & Hp & H).
    destruct (execute env time s) as [[s' sent] threw]. simpl in *.
    subst sent. rewrite snapshot_times_app.
    rewrite (snapshot_times_plants planted Hp), app_nil_r.
    destruct H as [[-> Ht]|(head & lh & rh & -> & Hle & Ht)].
    + left. by destruct threw.
    + right. exists time. by destruct threw.
  - by left.
Qed.

(** X22.  The snapshots the system publishes are at least 50 apart in
    frame time: whatever arrives and however often frames run, each
    snapshot it hands to the transport bears a time at least 50 after
    that of the snapshot before it, and [lastSnapshotTime] is the time
    of the last one.  And a frame does publish one, bearing the frame's
    time, when the transport is connected, 50 have passed, and the
    local player and both controller models are there. *)
Theorem snapshots_50ms_apart trace : ∀ s,
  spaced (lastSnapshotTime s) (snapshot_times (run s trace).2)
  ∧ lastSnapshotTime (run s trace).1
    = default (lastSnapshotTime s) (last (snapshot_times (run s trace).2))
  ∧ ∀ env time entity e head lh rh,
      isConnected env = true →
      (50 <= time - lastSnapshotTime s)%Q →
      match localPlayerEntity s with
      | Some entity => Found entity
      | None => getOnlyEntity (results (world s) "localPlayer")
      end = Found entity →
      entityList (world s) !! entity = Some e →
      hasComponent e PlayerStateComponent = true →
      localPose env = Some (head, lh, rh) →
      snapshot_times (frame env time s).2 = [time].
Proof.
  induction trace as [|ev trace IH]; intros s.
  - split; [done|]. split; [done|].
    intros env time entity e head lh rh Hc Ht He Hw Hp Hl.
    apply Qle_bool_iff in Ht.
    unfold Sync.frame, Sync.execute, Sync.publishSnapshot.
    rewrite Hc, Ht, He. simpl. rewrite Hw, Hp, Hl. simpl.
    pose proof (broadcastPlanted_plants env (world s)) as Hplants.
    destruct (query (world s) "newlyPlanted") as [[C N es [ents|]]|];
      try done.
    specialize (Hplants ents).
    destruct (broadcastPlanted env (world s) ents) as [planted threw].
    simpl in *. apply snapshot_times_plants in Hplants.
    destruct threw; simpl; by rewrite Hplants.
  - destruct (IH s) as (_ & _ & Hframe).
    assert (spaced (lastSnapshotTime s)
              (snapshot_times (run s (ev :: trace)).2)
            ∧ lastSnapshotTime (run s (ev :: trace)).1
              = default (lastSnapshotTime s)
                  (last (snapshot_times (run s (ev :: trace)).2)))
      as [Hspaced Hlast]; [|done].
    simpl. pose proof (step_spaced s ev) as Hstep.
    destruct (step s ev) as [s1 sent1]. destruct (IH s1) as (Hsp & Hl & _).
    destruct (run s1 trace) as [s2 sent2]. simpl in *.
    rewrite snapshot_times_app.
    destruct Hstep as [[-> Ht]|(t & -> & Hle & Ht)]; simpl.
    + rewrite <- Ht. split; assumption.
    + rewrite Ht in Hsp, Hl. split; [split; assumption|].
      rewrite Hl, last_cons. by destruct (last _).
Qed.

(** ** Announcing plants *)

Lemma query_clearEvents w name :
  added <$> query (clearEvents w) name
  = (λ q, (λ _ : list nat, []) <$> added q) <$> query w name.
Proof.
  unfold clearEvents. rewrite query_updated. destruct w as [ents next qs].
  simpl. by destruct (query _ _).
Qed.

(** X23.  A frame without connection sends nothing; and after a frame
    in which [execute] did not throw, connected or not, the list of
    newly planted entities is empty, so that the next frame announces
    no plant.  So a plant is announced in the frame after it was set or
    never: one that was set while the transport was down is not
    announced later. *)
Theorem plant_announced_in_one_frame env time s env' time' :
  (execute env time s).2 = false →
  (isConnected env = false → (frame env time s).2 = [])
  ∧ filter (λ m, is_plant m = true)
      (frame env' time' (frame env time s).1).2 = [].
Proof.
  intros Hthrew. split.
  { intros Hd. unfold Sync.frame, Sync.execute. by rewrite Hd. }
  unfold Sync.frame at 2.
  destruct (execute env time s) as [[s0 sent0] threw]. simpl in *.
  subst threw. simpl.
  set (s1 := with_world s0 (clearEvents (world s0))).
  unfold Sync.frame, Sync.execute.
  destruct (negb (isConnected env')); [done|].
  destruct (publishSnapshot env' time' s1) as [[s2 published]|] eqn:E;
    [|done].
  destruct (publishSnapshot_same _ _ _ _ _ E) as (_ & Hw & _).
  apply publishSnapshot_sent in E. rewrite Hw. simpl.
  pose proof (query_clearEvents (world s0) "newlyPlanted") as Hq.
  destruct (query (clearEvents (world s0)) "newlyPlanted")
    as [[C N es a]|]; simpl in *.
  - destruct (query (world s0) "newlyPlanted") as [q0|]; [|done].
    simpl in Hq. injection Hq as ->.
    destruct (added q0); simpl; rewrite app_nil_r;
      by destruct E as [[-> _]|(? & ? & ? & -> & _)].
  - simpl. rewrite app_nil_r.
    by destruct E as [[-> _]|(? & ? & ? & -> & _)].
Qed.

End More.

(** ** Targets *)





(** ** Instances *)

Lemma stage_entities :
  entityList stage = <[0%nat := [OtherData THREEGlobalComponent]]> ∅
  ∧ nextId stage = 1%nat.
Proof. split; vm_compute; reflexivity. Qed.

Lemma stage_numbered : numbered stage.
Proof.
  destruct stage_entities as [He Hn]. intros ent e. rewrite He, Hn.
  rewrite lookup_insert. case_decide; [lia|by rewrite lookup_empty].
Qed.

Lemma stage_no_avatars : no_avatars stage.
Proof.
  destruct stage_entities as [He _]. intros ent e np. rewrite He.
  rewrite lookup_insert. case_decide; [|by rewrite lookup_empty].
  intros [= <-]. by rewrite list_elem_of_singleton.
Qed.

(** Clients b and c join and b leaves: entity 2 is the avatar of c, and
    no avatar is left when the system has stopped. *)
Lemma remote_players_have_avatars_witness :
  (∃ np,
     entityList
       (world (Sync.run theOnly (init "me" "default" stage)
                 [Inbound 1 (joinMessage "b"); Inbound 2 (joinMessage "c");
                  Inbound 3 (leaveMessage "b")]).1) !! 2%nat
     = Some [NetworkedPlayerData np]
     ∧ np_clientId np = Str "c")
  ∧ no_avatars
      (world (onStop (Sync.run theOnly (init "me" "default" stage)
                        [Inbound 1 (joinMessage "b");
                         Inbound 2 (joinMessage "c");
                         Inbound 3 (leaveMessage "b")]).1)).
Proof.
  destruct (remote_players_have_avatars theOnly "me" "default" stage
              [Inbound 1 (joinMessage "b"); Inbound 2 (joinMessage "c");
               Inbound 3 (leaveMessage "b")]
              stage_numbered stage_no_avatars) as (Hentry & _ & _ & Hstop).
  split; [|exact Hstop]. apply Hentry.
  assert (remotePlayers
            (Sync.run theOnly (init "me" "default" stage)
               [Inbound 1 (joinMessage "b"); Inbound 2 (joinMessage "c");
                Inbound 3 (leaveMessage "b")]).1
          = [(Str "c", 2%nat)]) as -> by (vm_compute; reflexivity).
  apply list_elem_of_here.
Defined.

(** Client b joins twice. *)
Lemma join_twice_one_avatar_witness :
  Sync.handlePlayerJoin theOnly
    (Sync.handlePlayerJoin theOnly (init "me" "default" stage)
       (joinMessage "b"))
    (joinMessage "b")
  = Sync.handlePlayerJoin theOnly (init "me" "default" stage)
      (joinMessage "b").
Proof.
  destruct (join_twice_one_avatar theOnly (init "me" "default" stage)
              (joinMessage "b")) as [Hagain _].
  - reflexivity.
  - reflexivity.
  - exact Hagain.
Defined.

(** The local player is there and 60 have passed. *)
Lemma snapshots_50ms_apart_witness :
  snapshot_times
    (Sync.frame theOnly (mkEnv true 7 (Some somePose)) 60
       (init "me" "default" stage_with_player)).2
  = [60%Q].
Proof.
  destruct (snapshots_50ms_apart theOnly []
              (init "me" "default" stage_with_player)) as (_ & _ & Hframe).
  apply (Hframe (mkEnv true 7 (Some somePose)) 60%Q 1%nat
           [OtherData PlayerStateComponent]
           (Str "head") (Str "left") (Str "right")).
  - reflexivity.
  - simpl. lra.
  - vm_compute. reflexivity.
  - vm_compute. reflexivity.
  - vm_compute. reflexivity.
  - reflexivity.
Defined.

(** A rose is planted while the transport is down: neither that frame
    nor the next, with the transport up again, announces it. *)
Lemma plant_announced_in_one_frame_witness :
  (Sync.frame theOnly (mkEnv false 7 None) 60
     (init "me" "default" stage_with_rose)).2 = []
  ∧ filter (λ m, is_plant m = true)
      (Sync.frame theOnly (mkEnv true 8 None) 120
         (Sync.frame theOnly (mkEnv false 7 None) 60
            (init "me" "default" stage_with_rose)).1).2
    = [].
Proof.
  destruct (plant_announced_in_one_frame theOnly (mkEnv false 7 None) 60
              (init "me" "default" stage_with_rose) (mkEnv true 8 None) 120)
    as [Hdown Hnext].
  - reflexivity.
  - split; [by apply Hdown|exact Hnext].
Defined.

End SyncMore.
